(** * osu-collector-dl: the download orchestration engine

    A shallow embedding of [src/core/DownloadManager.ts] together with the
    parts of [struct/Constant.ts], [struct/Config.ts] and
    [core/Requestor.ts] it relies on, and the properties of the mirror
    fallback chain, the rate-limit back-off, the ban list and the
    per-item outcome that the specification states about them.

    The manager is a JavaScript object driven by an event loop: every
    [async] function runs without interruption up to its next [await].
    The embedding follows that discipline.  [_downloadFile] is cut at its
    awaits into [downloadFile_begin] (entry up to the fetch),
    [downloadFile_response] (the fetch settles), [downloadFile_rateStatus]
    (the allowance query settles) and [downloadFile_flush] (the body has
    been streamed to disk); the fields of the object are the fields of
    the record [Manager]; emitted events and issued requests are appended
    to a trace, and the files written are kept as a set.  The event loop
    itself is the function [step]: it starts a queued job, resumes a
    suspended attempt with what the network or the disk delivered, lets
    time pass, or fires the cooldown timer. *)

From Stdlib Require Import ZArith Lia Ascii String.
From stdpp Require Import gmap strings list.

Local Open Scope Z_scope.

(** ** struct/Constant.ts *)

Module Constant.

(** [enum Mirror], in declaration order. *)
Inductive Mirror :=
  | Catboy | Nerinyan | OsuDirect | Sayobot | Beatconnect | Nekoha.

#[global] Instance Mirror_eq_dec : EqDecision Mirror.
Proof. solve_decision. Defined.

Definition Mirror_to_nat (m : Mirror) : nat :=
  match m with
  | Catboy => 0 | Nerinyan => 1 | OsuDirect => 2
  | Sayobot => 3 | Beatconnect => 4 | Nekoha => 5
  end%nat.

Definition Mirror_of_nat (n : nat) : option Mirror :=
  match n with
  | 0 => Some Catboy | 1 => Some Nerinyan | 2 => Some OsuDirect
  | 3 => Some Sayobot | 4 => Some Beatconnect | 5 => Some Nekoha
  | _ => None
  end%nat.

#[global] Program Instance Mirror_countable : Countable Mirror :=
  inj_countable Mirror_to_nat Mirror_of_nat _.
Next Obligation. by intros []. Qed.

(** [Object.values(Mirror)]: the values of a string enum in declaration
    order.  This is the registry. *)
Definition Mirror_values : list Mirror :=
  [Catboy; Nerinyan; OsuDirect; Sayobot; Beatconnect; Nekoha].

(** [getFallbackMirrors(current)] *)
Definition getFallbackMirrors (current : Mirror) : list Mirror :=
  filter (λ m, m ≠ current) Mirror_values.

(** The test written out four times in [DownloadManager.ts]:
    [m === Nerinyan || m === Sayobot || m === Beatconnect || m === Nekoha].
    These are the mirrors of the unthrottled class; Catboy and OsuDirect
    are the throttled ones. *)
Definition noRateLimit (m : Mirror) : bool :=
  match m with
  | Nerinyan | Sayobot | Beatconnect | Nekoha => true
  | Catboy | OsuDirect => false
  end.

End Constant.
Export Constant.

(** ** The mirror fallback resolver (DownloadManager.ts, lines 147-156) *)

Abbreviation MirrorSet := (gset Mirror).

(** [l.filter(m => !this.bannedMirrors.has(m))] *)
Definition dropBanned (banned : MirrorSet) (l : list Mirror) : list Mirror :=
  filter (λ m, m ∉ banned) l.

(** The chain of a first attempt ([options.remainingMirrors] undefined). *)
Definition firstAttemptMirrors (preferred : Mirror) (banned : MirrorSet)
  : list Mirror :=
  if decide (preferred ∈ banned)
  then dropBanned banned (getFallbackMirrors preferred)
  else preferred :: dropBanned banned (getFallbackMirrors preferred).

(** [allMirrors] for either kind of attempt. *)
Definition resolveMirrors (preferred : Mirror) (banned : MirrorSet)
    (remainingMirrors : option (list Mirror)) : list Mirror :=
  match remainingMirrors with
  | Some rest => dropBanned banned rest
  | None => firstAttemptMirrors preferred banned
  end.

(** ** struct/Config.ts: the three settings the manager reads *)

Module Config.
Record t := {
  parallel : bool;
  concurrency : Z;
  mirror : Mirror
}.
End Config.

(** [config.parallel ? config.concurrency : 1], the concurrency the queue
    is built with and the one line 252 puts back. *)
Definition configuredConcurrency (cfg : Config.t) : Z :=
  if Config.parallel cfg then Config.concurrency cfg else 1.

(** ** Work items *)

(** A beatmap set is opaque to the manager except for its [id], the key
    of [collection.beatMapSets]. *)
Module BeatMapSet.
Record t := { id : Z; title : string }.
End BeatMapSet.

(** [collection.beatMapSets.delete(id)] on the insertion-ordered map. *)
Definition Map_delete (k : Z) (m : list BeatMapSet.t) : list BeatMapSet.t :=
  filter (λ b, BeatMapSet.id b ≠ k) m.

(** ** What the transport hands back *)

(** [response.body]: the lengths of the chunks the stream yields, and
    whether both the iteration and the final flush of the file complete
    ([streamOk = false]: one of them rejects). *)
Record Body := { chunks : list N; streamOk : bool }.

(** The parts of an undici [Response] the manager looks at.  [fileName]
    is the value of [_getFilename(response)]: the sanitised name from the
    content-disposition header or ["Untitled.osz"], and [None] when the
    extraction throws [FILE_NAME_EXTRACTION_FAILED]. *)
Record Response := {
  status : Z;
  x_ratelimit_remaining : option string;
  fileName : option string;
  body : option Body
}.

(** [await Requestor.fetchDownloadCollection(...)] either rejects (the
    transport failed) or yields a response. *)
Inductive FetchResult :=
  | FetchRejected
  | FetchResponse (r : Response).

(** [await Requestor.checkRateLimitation()] either rejects or yields
    [number | null]. *)
Inductive RateResult :=
  | RateRejected
  | RateStatus (v : option Z).

(** The values thrown inside the [try] of [_downloadFile] and caught at
    line 285, and the one string passed to ["error"] at line 159. *)
Inductive Thrown :=
  | AllMirrorsAreBanned
  | StatusCode (status : Z)
  | ResBodyIsNull
  | FileTooSmall (bytesWritten : Z)
  | FetchFailed
  | RateCheckFailed
  | FileNameExtractionFailed
  | StreamFailed.

(** ** Events ([DownloadManagerEvents]) and effects *)

Inductive Event :=
  | downloaded (b : BeatMapSet.t)
  | skipped (b : BeatMapSet.t)
  | error (b : BeatMapSet.t) (e : Thrown)
  | retrying (b : BeatMapSet.t)
  | downloading (b : BeatMapSet.t)
  | rateLimited
  | dailyRateLimited (bs : list BeatMapSet.t)
  | blocked (bs : list BeatMapSet.t)
  | unavailable (bs : list BeatMapSet.t)
  | ended (bs : list BeatMapSet.t).   (* the event named "end" *)

Inductive Effect :=
  | Emit (e : Event)
  | Fetch (id : Z) (m : Mirror)   (* Requestor.fetchDownloadCollection *)
  | CheckRateLimitation.          (* Requestor.checkRateLimitation *)

(** ** Jobs and suspended attempts *)

(** The three closures handed to [queue.add]: the one of [bulkDownload]
    (line 98), the re-submission after a 429 (lines 205 and 229), and the
    retry on the next mirror (line 293). *)
Inductive Task :=
  | Submitted (b : BeatMapSet.t)
  | RetrySame (b : BeatMapSet.t) (options : option (list Mirror))
  | RetryNext (b : BeatMapSet.t) (remainingMirrors : list Mirror).

(** The locals of one call of [_downloadFile] that live across its
    awaits, and the job that made the call. *)
Record Attempt := {
  job : Task;
  beatMapSet : BeatMapSet.t;
  options : option (list Mirror);   (* [options.remainingMirrors] *)
  currentMirror : Mirror;
  nextMirrors : list Mirror;
  isProbeRequest : bool
}.

(** The await a started attempt is suspended at. *)
Inductive Awaiting :=
  | AwaitFetch
  | AwaitRateStatus
  | AwaitFlush (filePath : string) (b : Body).

(** ** The manager, its queue and the part of the world it touches *)

Record Manager := {
  queue : list Task;  (* [PQueue]: the jobs not yet started, oldest first *)
  isPaused : bool;  (* [queue.isPaused] *)
  concurrency : Z;  (* [queue.concurrency] *)
  pending : list (Attempt * Awaiting);  (* the jobs started and not yet settled, each suspended at an [await] *)
  downloadedBeatMapSetSize : Z;
  skippedBeatMapSetSize : Z;
  existingBeatmapsetIds : option (gset Z);  (* [Set<number> | null] *)
  remainingDownloadsLimit : option Z;  (* [number | null] *)
  lastDownloadsLimitCheck : option Z;  (* [number | null] *)
  testRequest : bool;
  bannedMirrors : MirrorSet;
  beatMapSets : list BeatMapSet.t;  (* [collection.beatMapSets], in insertion order *)
  clock : Z;  (* [Date.now()], in milliseconds *)
  timers : list Z;  (* due times of the [setTimeout(() => this.queue.start(), 60e3)] calls still armed *)
  files : gset string;  (* the files of the destination directory written by the run *)
  trace : list Effect  (* events emitted and requests issued, oldest first *)
}.

Definition set_queue (v : list Task) (s : Manager) : Manager :=
  {| queue := v; isPaused := isPaused s; concurrency := concurrency s;
     pending := pending s;
     downloadedBeatMapSetSize := downloadedBeatMapSetSize s;
     skippedBeatMapSetSize := skippedBeatMapSetSize s;
     existingBeatmapsetIds := existingBeatmapsetIds s;
     remainingDownloadsLimit := remainingDownloadsLimit s;
     lastDownloadsLimitCheck := lastDownloadsLimitCheck s;
     testRequest := testRequest s; bannedMirrors := bannedMirrors s;
     beatMapSets := beatMapSets s; clock := clock s;
     timers := timers s; files := files s; trace := trace s |}.

Definition set_isPaused (v : bool) (s : Manager) : Manager :=
  {| queue := queue s; isPaused := v; concurrency := concurrency s;
     pending := pending s;
     downloadedBeatMapSetSize := downloadedBeatMapSetSize s;
     skippedBeatMapSetSize := skippedBeatMapSetSize s;
     existingBeatmapsetIds := existingBeatmapsetIds s;
     remainingDownloadsLimit := remainingDownloadsLimit s;
     lastDownloadsLimitCheck := lastDownloadsLimitCheck s;
     testRequest := testRequest s; bannedMirrors := bannedMirrors s;
     beatMapSets := beatMapSets s; clock := clock s;
     timers := timers s; files := files s; trace := trace s |}.

Definition set_concurrency (v : Z) (s : Manager) : Manager :=
  {| queue := queue s; isPaused := isPaused s; concurrency := v;
     pending := pending s;
     downloadedBeatMapSetSize := downloadedBeatMapSetSize s;
     skippedBeatMapSetSize := skippedBeatMapSetSize s;
     existingBeatmapsetIds := existingBeatmapsetIds s;
     remainingDownloadsLimit := remainingDownloadsLimit s;
     lastDownloadsLimitCheck := lastDownloadsLimitCheck s;
     testRequest := testRequest s; bannedMirrors := bannedMirrors s;
     beatMapSets := beatMapSets s; clock := clock s;
     timers := timers s; files := files s; trace := trace s |}.

Definition set_pending (v : list (Attempt * Awaiting)) (s : Manager) : Manager :=
  {| queue := queue s; isPaused := isPaused s;
     concurrency := concurrency s; pending := v;
     downloadedBeatMapSetSize := downloadedBeatMapSetSize s;
     skippedBeatMapSetSize := skippedBeatMapSetSize s;
     existingBeatmapsetIds := existingBeatmapsetIds s;
     remainingDownloadsLimit := remainingDownloadsLimit s;
     lastDownloadsLimitCheck := lastDownloadsLimitCheck s;
     testRequest := testRequest s; bannedMirrors := bannedMirrors s;
     beatMapSets := beatMapSets s; clock := clock s;
     timers := timers s; files := files s; trace := trace s |}.

Definition set_downloadedBeatMapSetSize (v : Z) (s : Manager) : Manager :=
  {| queue := queue s; isPaused := isPaused s;
     concurrency := concurrency s; pending := pending s;
     downloadedBeatMapSetSize := v;
     skippedBeatMapSetSize := skippedBeatMapSetSize s;
     existingBeatmapsetIds := existingBeatmapsetIds s;
     remainingDownloadsLimit := remainingDownloadsLimit s;
     lastDownloadsLimitCheck := lastDownloadsLimitCheck s;
     testRequest := testRequest s; bannedMirrors := bannedMirrors s;
     beatMapSets := beatMapSets s; clock := clock s;
     timers := timers s; files := files s; trace := trace s |}.

Definition set_skippedBeatMapSetSize (v : Z) (s : Manager) : Manager :=
  {| queue := queue s; isPaused := isPaused s;
     concurrency := concurrency s; pending := pending s;
     downloadedBeatMapSetSize := downloadedBeatMapSetSize s;
     skippedBeatMapSetSize := v;
     existingBeatmapsetIds := existingBeatmapsetIds s;
     remainingDownloadsLimit := remainingDownloadsLimit s;
     lastDownloadsLimitCheck := lastDownloadsLimitCheck s;
     testRequest := testRequest s; bannedMirrors := bannedMirrors s;
     beatMapSets := beatMapSets s; clock := clock s;
     timers := timers s; files := files s; trace := trace s |}.

Definition set_remainingDownloadsLimit (v : option Z) (s : Manager) : Manager :=
  {| queue := queue s; isPaused := isPaused s;
     concurrency := concurrency s; pending := pending s;
     downloadedBeatMapSetSize := downloadedBeatMapSetSize s;
     skippedBeatMapSetSize := skippedBeatMapSetSize s;
     existingBeatmapsetIds := existingBeatmapsetIds s;
     remainingDownloadsLimit := v;
     lastDownloadsLimitCheck := lastDownloadsLimitCheck s;
     testRequest := testRequest s; bannedMirrors := bannedMirrors s;
     beatMapSets := beatMapSets s; clock := clock s;
     timers := timers s; files := files s; trace := trace s |}.

Definition set_lastDownloadsLimitCheck (v : option Z) (s : Manager) : Manager :=
  {| queue := queue s; isPaused := isPaused s;
     concurrency := concurrency s; pending := pending s;
     downloadedBeatMapSetSize := downloadedBeatMapSetSize s;
     skippedBeatMapSetSize := skippedBeatMapSetSize s;
     existingBeatmapsetIds := existingBeatmapsetIds s;
     remainingDownloadsLimit := remainingDownloadsLimit s;
     lastDownloadsLimitCheck := v; testRequest := testRequest s;
     bannedMirrors := bannedMirrors s; beatMapSets := beatMapSets s;
     clock := clock s; timers := timers s; files := files s;
     trace := trace s |}.

Definition set_testRequest (v : bool) (s : Manager) : Manager :=
  {| queue := queue s; isPaused := isPaused s;
     concurrency := concurrency s; pending := pending s;
     downloadedBeatMapSetSize := downloadedBeatMapSetSize s;
     skippedBeatMapSetSize := skippedBeatMapSetSize s;
     existingBeatmapsetIds := existingBeatmapsetIds s;
     remainingDownloadsLimit := remainingDownloadsLimit s;
     lastDownloadsLimitCheck := lastDownloadsLimitCheck s;
     testRequest := v; bannedMirrors := bannedMirrors s;
     beatMapSets := beatMapSets s; clock := clock s;
     timers := timers s; files := files s; trace := trace s |}.

Definition set_bannedMirrors (v : MirrorSet) (s : Manager) : Manager :=
  {| queue := queue s; isPaused := isPaused s;
     concurrency := concurrency s; pending := pending s;
     downloadedBeatMapSetSize := downloadedBeatMapSetSize s;
     skippedBeatMapSetSize := skippedBeatMapSetSize s;
     existingBeatmapsetIds := existingBeatmapsetIds s;
     remainingDownloadsLimit := remainingDownloadsLimit s;
     lastDownloadsLimitCheck := lastDownloadsLimitCheck s;
     testRequest := testRequest s; bannedMirrors := v;
     beatMapSets := beatMapSets s; clock := clock s;
     timers := timers s; files := files s; trace := trace s |}.

Definition set_beatMapSets (v : list BeatMapSet.t) (s : Manager) : Manager :=
  {| queue := queue s; isPaused := isPaused s;
     concurrency := concurrency s; pending := pending s;
     downloadedBeatMapSetSize := downloadedBeatMapSetSize s;
     skippedBeatMapSetSize := skippedBeatMapSetSize s;
     existingBeatmapsetIds := existingBeatmapsetIds s;
     remainingDownloadsLimit := remainingDownloadsLimit s;
     lastDownloadsLimitCheck := lastDownloadsLimitCheck s;
     testRequest := testRequest s; bannedMirrors := bannedMirrors s;
     beatMapSets := v; clock := clock s; timers := timers s;
     files := files s; trace := trace s |}.

Definition set_clock (v : Z) (s : Manager) : Manager :=
  {| queue := queue s; isPaused := isPaused s;
     concurrency := concurrency s; pending := pending s;
     downloadedBeatMapSetSize := downloadedBeatMapSetSize s;
     skippedBeatMapSetSize := skippedBeatMapSetSize s;
     existingBeatmapsetIds := existingBeatmapsetIds s;
     remainingDownloadsLimit := remainingDownloadsLimit s;
     lastDownloadsLimitCheck := lastDownloadsLimitCheck s;
     testRequest := testRequest s; bannedMirrors := bannedMirrors s;
     beatMapSets := beatMapSets s; clock := v; timers := timers s;
     files := files s; trace := trace s |}.

Definition set_timers (v : list Z) (s : Manager) : Manager :=
  {| queue := queue s; isPaused := isPaused s;
     concurrency := concurrency s; pending := pending s;
     downloadedBeatMapSetSize := downloadedBeatMapSetSize s;
     skippedBeatMapSetSize := skippedBeatMapSetSize s;
     existingBeatmapsetIds := existingBeatmapsetIds s;
     remainingDownloadsLimit := remainingDownloadsLimit s;
     lastDownloadsLimitCheck := lastDownloadsLimitCheck s;
     testRequest := testRequest s; bannedMirrors := bannedMirrors s;
     beatMapSets := beatMapSets s; clock := clock s; timers := v;
     files := files s; trace := trace s |}.

Definition set_files (v : gset string) (s : Manager) : Manager :=
  {| queue := queue s; isPaused := isPaused s;
     concurrency := concurrency s; pending := pending s;
     downloadedBeatMapSetSize := downloadedBeatMapSetSize s;
     skippedBeatMapSetSize := skippedBeatMapSetSize s;
     existingBeatmapsetIds := existingBeatmapsetIds s;
     remainingDownloadsLimit := remainingDownloadsLimit s;
     lastDownloadsLimitCheck := lastDownloadsLimitCheck s;
     testRequest := testRequest s; bannedMirrors := bannedMirrors s;
     beatMapSets := beatMapSets s; clock := clock s;
     timers := timers s; files := v; trace := trace s |}.

Definition set_trace (v : list Effect) (s : Manager) : Manager :=
  {| queue := queue s; isPaused := isPaused s;
     concurrency := concurrency s; pending := pending s;
     downloadedBeatMapSetSize := downloadedBeatMapSetSize s;
     skippedBeatMapSetSize := skippedBeatMapSetSize s;
     existingBeatmapsetIds := existingBeatmapsetIds s;
     remainingDownloadsLimit := remainingDownloadsLimit s;
     lastDownloadsLimitCheck := lastDownloadsLimitCheck s;
     testRequest := testRequest s; bannedMirrors := bannedMirrors s;
     beatMapSets := beatMapSets s; clock := clock s;
     timers := timers s; files := files s; trace := v |}.

(** ** JavaScript primitives used on the quota header *)

Module JS.

(** The code points below 256 that [parseInt] skips as white space: TAB,
    LF, VT, FF, CR, SP and NBSP.  A header value is a byte string, so no
    other white space can occur in it. *)
Definition isWhiteSpace (c : ascii) : bool :=
  let n := N_of_ascii c in
  ((9 <=? n) && (n <=? 13) || (n =? 32) || (n =? 160))%N.

Fixpoint trimStart (s : string) : string :=
  match s with
  | String c s' => if isWhiteSpace c then trimStart s' else s
  | EmptyString => s
  end.

(** The value of a character as a digit of a radix up to 36. *)
Definition digitValue (c : ascii) : option Z :=
  let n := Z.of_N (N_of_ascii c) in
  if (48 <=? n) && (n <=? 57) then Some (n - 48)
  else if (97 <=? n) && (n <=? 122) then Some (n - 87)
  else if (65 <=? n) && (n <=? 90) then Some (n - 55)
  else None.

(** The longest prefix of digits of the radix, read as a number; [acc] is
    [None] until a digit has been seen. *)
Fixpoint parseDigits (radix : Z) (s : string) (acc : option Z) : option Z :=
  match s with
  | String c s' =>
      match digitValue c with
      | Some d =>
          if d <? radix
          then parseDigits radix s' (Some (radix * default 0 acc + d))
          else acc
      | None => acc
      end
  | EmptyString => acc
  end.

(** [parseInt(s)] without a radix: leading white space, an optional sign,
    an optional [0x] turning the radix to 16, then digits; [None] is NaN.
    The result is the mathematical integer; the double that JavaScript
    rounds it to compares with 12 in the same way. *)
Definition parseInt (s : string) : option Z :=
  let s1 := trimStart s in
  let '(sign, s2) :=
    match s1 with
    | String "-" r => (-1, r)
    | String "+" r => (1, r)
    | _ => (1, s1)
    end in
  let '(radix, s3) :=
    match s2 with
    | String "0" (String "x" r) => (16, r)
    | String "0" (String "X" r) => (16, r)
    | _ => (10, s2)
    end in
  match parseDigits radix s3 None with
  | Some v => Some (sign * v)
  | None => None
  end.

End JS.

(** ** DownloadManager.ts *)

(** Appending to the trace. *)
Definition record (e : Effect) (s : Manager) : Manager :=
  set_trace (trace s ++ [e]) s.

(** [this.queue.add(job)] *)
Definition queue_add (t : Task) (s : Manager) : Manager :=
  set_queue (queue s ++ [t]) s.

(** [getNotDownloadedBeatapSets()] *)
Definition getNotDownloadedBeatapSets (s : Manager) : list BeatMapSet.t :=
  beatMapSets s.

(** [getDownloadedBeatMapSetSize()] *)
Definition getDownloadedBeatMapSetSize (s : Manager) : Z :=
  downloadedBeatMapSetSize s.

(** [getSkippedBeatMapSetSize()] *)
Definition getSkippedBeatMapSetSize (s : Manager) : Z :=
  skippedBeatMapSetSize s.

(** The cooldown of lines 126: [60e3] milliseconds. *)
Definition cooldown : Z := 60000.

(** The listener [bulkDownload] registers for ["rateLimited"]
    (lines 121-128). *)
Definition on_rateLimited (s : Manager) : Manager :=
  if isPaused s then s
  else
    set_timers (timers s ++ [clock s + cooldown])
      (set_concurrency 1 (set_isPaused true (set_testRequest true s))).

(** [this.emit(event, ...)]: listeners run synchronously.  The manager
    listens to ["rateLimited"] itself; the other listeners belong to the
    caller ([core/Worker.ts]) and do not touch the manager: they update
    the display, and those of ["dailyRateLimited"], ["blocked"] and
    ["unavailable"] may end the process, which cuts a run short without
    adding to what the manager does. *)
Definition emit (e : Event) (s : Manager) : Manager :=
  let s' := record (Emit e) s in
  match e with
  | rateLimited => on_rateLimited s'
  | _ => s'
  end.

(** [if (!this.queue.isPaused) this.emit("rateLimited")]
    (lines 195-197 and 225-227). *)
Definition signalRateLimit (s : Manager) : Manager :=
  if isPaused s then s else emit rateLimited s.

(** Lines 192-199: the quota header of a response from a mirror that is
    not of the unthrottled class. *)
Definition quotaLow (r : Response) : bool :=
  match x_ratelimit_remaining r with
  | Some x =>
      negb (String.eqb x "") &&
      match JS.parseInt x with
      | Some v => v <=? 12
      | None => false
      end
  | None => false
  end.

Definition inspectQuota (m : Mirror) (r : Response) (s : Manager) : Manager :=
  if noRateLimit m then s
  else if quotaLow r then signalRateLimit s
  else s.

(** The [catch] block, lines 285-308.  The call returns [false]. *)
Definition downloadFile_catch (a : Attempt) (e : Thrown) (s : Manager)
  : Manager :=
  let s1 := if isProbeRequest a then set_testRequest true s else s in
  match nextMirrors a with
  | _ :: _ =>
      queue_add (RetryNext (beatMapSet a) (nextMirrors a))
        (emit (retrying (beatMapSet a)) s1)
  | [] => emit (error (beatMapSet a) e) s1
  end.

(** The outcome of the synchronous prefix of [_downloadFile]: it has
    returned, or it has issued the fetch and is suspended. *)
Inductive Begun :=
  | Returned (success : bool)
  | InFlight (a : Attempt).

(** [this.remainingDownloadsLimit != null &&
    this.remainingDownloadsLimit <= 0] (lines 172-175). *)
Definition dailyLimitReached (s : Manager) : bool :=
  match remainingDownloadsLimit s with
  | Some n => n <=? 0
  | None => false
  end.

(** [_downloadFile], lines 147-189: from the entry to the fetch.  The
    destination directory ([this.path]) is left out: it only names where
    the file of a successful attempt goes. *)
Definition downloadFile_begin (cfg : Config.t) (t : Task) (b : BeatMapSet.t)
    (opts : option (list Mirror)) (s : Manager) : Manager * Begun :=
  match resolveMirrors (Config.mirror cfg) (bannedMirrors s) opts with
  | [] => (emit (error b AllMirrorsAreBanned) s, Returned false)
  | current :: next =>
      let probe := testRequest s in
      let s1 := if testRequest s then set_testRequest false s else s in
      if dailyLimitReached s1
      then (emit (dailyRateLimited (getNotDownloadedBeatapSets s1)) s1,
            Returned false)
      else
        (record (Fetch (BeatMapSet.id b) current) (emit (downloading b) s1),
         InFlight {| job := t; beatMapSet := b; options := opts;
                     currentMirror := current; nextMirrors := next;
                     isProbeRequest := probe |})
  end.

(** What one resumption of [_downloadFile] ends in: the call returns, or
    it is suspended again. *)
Inductive Settled :=
  | Done (success : bool)
  | Suspended (w : Awaiting).

(** [!this.lastDownloadsLimitCheck ||
    Date.now() - this.lastDownloadsLimitCheck > 5e3] (lines 211-214);
    [!x] holds of [null] and of [0]. *)
Definition limitCheckDue (s : Manager) : bool :=
  match lastDownloadsLimitCheck s with
  | None => true
  | Some t => (t =? 0) || (5000 <? clock s - t)
  end.

(** Lines 225-230: signal the soft rate limit and submit the same call
    again. *)
Definition pauseAndResubmit (a : Attempt) (s : Manager) : Manager :=
  queue_add (RetrySame (beatMapSet a) (options a)) (signalRateLimit s).

(** Lines 232-235: [this.bannedMirrors.add(currentMirror)] on a 403. *)
Definition banOn403 (a : Attempt) (st : Z) (s : Manager) : Manager :=
  if st =? 403
  then set_bannedMirrors ({[currentMirror a]} ∪ bannedMirrors s) s
  else s.

(** [_downloadFile], lines 187-268: the fetch has settled. *)
Definition downloadFile_response (cfg : Config.t) (a : Attempt)
    (r : FetchResult) (s : Manager) : Manager * Settled :=
  match r with
  | FetchRejected => (downloadFile_catch a FetchFailed s, Done false)
  | FetchResponse resp =>
      let st := status resp in
      let s1 := inspectQuota (currentMirror a) resp s in
      if st =? 429 then
        if noRateLimit (currentMirror a) then
          (queue_add (RetrySame (beatMapSet a) (options a)) s1, Done false)
        else if isProbeRequest a && limitCheckDue s1 then
          (record CheckRateLimitation
             (set_lastDownloadsLimitCheck (Some (clock s1)) s1),
           Suspended AwaitRateStatus)
        else (pauseAndResubmit a s1, Done false)
      else if (st =? 403) || (st =? 451) then
        let s2 := banOn403 a st s1 in
        match nextMirrors a with
        | _ :: _ => (downloadFile_catch a (StatusCode st) s2, Done false)
        | [] =>
            if st =? 403
            then (emit (blocked (getNotDownloadedBeatapSets s2)) s2, Done false)
            else (emit (unavailable (getNotDownloadedBeatapSets s2)) s2,
                  Done false)
        end
      else if negb (st =? 200) then
        (downloadFile_catch a (StatusCode st) s1, Done false)
      else
        let s2 :=
          if isProbeRequest a
          then set_concurrency (configuredConcurrency cfg) s1
          else s1 in
        match fileName resp with
        | None => (downloadFile_catch a FileNameExtractionFailed s2, Done false)
        | Some f =>
            let s3 := set_files ({[f]} ∪ files s2) s2 in
            match body resp with
            | None => (downloadFile_catch a ResBodyIsNull s3, Done false)
            | Some bd => (s3, Suspended (AwaitFlush f bd))
            end
        end
  end.

(** [_downloadFile], lines 216-230: the allowance query has settled. *)
Definition downloadFile_rateStatus (a : Attempt) (r : RateResult)
    (s : Manager) : Manager * Settled :=
  match r with
  | RateRejected => (downloadFile_catch a RateCheckFailed s, Done false)
  | RateStatus v =>
      let s1 :=
        match v with
        | Some 0 => emit (dailyRateLimited (getNotDownloadedBeatapSets s)) s
        | _ => set_remainingDownloadsLimit v s
        end in
      (pauseAndResubmit a s1, Done false)
  end.

(** [bytesWritten] after the loop of lines 262-265. *)
Definition bytesWritten (bd : Body) : Z :=
  fold_left (λ acc c, acc + Z.of_N c) (chunks bd) 0.

(** Line 283. *)
Definition decrementLimit (s : Manager) : Manager :=
  match remainingDownloadsLimit s with
  | Some n => set_remainingDownloadsLimit (Some (n - 1)) s
  | None => s
  end.

(** [_downloadFile], lines 262-284 and 310: the body has been streamed
    and the file flushed. *)
Definition downloadFile_flush (a : Attempt) (f : string) (bd : Body)
    (s : Manager) : Manager * Settled :=
  if negb (streamOk bd) then (downloadFile_catch a StreamFailed s, Done false)
  else if bytesWritten bd <? 1024 then
    (downloadFile_catch a (FileTooSmall (bytesWritten bd))
       (set_files (files s ∖ {[f]}) s),
     Done false)
  else
    (emit (downloaded (beatMapSet a))
       (decrementLimit
          (set_downloadedBeatMapSetSize (downloadedBeatMapSetSize s + 1) s)),
     Done true).

(** What the closure does with the result of its call: the closures of
    lines 98 and 293 delete the item on success, the one of lines 205 and
    229 drops the result. *)
Definition job_return (t : Task) (success : bool) (s : Manager) : Manager :=
  match t with
  | RetrySame _ _ => s
  | Submitted b | RetryNext b _ =>
      if success
      then set_beatMapSets (Map_delete (BeatMapSet.id b) (beatMapSets s)) s
      else s
  end.

(** ** The queue *)

(** Modelled from the spec: the scheduler is the p-queue package, which
    is not among the sources.  Section 4.3 gives what the manager relies
    on: a job is started only while the queue is not paused and fewer
    jobs than the concurrency limit are running; pausing does not touch
    a job already started; when nothing is queued and nothing is running
    the queue reports idle, on which the manager emits ["end"]
    (lines 117-119).  The interval cap only delays starts further and is
    left out. *)
Definition queue_next (s : Manager) : Manager :=
  match queue s, pending s with
  | [], [] => emit (ended (getNotDownloadedBeatapSets s)) s
  | _, _ => s
  end.

(** A call of [_downloadFile] made by job [t]. *)
Definition launch (cfg : Config.t) (t : Task) (b : BeatMapSet.t)
    (opts : option (list Mirror)) (s : Manager) : Manager :=
  let '(s', r) := downloadFile_begin cfg t b opts s in
  match r with
  | Returned ok => queue_next (job_return t ok s')
  | InFlight a => set_pending (pending s' ++ [(a, AwaitFetch)]) s'
  end.

(** [this.existingBeatmapsetIds?.has(id)] *)
Definition alreadyExists (s : Manager) (k : Z) : bool :=
  match existingBeatmapsetIds s with
  | Some ids => bool_decide (k ∈ ids)
  | None => false
  end.

(** Lines 100-106: the skip branch of the closure of [bulkDownload]. *)
Definition skipExisting (b : BeatMapSet.t) (s : Manager) : Manager :=
  let s1 := set_skippedBeatMapSetSize (skippedBeatMapSetSize s + 1) s in
  let s2 := set_downloadedBeatMapSetSize (downloadedBeatMapSetSize s1 + 1) s1 in
  let s3 := emit (skipped b) s2 in
  set_beatMapSets (Map_delete (BeatMapSet.id b) (beatMapSets s3)) s3.

(** Running a job from its start to its first await. *)
Definition runTask (cfg : Config.t) (t : Task) (s : Manager) : Manager :=
  match t with
  | Submitted b =>
      if alreadyExists s (BeatMapSet.id b)
      then queue_next (skipExisting b s)
      else launch cfg t b None s
  | RetrySame b opts => launch cfg t b opts s
  | RetryNext b rest => launch cfg t b (Some rest) s
  end.

(** The attempt at slot [k] has been resumed with outcome [res]. *)
Definition settle (k : nat) (a : Attempt) (res : Manager * Settled)
  : Manager :=
  let '(s, o) := res in
  match o with
  | Suspended w => set_pending (<[k := (a, w)]> (pending s)) s
  | Done success =>
      queue_next (job_return (job a) success
                    (set_pending (delete k (pending s)) s))
  end.

(** What the event loop delivers: the queue starts its oldest job, an
    await of a started attempt settles, time passes, the cooldown timer
    goes off. *)
Inductive Input :=
  | Start
  | FetchSettles (k : nat) (r : FetchResult)
  | RateStatusSettles (k : nat) (r : RateResult)
  | FlushSettles (k : nat)
  | Elapse (ms : Z)
  | TimerFires.

(** One turn of the event loop; [None] when the input cannot occur in
    the state. *)
Definition step (cfg : Config.t) (i : Input) (s : Manager) : option Manager :=
  match i with
  | Start =>
      match queue s with
      | t :: rest =>
          if negb (isPaused s) && (Z.of_nat (length (pending s)) <? concurrency s)
          then Some (runTask cfg t (set_queue rest s))
          else None
      | [] => None
      end
  | FetchSettles k r =>
      match pending s !! k with
      | Some (a, AwaitFetch) => Some (settle k a (downloadFile_response cfg a r s))
      | _ => None
      end
  | RateStatusSettles k r =>
      match pending s !! k with
      | Some (a, AwaitRateStatus) => Some (settle k a (downloadFile_rateStatus a r s))
      | _ => None
      end
  | FlushSettles k =>
      match pending s !! k with
      | Some (a, AwaitFlush f bd) => Some (settle k a (downloadFile_flush a f bd s))
      | _ => None
      end
  | Elapse ms =>
      if 0 <=? ms then Some (set_clock (clock s + ms) s) else None
  | TimerFires =>
      match timers s with
      | due :: rest =>
          if due <=? clock s
          then Some (set_isPaused false (set_timers rest s))
          else None
      | [] => None
      end
  end.

Fixpoint run (cfg : Config.t) (ins : list Input) (s : Manager)
  : option Manager :=
  match ins with
  | [] => Some s
  | i :: rest =>
      match step cfg i s with
      | Some s' => run cfg rest s'
      | None => None
      end
  end.

(** The manager after [new DownloadManager(limit)] and [bulkDownload()]
    at time [t0]: every item of the collection submitted, in order;
    [existing] is the result of the scan of lines 82-95. *)
Definition bulkDownload (cfg : Config.t) (limit : option Z)
    (existing : option (gset Z)) (items : list BeatMapSet.t) (t0 : Z)
  : Manager :=
  {| queue := Submitted <$> items; isPaused := false;
     concurrency := configuredConcurrency cfg; pending := [];
     downloadedBeatMapSetSize := 0; skippedBeatMapSetSize := 0;
     existingBeatmapsetIds := existing;
     remainingDownloadsLimit := limit; lastDownloadsLimitCheck := None;
     testRequest := false; bannedMirrors := ∅; beatMapSets := items;
     clock := t0; timers := []; files := ∅; trace := [] |}.

(** ** Observations on a state *)

(** The requests for archives recorded in the trace, oldest first. *)
Definition fetchOf (e : Effect) : option (Z * Mirror) :=
  match e with
  | Fetch k m => Some (k, m)
  | _ => None
  end.

Definition fetches (s : Manager) : list (Z * Mirror) :=
  omap fetchOf (trace s).

(** The events emitted, oldest first. *)
Definition eventOf (e : Effect) : option Event :=
  match e with
  | Emit ev => Some ev
  | _ => None
  end.

Definition events (s : Manager) : list Event :=
  omap eventOf (trace s).



(** The queue is paused exactly while one cooldown timer is armed. *)
Definition timers_inv (s : Manager) : Prop :=
  if isPaused s then ∃ due, timers s = [due] else timers s = [].

(** ** core/Worker.ts: the listeners that end the run *)




(** ** The chains handed on to retries *)







(** ** Frame conditions *)

(** What the code run when an await settles may do to the controls of
    the run: it may ban mirrors, and pause a running queue; it never
    moves the clock, never resumes the queue or touches an armed timer,
    never takes the probe flag, never issues a fetch and never retracts
    an event. *)
Record settles_to (s s' : Manager) : Prop := {
  st_banned : bannedMirrors s ⊆ bannedMirrors s';
  st_clock : clock s' = clock s;
  st_paused : isPaused s = true → isPaused s' = true ∧ timers s' = timers s;
  st_probe : testRequest s = true → testRequest s' = true;
  st_fetches : fetches s' = fetches s;
  st_events : events s `prefix_of` events s';
  st_timers : timers_inv s → timers_inv s'
}.

(** What starting a job may do: at most one fetch, to a mirror that is
    not banned; the ban list, the clock and the queue controls stay. *)
Record starts_to (s s' : Manager) : Prop := {
  sa_banned : bannedMirrors s' = bannedMirrors s;
  sa_clock : clock s' = clock s;
  sa_paused : isPaused s' = isPaused s;
  sa_timers : timers s' = timers s;
  sa_concurrency : concurrency s' = concurrency s;
  sa_fetches :
    fetches s' = fetches s ∨
    ∃ k m, fetches s' = fetches s ++ [(k, m)] ∧ (m ∉ bannedMirrors s)
}.

Definition same_controls (s s' : Manager) : Prop :=
  bannedMirrors s' = bannedMirrors s ∧ clock s' = clock s ∧
  isPaused s' = isPaused s ∧ timers s' = timers s ∧
  concurrency s' = concurrency s ∧ fetches s' = fetches s ∧
  testRequest s' = testRequest s.

(** The state of a queue cooling down after a soft rate limit: paused,
    the probe flag set, and the one timer due at [due]. *)
Definition cooling (due : Z) (s : Manager) : Prop :=
  isPaused s = true ∧ testRequest s = true ∧ timers s = [due].


(** ** The books of a run *)

#[global] Instance BeatMapSet_eq_dec : EqDecision BeatMapSet.t.
Proof. solve_decision. Defined.

(** The item a job works on. *)
Definition itemOf (t : Task) : BeatMapSet.t :=
  match t with
  | Submitted b | RetrySame b _ | RetryNext b _ => b
  end.

(** The items reported by ["downloaded"] and by ["skipped"], oldest
    first. *)
Definition downloadedOf (e : Effect) : option BeatMapSet.t :=
  match e with
  | Emit (downloaded b) => Some b
  | _ => None
  end.

Definition skippedOf (e : Effect) : option BeatMapSet.t :=
  match e with
  | Emit (skipped b) => Some b
  | _ => None
  end.

Definition downloads (s : Manager) : list BeatMapSet.t :=
  omap downloadedOf (trace s).

Definition skips (s : Manager) : list BeatMapSet.t :=
  omap skippedOf (trace s).

(** The items of the jobs not yet started and of the attempts under
    way. *)
Definition queued (s : Manager) : list BeatMapSet.t :=
  itemOf <$> queue s.

Definition inFlight (s : Manager) : list BeatMapSet.t :=
  (λ p, beatMapSet p.1) <$> pending s.

(** Where the items of a run are: waiting in the queue, being attempted,
    reported as downloaded, or reported as skipped.  An item that was
    given up is in none of the four. *)
Definition ledger (s : Manager) : list BeatMapSet.t :=
  queued s ++ inFlight s ++ downloads s ++ skips s.

(** What a resumption of the attempt [a] that ends in [o] has done to the
    books. *)
Definition settled_ledger (a : Attempt) (s s' : Manager) (o : Settled) : Prop :=
  pending s' = pending s ∧ skips s' = skips s ∧
  beatMapSets s' = beatMapSets s ∧
  skippedBeatMapSetSize s' = skippedBeatMapSetSize s ∧
  match o with
  | Done true =>
      queue s' = queue s ∧ downloads s' = downloads s ++ [beatMapSet a] ∧
      downloadedBeatMapSetSize s' = downloadedBeatMapSetSize s + 1
  | Done false =>
      downloads s' = downloads s ∧
      downloadedBeatMapSetSize s' = downloadedBeatMapSetSize s ∧
      (queue s' = queue s ∨
       ∃ t, queue s' = queue s ++ [t] ∧ itemOf t = beatMapSet a)
  | Suspended _ =>
      downloads s' = downloads s ∧ queue s' = queue s ∧
      downloadedBeatMapSetSize s' = downloadedBeatMapSetSize s
  end.

(** What the bookkeeping around a call leaves alone. *)
Definition same_books (s s' : Manager) : Prop :=
  queue s' = queue s ∧ pending s' = pending s ∧
  downloads s' = downloads s ∧ skips s' = skips s ∧
  downloadedBeatMapSetSize s' = downloadedBeatMapSetSize s ∧
  skippedBeatMapSetSize s' = skippedBeatMapSetSize s.

(** One or more turns of the event loop, as the books see them: no item
    enters the ledger, reports are never retracted, and the two counters
    move with the reports. *)
Record accounts (s s' : Manager) : Prop := {
  ac_ledger : ledger s' ⊆+ ledger s;
  ac_downloads : downloads s `prefix_of` downloads s';
  ac_skips : skips s `prefix_of` skips s';
  ac_downloaded :
    downloadedBeatMapSetSize s' - downloadedBeatMapSetSize s
    = Z.of_nat (length (downloads s') + length (skips s'))
      - Z.of_nat (length (downloads s) + length (skips s));
  ac_skipped :
    skippedBeatMapSetSize s' - skippedBeatMapSetSize s
    = Z.of_nat (length (skips s')) - Z.of_nat (length (skips s))
}.

(** Every started attempt is for the item of the job that made the
    call. *)
Definition attempts_wf (s : Manager) : Prop :=
  Forall (λ p, itemOf (job p.1) = beatMapSet p.1) (pending s).

(** The limit of the queue is 1 or the configured one, and no more
    attempts are under way than the larger of the two. *)
Definition within_limit (cfg : Config.t) (s : Manager) : Prop :=
  (concurrency s = 1 ∨ concurrency s = configuredConcurrency cfg) ∧
  Z.of_nat (length (pending s)) ≤ Z.max 1 (configuredConcurrency cfg).

(** What a turn of the event loop may do to the collection: nothing, or
    delete the item it has just reported. *)
Definition reports_removal (s s' : Manager) : Prop :=
  (beatMapSets s' = beatMapSets s ∧ skips s' = skips s) ∨
  ∃ b, beatMapSets s' = Map_delete (BeatMapSet.id b) (beatMapSets s) ∧
       ((downloads s' = downloads s ++ [b] ∧ skips s' = skips s) ∨
        skips s' = skips s ++ [b]).

(** The collection of a run that began with [items]: what is left is a
    sublist; what is gone has been reported; what was skipped is gone. *)
Definition collection_inv (items : list BeatMapSet.t) (s : Manager) : Prop :=
  attempts_wf s ∧
  beatMapSets s `sublist_of` items ∧
  (∀ b, b ∈ items → b ∉ beatMapSets s →
        ∃ b', BeatMapSet.id b' = BeatMapSet.id b ∧
              (b' ∈ downloads s ∨ b' ∈ skips s)) ∧
  (∀ b b', b ∈ skips s → b' ∈ beatMapSets s →
           BeatMapSet.id b' ≠ BeatMapSet.id b).

(** The number of mirrors a job can still go through: the whole registry
    for a call without [remainingMirrors], the mirrors handed over
    otherwise. *)
Definition chainBound (t : Task) : nat :=
  match t with
  | Submitted _ | RetrySame _ None => length Mirror_values
  | RetrySame _ (Some l) | RetryNext _ l => length l
  end.

(** The fetches that the queued jobs and the started attempts can still
    cause as long as no mirror answers 429. *)
Definition fetchBudget (s : Manager) : nat :=
  (sum_list_with chainBound (queue s)
   + sum_list_with (λ p, length (nextMirrors p.1)) (pending s))%nat.

(** A fetch that settles with a 429. *)
Definition is429 (i : Input) : bool :=
  match i with
  | FetchSettles _ (FetchResponse r) => status r =? 429
  | _ => false
  end.

(** No attempt is waiting for the answer to an allowance query. *)
Definition no_rate_wait (s : Manager) : Prop :=
  Forall (λ p, p.2 ≠ AwaitRateStatus) (pending s).

(** What a settled await adds to the queue when the answer is not a 429:
    nothing, or the retry on the mirrors that are left. *)
Definition settled_budget (a : Attempt) (s s' : Manager) (o : Settled) : Prop :=
  o ≠ Suspended AwaitRateStatus ∧
  (queue s' = queue s ∨
   queue s' = queue s ++ [RetryNext (beatMapSet a) (nextMirrors a)]).

(** An allowance query that is answered. *)
Definition isRateAnswer (i : Input) : bool :=
  match i with
  | RateStatusSettles _ (RateStatus _) => true
  | _ => false
  end.

(** The tracked allowance plus the downloads reported so far. *)
Definition allowanceSpent (s : Manager) : option Z :=
  (λ n, n + Z.of_nat (length (downloads s))) <$> remainingDownloadsLimit s.

(** The allowance after a resumption that ends in [o]. *)
Definition settled_limit (s s' : Manager) (o : Settled) : Prop :=
  match o with
  | Done true =>
      remainingDownloadsLimit s' = (λ n, n - 1) <$> remainingDownloadsLimit s
  | _ => remainingDownloadsLimit s' = remainingDownloadsLimit s
  end.

(** No archive of the item with id [k] has been requested from one of
    the mirrors [l]. *)
Definition unfetched (k : Z) (l : list Mirror) (s : Manager) : Prop :=
  ∀ m, m ∈ l → (k, m) ∉ fetches s.

(** A queued job has fresh mirrors before it: a first attempt is for an
    item nothing was fetched for, a retry carries mirrors that are
    pairwise distinct and were not tried for its item. *)
Definition job_fresh (s : Manager) (t : Task) : Prop :=
  match t with
  | Submitted b => unfetched (BeatMapSet.id b) Mirror_values s
  | RetryNext b l => NoDup l ∧ unfetched (BeatMapSet.id b) l s
  | RetrySame _ _ => False
  end.

(** The same for the mirrors an attempt under way has left. *)
Definition attempt_fresh (s : Manager) (p : Attempt * Awaiting) : Prop :=
  NoDup (nextMirrors p.1) ∧
  unfetched (BeatMapSet.id (beatMapSet p.1)) (nextMirrors p.1) s.

(** The state of a run over [items] in which no mirror has answered
    429. *)
Definition fetch_inv (items : list BeatMapSet.t) (s : Manager) : Prop :=
  ledger s ⊆+ items ∧ no_rate_wait s ∧
  NoDup (fetches s) ∧
  (∀ k m, (k, m) ∈ fetches s → k ∈ BeatMapSet.id <$> items) ∧
  Forall (job_fresh s) (queue s) ∧
  Forall (attempt_fresh s) (pending s).

(** ** JavaScript strings *)

Module JSString.

(** A JavaScript string is a sequence of UTF-16 code units. *)
Abbreviation t := (list N).

(** A string literal of the source, all of whose characters are below
    256. *)
Definition lit (s : string) : t :=
  N_of_ascii <$> list_ascii_of_string s.

(** The escape [\n]. *)
Definition LF : N := 10%N.

(** What [\d] matches. *)
Definition isDigit (c : N) : bool := ((48 <=? c) && (c <=? 57))%N.

(** What [\s] matches and [trim()] strips: the code points WhiteSpace and
    LineTerminator of ECMAScript. *)
Definition isWhiteSpace (c : N) : bool :=
  ((9 <=? c) && (c <=? 13) || (c =? 32) || (c =? 160) || (c =? 5760)
   || (8192 <=? c) && (c <=? 8202) || (c =? 8232) || (c =? 8233)
   || (c =? 8239) || (c =? 8287) || (c =? 12288) || (c =? 65279))%N.

(** The longest prefix of characters satisfying [p], and the rest. *)
Fixpoint span (p : N → bool) (s : t) : t * t :=
  match s with
  | c :: s' =>
      if p c then let '(l, r) := span p s' in (c :: l, r) else ([], s)
  | [] => ([], [])
  end.

(** [s.startsWith(p)], with what follows the prefix. *)
Fixpoint stripPrefix (p s : t) : option t :=
  match p, s with
  | [], _ => Some s
  | c :: p', d :: s' => if (c =? d)%N then stripPrefix p' s' else None
  | _ :: _, [] => None
  end.

Fixpoint trimStart (s : t) : t :=
  match s with
  | c :: s' => if isWhiteSpace c then trimStart s' else s
  | [] => []
  end.

Definition trimEnd (s : t) : t := reverse (trimStart (reverse s)).

(** [s.trim()] *)
Definition trim (s : t) : t := trimEnd (trimStart s).

(** [s.split(sep)] for a separator of one character: the pieces between
    the occurrences of the separator, at least one. *)
Fixpoint split (sep : N) (s : t) : list t :=
  match s with
  | [] => [[]]
  | c :: s' =>
      if (c =? sep)%N then [] :: split sep s'
      else match split sep s' with
           | piece :: pieces => (c :: piece) :: pieces
           | [] => [[c]]
           end
  end.

(** [pieces.join(sep)] *)
Fixpoint join (sep : t) (pieces : list t) : t :=
  match pieces with
  | [] => []
  | [piece] => piece
  | piece :: rest => piece ++ sep ++ join sep rest
  end.

(** The decimal digits of a natural number, least significant first;
    [fuel] bounds their number. *)
Fixpoint digitsOf (fuel : nat) (n : N) : t :=
  match fuel with
  | O => []
  | S fuel' =>
      (48 + n mod 10)%N ::
      (if (n <? 10)%N then [] else digitsOf fuel' (n / 10)%N)
  end.

(** The decimal expansion of a natural number. *)
Definition decimal (n : N) : t :=
  reverse (digitsOf (S (N.to_nat (N.log2 n))) n).

(** The Number value of a natural number: the nearest number with a
    significand of 53 bits, the one with the even significand when two
    are equally near; [None] is Infinity. *)
Definition roundToNumber (m : N) : option N :=
  if (m <? 2 ^ 53)%N then Some m
  else
    let e := (N.log2 m - 52)%N in
    let q := N.shiftr m e in
    let r := N.land m (N.ones e) in
    let half := N.shiftl 1 (e - 1) in
    let q' := if ((half <? r) || ((r =? half) && N.odd q))%N
              then (q + 1)%N else q in
    let v := N.shiftl q' e in
    if (v <? 2 ^ 1024)%N then Some v else None.

(** The Number value of an integer; [None] is one of the infinities. *)
Definition toNumber (z : Z) : option Z :=
  (λ m, Z.sgn z * Z.of_N m) <$> roundToNumber (Z.abs_N z).

(** The decimal number with the fewest significant digits that has the
    Number value [m], the one nearest to [m] when there are several: the
    multiples of [10 ^ j] next to [m] are tried for [j] from the number
    of digits of [m] down. *)
Fixpoint shortest (j : nat) (m : N) : N :=
  let P := (10 ^ N.of_nat j)%N in
  let lo := (m / P * P)%N in
  let hi := (lo + P)%N in
  let okLo := bool_decide (roundToNumber lo = Some m) in
  let okHi := bool_decide (roundToNumber hi = Some m) in
  let next := match j with O => m | S j' => shortest j' m end in
  if okLo && okHi then
    if (m - lo <? hi - m)%N then lo
    else if (hi - m <? m - lo)%N then hi
    else if N.even (m / P) then lo else hi
  else if okLo then lo
  else if okHi then hi
  else next.

Fixpoint dropZeros (s : t) : t :=
  match s with
  | c :: s' => if (c =? 48)%N then dropZeros s' else s
  | [] => []
  end.

(** Number::toString of ECMAScript for a natural number that is a
    Number: the digits of [shortest], written out in full below 10^21
    and with an exponent from there on. *)
Definition printNumber (m : N) : t :=
  let v := shortest (length (decimal m) - 1) m in
  if (v <? 10 ^ 21)%N then decimal v
  else
    let vs := decimal v in
    let e := decimal (N.of_nat (length vs - 1)) in
    match reverse (dropZeros (reverse vs)) with
    | [] => []
    | [d] => [d] ++ lit "e+" ++ e
    | d :: rest => [d] ++ lit "." ++ rest ++ lit "e+" ++ e
    end.

(** [n.toString()] and the template [`${n}`] for the Number value of the
    integer [n]. *)
Definition toString (n : Z) : t :=
  match roundToNumber (Z.abs_N n) with
  | Some m => if n <? 0 then lit "-" ++ printNumber m else printNumber m
  | None => if n <? 0 then lit "-Infinity" else lit "Infinity"
  end.

(** The integer a string of decimal digits stands for; unary plus gives
    its Number value. *)
Definition digitsValue (s : t) : Z :=
  fold_left (λ acc c, 10 * acc + (Z.of_N c - 48)) s 0.

(** The value of a character as a digit of a radix up to 36. *)
Definition digitValue (c : N) : option Z :=
  let n := Z.of_N c in
  if (48 <=? n) && (n <=? 57) then Some (n - 48)
  else if (97 <=? n) && (n <=? 122) then Some (n - 87)
  else if (65 <=? n) && (n <=? 90) then Some (n - 55)
  else None.

(** The longest prefix of digits of the radix, read as a number; [acc] is
    [None] until a digit has been seen. *)
Fixpoint parseDigits (radix : Z) (s : t) (acc : option Z) : option Z :=
  match s with
  | c :: s' =>
      match digitValue c with
      | Some d =>
          if d <? radix
          then parseDigits radix s' (Some (radix * default 0 acc + d))
          else acc
      | None => acc
      end
  | [] => acc
  end.

(** [parseInt(s)] without a radix, on code units: the Number value of
    the integer read, as V8 computes it (ECMAScript lets an
    implementation drop the digits after the twentieth).  [None] is NaN
    or one of the infinities. *)
Definition parseInt (s : t) : option Z :=
  let s1 := trimStart s in
  let '(sign, s2) :=
    match s1 with
    | c :: r =>
        if (c =? 45)%N then (-1, r)          (* - *)
        else if (c =? 43)%N then (1, r)      (* + *)
        else (1, s1)
    | [] => (1, s1)
    end in
  let '(radix, s3) :=
    match s2 with
    | c1 :: c2 :: r =>
        if ((c1 =? 48) && ((c2 =? 120) || (c2 =? 88)))%N   (* 0x, 0X *)
        then (16, r) else (10, s2)
    | _ => (10, s2)
    end in
  match parseDigits radix s3 None with
  | Some v => toNumber (sign * v)
  | None => None
  end.

(** A regular expression without anchor is tried at every position from
    the left; [m] is the match of the pattern at the start of its
    argument. *)
Fixpoint searchFrom {A} (m : t → option A) (s : t) : option A :=
  match m s with
  | Some r => Some r
  | None =>
      match s with
      | _ :: s' => searchFrom m s'
      | [] => None
      end
  end.

(** [set.add(x)] on a [Set] kept in insertion order. *)
Definition Set_add `{EqDecision A} (x : A) (l : list A) : list A :=
  if decide (x ∈ l) then l else l ++ [x].

End JSString.

Import JSString.


(** ** util.ts *)

(** The character class of the pattern of [replaceForbiddenChars]:
    backslash, slash, the angle brackets, colon, double quote (code 34),
    bar, question mark and asterisk. *)
Definition isForbiddenChar (c : N) : bool :=
  bool_decide (c ∈ lit "\/<>:|?*" ++ [34%N]).

(** [replaceForbiddenChars(str)]: the pattern matches the maximal runs
    of characters of the class and each is replaced by the empty string,
    so the result is what is left when those characters are taken
    out. *)
Definition replaceForbiddenChars (str : t) : t :=
  filter (λ c, isForbiddenChar c = false) str.

(** ** DownloadManager.ts: the name of the file *)

(** The match of [filename=([^;]+)] at the start of a string: capture
    group 1.  The group is greedy and nothing follows it in the pattern,
    so it is the longest run without a semicolon. *)
Definition matchFilename (s : t) : option t :=
  match stripPrefix (lit "filename=") s with
  | Some rest =>
      match (span (λ c, negb (c =? 59)%N) rest).1 with
      | [] => None
      | cap => Some cap
      end
  | None => None
  end.

(** [_getFilename(response)] (lines 317-333) on the value of the
    content-disposition header ([None]: absent); [decodeURIComponent] is
    the built-in, [None] when it throws [URIError].  The result is
    [None] when the function throws [FILE_NAME_EXTRACTION_FAILED]. *)
Definition getFilename (decodeURIComponent : t → option t)
    (contentDisposition : option t) : option t :=
  match contentDisposition with
  | None | Some [] => Some (lit "Untitled.osz")
  | Some h =>
      match searchFrom matchFilename h with
      | None => Some (lit "Untitled.osz")
      | Some cap =>
          match decodeURIComponent cap with
          | Some name => Some (replaceForbiddenChars name)
          | None => None
          end
      end
  end.

(** ** struct/Collection.ts: the folder of a collection *)

(** [getCollectionName()] *)
Definition getCollectionName (name : t) : t :=
  trim (replaceForbiddenChars name).

(** [getCollectionFolderName()] *)
Definition getCollectionFolderName (id : Z) (name : t) : t :=
  toString id ++ lit " - " ++ getCollectionName name.

(** ** DownloadManager.ts: the scan of the destination directory *)

(** [entry.match(/^(\d+)\s/)]: capture group 1.  The digits are matched
    greedily; giving some back cannot help, since the character after a
    shorter run is a digit and not white space. *)
Definition matchLeadingId (entry : t) : option t :=
  match span isDigit entry with
  | ((_ :: _) as ds, c :: _) => if isWhiteSpace c then Some ds else None
  | _ => None
  end.

(** What [readdirSync(this.path)] gives, after [existsSync(this.path)]. *)
Inductive Listing :=
  | NoDirectory                    (* [existsSync] is false *)
  | Unreadable                     (* [readdirSync] throws *)
  | Entries (names : list t).

(** The id an entry contributes to the set, if any.  A run of digits
    too long for a Number contributes Infinity, which is the id of no
    item and is left out. *)
Definition scanEntry (entry : t) : option Z :=
  match matchLeadingId entry with
  | Some ds => parseInt ds
  | None => None
  end.

(** Lines 82-95 of [bulkDownload]: the value of [existingBeatmapsetIds]
    afterwards. *)
Definition scanExisting (skipExisting : bool) (dir : Listing)
  : option (gset Z) :=
  if skipExisting then
    match dir with
    | NoDirectory => None
    | Unreadable => None
    | Entries names => Some (list_to_set (omap scanEntry names))
    end
  else None.

(** ** Logger.ts and Worker.ts: the log of missing items *)

(** [`https://osu.ppy.sh/beatmapsets/${beatMapSet.id}`] *)
Definition missingLogUrl (b : BeatMapSet.t) : t :=
  lit "https://osu.ppy.sh/beatmapsets/" ++ toString (BeatMapSet.id b).

(** The text [Logger.generateMissingLog] writes (Logger.ts, lines
    49-57). *)
Definition missingLog (beatMapSets : list BeatMapSet.t) : t :=
  lit "=== Missing Beatmap Sets ===" ++ [LF] ++
  lit "[ Try to download them manually ]" ++ [LF] ++
  join [LF] (missingLogUrl <$> beatMapSets) ++ [LF].

(** The match of [\/beatmapsets\/(\d+)] at the start of a string: capture
    group 1. *)
Definition matchBeatmapsetId (s : t) : option t :=
  match stripPrefix (lit "/beatmapsets/") s with
  | Some rest =>
      match (span isDigit rest).1 with
      | [] => None
      | ds => Some ds
      end
  | None => None
  end.

(** Worker.ts, lines 557-566: the ids read back from the log, in the
    order in which the [Set] holds them.  [+match[1]] is the Number
    value of the digits; Infinity, which is the key of no item, is left
    out. *)
Definition resumeMissingBeatmapIds (missingLog : t) : list Z :=
  fold_left
    (λ ids line,
       match searchFrom matchBeatmapsetId (trim line) with
       | Some ds =>
           match toNumber (digitsValue ds) with
           | Some id => Set_add id ids
           | None => ids
           end
       | None => ids
       end)
    (drop 2 (split LF missingLog)) [].

(** [collection.beatMapSets.get(id)] *)
Definition Map_get (k : Z) (m : list BeatMapSet.t) : option BeatMapSet.t :=
  list_find (λ b, BeatMapSet.id b = k) m ≫= λ p, Some p.2.

(** Worker.ts, lines 644-654: the collection restricted to the ids read
    from the log. *)
Definition filterResumed (ids : list Z) (m : list BeatMapSet.t)
  : list BeatMapSet.t :=
  omap (λ k, Map_get k m) ids.

(** The lines of the log after the two of the heading. *)
Definition missingLogBody (bs : list BeatMapSet.t) : list t :=
  match bs with
  | [] => [[]]
  | _ => missingLogUrl <$> bs
  end ++ [[]].

(** ** CollectionDbManager: the file collection.db *)

(** What the manager uses of JavaScript strings: the empty string, the
    test for it, and the UTF-8 codec of [Buffer]. *)
Class Utf8 (Str : Type) := {
  emptyStr : Str;                      (* [""] *)
  isEmptyStr : Str → bool;             (* [str.length === 0] *)
  utf8Encode : Str → list Byte.byte;        (* [Buffer.from(str, "utf-8")] *)
  utf8Decode : list Byte.byte → Str         (* [buffer.toString("utf-8", ...)] on the bytes of a range *)
}.

Module CollectionDb.

(** A [Buffer]. *)
Abbreviation Buffer := (list Byte.byte).

(** The element of a buffer as a number, and the byte a number is stored
    as: [Buffer.from([z])] keeps [z] modulo 256. *)
Definition valueOf (b : Byte.byte) : Z := Z.of_N (Byte.to_N b).

Definition byteOf (z : Z) : Byte.byte :=
  default Byte.x00 (Byte.of_N (Z.to_N (z mod 256))).

(** ToInt32, and the operators [|], [&], [<<] and [>>] that apply it to
    their operands; the shift count is taken modulo 32. *)
Definition toInt32 (z : Z) : Z := (z + 2 ^ 31) mod 2 ^ 32 - 2 ^ 31.

Definition or32 (a b : Z) : Z := toInt32 (Z.lor (toInt32 a) (toInt32 b)).
Definition and32 (a b : Z) : Z := toInt32 (Z.land (toInt32 a) (toInt32 b)).
Definition shl32 (a n : Z) : Z := toInt32 (Z.shiftl (toInt32 a) (n mod 32)).
Definition sar32 (a n : Z) : Z := Z.shiftr (toInt32 a) (n mod 32).

(** [buffer.readUInt8(offset)] and [buffer.readInt32LE(offset)]; [None]
    when the offset is outside the buffer and the call throws. *)
Definition readUInt8 (buffer : Buffer) (offset : Z) : option Z :=
  if 0 <=? offset then valueOf <$> buffer !! Z.to_nat offset else None.

Definition readInt32LE (buffer : Buffer) (offset : Z) : option Z :=
  if 0 <=? offset then
    match drop (Z.to_nat offset) buffer with
    | b0 :: b1 :: b2 :: b3 :: _ =>
        Some (toInt32 (valueOf b0 + 2 ^ 8 * valueOf b1 + 2 ^ 16 * valueOf b2
                       + 2 ^ 24 * valueOf b3))
    | _ => None
    end
  else None.

(** [buf.writeInt32LE(value, 0)] on a buffer of four bytes; [None] when
    the value is not a 32-bit integer and the call throws. *)
Definition writeInt32LE (value : Z) : option Buffer :=
  if (- 2 ^ 31 <=? value) && (value <? 2 ^ 31) then
    Some [byteOf value; byteOf (Z.shiftr value 8);
          byteOf (Z.shiftr value 16); byteOf (Z.shiftr value 24)]
  else None.

Record CollectionDbEntry (Str : Type) := {
  name : Str;
  md5Hashes : list Str
}.
Arguments name {Str} _.
Arguments md5Hashes {Str} _.

(** The fields of a [CollectionDbManager] that its methods change. *)
Record Manager (Str : Type) := {
  version : Z;
  collections : list (CollectionDbEntry Str);
  offset : Z
}.
Arguments version {Str} _.
Arguments collections {Str} _.
Arguments offset {Str} _.

(** A method either returns or throws; in both cases it leaves the
    object in some state. *)
Inductive Result (Str A : Type) :=
  | Ok (a : A) (m : Manager Str)
  | Throw (m : Manager Str).
Arguments Ok {Str A} a m.
Arguments Throw {Str A} m.

Section Strings.
Context {Str : Type} `{Utf8 Str}.

(** [buffer.toString("utf-8", start, end)]: the range is clipped to the
    buffer, and an empty range gives the empty string. *)
Definition toString (buffer : Buffer) (start end_ : Z) : Str :=
  let len := Z.of_nat (length buffer) in
  let start := Z.max start 0 in
  if len <=? start then emptyStr
  else
    let end_ := Z.min end_ len in
    if end_ <=? start then emptyStr
    else utf8Decode (take (Z.to_nat (end_ - start))
                       (drop (Z.to_nat start) buffer)).

(** [new CollectionDbManager()] *)
Definition new : Manager Str :=
  {| version := 20150203; collections := []; offset := 0 |}.

Definition M (A : Type) : Type := Manager Str → Result Str A.

Definition ret {A} (a : A) : M A := λ m, Ok a m.

Definition bind {A B} (x : M A) (f : A → M B) : M B :=
  λ m, match x m with
       | Ok a m' => f a m'
       | Throw m' => Throw m'
       end.

Definition throw {A} : M A := λ m, Throw m.

(** A call that throws when it gives [None]. *)
Definition orThrow {A} (x : option A) : M A :=
  match x with
  | Some a => ret a
  | None => throw
  end.

Definition getOffset : M Z := λ m, Ok (offset m) m.

(** [this.offset += n] *)
Definition advance (n : Z) : M unit :=
  λ m, Ok () {| version := version m; collections := collections m;
               offset := offset m + n |}.

Definition setVersion (v : Z) : M unit :=
  λ m, Ok () {| version := v; collections := collections m;
               offset := offset m |}.

Definition setOffset (o : Z) : M unit :=
  λ m, Ok () {| version := version m; collections := collections m;
               offset := o |}.

Definition setCollections (cs : list (CollectionDbEntry Str)) : M unit :=
  λ m, Ok () {| version := version m; collections := cs;
               offset := offset m |}.

(** [this.collections.push(entry)] *)
Definition pushCollection (entry : CollectionDbEntry Str) : M unit :=
  λ m, Ok () {| version := version m;
               collections := collections m ++ [entry];
               offset := offset m |}.

#[global] Instance M_ret : MRet M := @ret.
#[global] Instance M_bind : MBind M := λ A B f x, bind x f.

(** The [do ... while] of [readOsuString]: one byte is read per turn,
    and the loop goes on while the byte has its high bit set.  [fuel]
    bounds the number of turns; the loop reads forward, so the length of
    the buffer is enough. *)
Fixpoint readLength (fuel : nat) (buffer : Buffer) (length shift : Z) : M Z :=
  match fuel with
  | O => throw
  | S fuel' =>
      o ← getOffset;
      byte ← orThrow (readUInt8 buffer o);
      advance 1;;
      let length := or32 length (shl32 (and32 byte 127) shift) in
      let shift := shift + 7 in
      if negb (and32 byte 128 =? 0)
      then readLength fuel' buffer length shift
      else ret length
  end.

(** [readOsuString(buffer)] *)
Definition readOsuString (buffer : Buffer) : M Str :=
  o ← getOffset;
  indicator ← orThrow (readUInt8 buffer o);
  advance 1;;
  if indicator =? 0 then ret emptyStr
  else if negb (indicator =? 11) then throw
  else
    length ← readLength (S (List.length buffer)) buffer 0 0;
    o ← getOffset;
    let str := toString buffer o (o + length) in
    advance length;;
    ret str.

(** [for (let j = 0; j < n; j++) acc.push(body)] *)
Fixpoint times {A} (n : nat) (body : M A) (acc : list A) : M (list A) :=
  match n with
  | O => ret acc
  | S n' => a ← body; times n' body (acc ++ [a])
  end.

(** One turn of the outer loop of [readCollectionDb]. *)
Definition readCollection (buffer : Buffer) : M unit :=
  name ← readOsuString buffer;
  o ← getOffset;
  beatmapCount ← orThrow (readInt32LE buffer o);
  advance 4;;
  md5Hashes ← times (Z.to_nat beatmapCount) (readOsuString buffer) [];
  pushCollection {| name := name; md5Hashes := md5Hashes |}.

Fixpoint repeatM (n : nat) (body : M unit) : M unit :=
  match n with
  | O => ret ()
  | S n' => body;; repeatM n' body
  end.

(** [readCollectionDb()]; [file] is the content of the file at
    [collectionDbPath], [None] when there is none.  The method returns
    [true] or throws [COLLECTION_DB_READ_FAILED]. *)
Definition readCollectionDb (file : option Buffer) : M bool :=
  match file with
  | None => setCollections [];; ret true
  | Some buffer =>
      setOffset 0;;
      v ← orThrow (readInt32LE buffer 0);
      setVersion v;;
      advance 4;;
      o ← getOffset;
      collectionCount ← orThrow (readInt32LE buffer o);
      advance 4;;
      repeatM (Z.to_nat collectionCount) (readCollection buffer);;
      ret true
  end.

(** The [do ... while] of [writeOsuString]; [None] when [fuel] turns do
    not end it. *)
Fixpoint lengthBytes (fuel : nat) (value : Z) : option Buffer :=
  match fuel with
  | O => None
  | S fuel' =>
      let byte := and32 value 127 in
      let value := sar32 value 7 in
      if negb (value =? 0)
      then (byteOf (or32 byte 128) ::.) <$> lengthBytes fuel' value
      else Some [byteOf byte]
  end.

(** [writeOsuString(str)]; a length below 2^31 is written in at most five
    turns of the loop. *)
Definition writeOsuString (str : Str) : option Buffer :=
  if isEmptyStr str then Some [byteOf 0]
  else
    let strBuffer := utf8Encode str in
    lengthBytes ← lengthBytes 5 (Z.of_nat (length strBuffer));
    Some ([byteOf 11] ++ lengthBytes ++ strBuffer).

Definition writeCollection (coll : CollectionDbEntry Str) : option Buffer :=
  nameBuffer ← writeOsuString (name coll);
  countBuffer ← writeInt32LE (Z.of_nat (length (md5Hashes coll)));
  hashBuffers ← mapM writeOsuString (md5Hashes coll);
  Some (nameBuffer ++ countBuffer ++ concat hashBuffers).

(** [writeCollectionDb()]: the bytes written to [collectionDbPath];
    [None] when the method does not return [true]. *)
Definition writeCollectionDb (m : Manager Str) : option Buffer :=
  versionBuffer ← writeInt32LE (version m);
  countBuffer ← writeInt32LE (Z.of_nat (length (collections m)));
  buffers ← mapM writeCollection (collections m);
  Some (versionBuffer ++ countBuffer ++ concat buffers).

Context `{EqDecision Str}.

(** [hasCollection(collectionName)] *)
Definition hasCollection (collectionName : Str) (m : Manager Str) : bool :=
  bool_decide (Exists (λ c, name c = collectionName) (collections m)).

(** [getCollectionSize(collectionName)] *)
Definition getCollectionSize (collectionName : Str) (m : Manager Str) : nat :=
  match list_find (λ c, name c = collectionName) (collections m) with
  | Some (_, coll) => length (md5Hashes coll)
  | None => 0
  end.

(** [Array.from(new Set(hashes))] *)
Definition unique (hashes : list Str) : list Str :=
  fold_left (λ set h, Set_add h set) hashes [].

(** [this.collections[index].md5Hashes = hashes] *)
Definition setHashes (index : nat) (hashes : list Str) (m : Manager Str)
  : Manager Str :=
  {| version := version m;
     collections :=
       alter (λ c, {| name := name c; md5Hashes := hashes |}) index
         (collections m);
     offset := offset m |}.

(** [addCollection(collectionName, md5Hashes)] *)
Definition addCollection (collectionName : Str) (hashes : list Str)
    (m : Manager Str) : Manager Str :=
  match list_find (λ c, name c = collectionName) (collections m) with
  | Some (existingIndex, existing) =>
      setHashes existingIndex (unique (md5Hashes existing ++ hashes)) m
  | None =>
      {| version := version m;
         collections :=
           collections m ++ [{| name := collectionName; md5Hashes := hashes |}];
         offset := offset m |}
  end.

(** [replaceCollection(collectionName, md5Hashes)] *)
Definition replaceCollection (collectionName : Str) (hashes : list Str)
    (m : Manager Str) : Manager Str :=
  match list_find (λ c, name c = collectionName) (collections m) with
  | Some (existingIndex, _) => setHashes existingIndex hashes m
  | None =>
      {| version := version m;
         collections :=
           collections m ++ [{| name := collectionName; md5Hashes := hashes |}];
         offset := offset m |}
  end.

(** The body of the inner loop of [fixHashes]: the hash pushed for
    [oldHash], and whether it counts as fixed.  [hashMapping.get] gives
    [None] for a hash that is not a key. *)
Definition fixHash (hashMapping : Str → option Str) (oldHash : Str)
  : Str * bool :=
  match hashMapping oldHash with
  | Some newHash =>
      if negb (isEmptyStr newHash) && negb (bool_decide (newHash = oldHash))
      then (newHash, true)
      else (oldHash, false)
  | None => (oldHash, false)
  end.

(** [map.set(key, value)] on a [Map] kept in insertion order. *)
Fixpoint Map_set {V} (key : Str) (value : V) (map : list (Str * V))
  : list (Str * V) :=
  match map with
  | [] => [(key, value)]
  | (k, v) :: rest =>
      if decide (k = key) then (k, value) :: rest
      else (k, v) :: Map_set key value rest
  end.

(** What [fixHashes] returns: [totalFixed] and [collectionStats], whose
    values are the pairs of [fixed] and [total]. *)
Record FixResult := {
  totalFixed : nat;
  collectionStats : list (Str * (nat * nat))
}.

(** One turn of the outer loop of [fixHashes]. *)
Definition fixCollection (hashMapping : Str → option Str)
    (coll : CollectionDbEntry Str) : CollectionDbEntry Str * nat :=
  let fixes := fixHash hashMapping <$> md5Hashes coll in
  ({| name := name coll; md5Hashes := fixes.*1 |},
   length (filter (λ f, f.2 = true) fixes)).

(** [fixHashes(hashMapping)] *)
Definition fixHashes (hashMapping : Str → option Str) (m : Manager Str)
  : FixResult * Manager Str :=
  let fixes := fixCollection hashMapping <$> collections m in
  ({| totalFixed := sum_list fixes.*2;
      collectionStats :=
        fold_left
          (λ stats f, Map_set (name f.1) (f.2, length (md5Hashes f.1)) stats)
          fixes [] |},
   {| version := version m; collections := fixes.*1; offset := offset m |}).

(** The manager with its offset set. *)
Definition withOffset (o : Z) (m : Manager Str) : Manager Str :=
  {| version := version m; collections := collections m; offset := o |}.

(** A string that the codec of [Buffer] gives back as it was, which
    every well-formed string is, and whose encoding is shorter than 2^31
    bytes. *)
Definition roundTrips (str : Str) : Prop :=
  (if isEmptyStr str then str = emptyStr
   else utf8Encode str ≠ [] ∧ utf8Decode (utf8Encode str) = str) ∧
  Z.of_nat (length (utf8Encode str)) < 2 ^ 31.

(** A collection that [writeCollectionDb] and [readCollectionDb] take
    through unchanged. *)
Definition entryRoundTrips (coll : CollectionDbEntry Str) : Prop :=
  roundTrips (name coll) ∧ Forall roundTrips (md5Hashes coll) ∧
  Z.of_nat (length (md5Hashes coll)) < 2 ^ 31.

(** The hashes of the collection that the methods find under a name:
    those of the first collection of that name, if there is one. *)
Definition hashesOf (collectionName : Str) (m : Manager Str)
  : option (list Str) :=
  (λ p, md5Hashes p.2)
    <$> list_find (λ c, name c = collectionName) (collections m).

(** The number of positions at which two lists of hashes differ. *)
Definition changedHashes (c c' : CollectionDbEntry Str) : nat :=
  length (filter (λ p, p.1 ≠ p.2) (zip (md5Hashes c) (md5Hashes c'))).

End Strings.
End CollectionDb.

(** ** Sample data for the examples *)

Definition demo_config (m : Mirror) : Config.t :=
  {| Config.parallel := true; Config.concurrency := 5; Config.mirror := m |}.

Definition demo_item (k : Z) : BeatMapSet.t :=
  {| BeatMapSet.id := k; BeatMapSet.title := "" |}.

Definition demo_response (st : Z) (quota : option string) (size : N)
  : FetchResult :=
  FetchResponse {| status := st; x_ratelimit_remaining := quota;
                   fileName := Some "1 artist - title.osz";
                   body := Some {| chunks := [size]; streamOk := true |} |}.

Definition demo_attempt (m : Mirror) (next : list Mirror) (probe : bool)
  : Attempt :=
  {| job := Submitted (demo_item 1); beatMapSet := demo_item 1;
     options := None; currentMirror := m; nextMirrors := next;
     isProbeRequest := probe |}.

(** A configuration without parallel downloads: the queue runs one job
    at a time. *)
Definition sequential_config (m : Mirror) : Config.t :=
  {| Config.parallel := false; Config.concurrency := 5; Config.mirror := m |}.

(** The queue starts a job, the mirror answers 200 with 2000 bytes, the
    file is flushed. *)
Definition downloadOne : list Input :=
  [Start; FetchSettles 0 (demo_response 200 None 2000); FlushSettles 0].

(** The item of the scenarios is alone on its mirror: every other mirror
    is banned from the start. *)
Definition onlyMirror (m : Mirror) (s : Manager) : Manager :=
  set_bannedMirrors (list_to_set (filter (λ m', m' ≠ m) Mirror_values)) s.

(** A 429 carrying the quota header [quota]. *)
Definition tooManyRequests (quota : string) : FetchResult :=
  FetchResponse {| status := 429; x_ratelimit_remaining := Some quota;
                   fileName := None; body := None |}.

(** The cooldown passes and the timer goes off. *)
Definition waitOutCooldown : list Input := [Elapse cooldown; TimerFires].

Definition demo_collection : list BeatMapSet.t :=
  [demo_item 1; demo_item 2; demo_item 3].

(** A collection of three items with an allowance of ten, the third item
    already on disk. *)
Definition demo_start : Manager :=
  bulkDownload (demo_config Catboy) (Some 10) (Some {[3]}) demo_collection 0.

(** The three jobs start; the first item is downloaded at once, the
    second is refused by the first mirror with a 404 and downloaded from
    the next one. *)
Definition demo_run : list Input :=
  [Start; Start; Start;
   FetchSettles 0 (demo_response 200 None 2000);
   FetchSettles 1 (demo_response 404 None 0);
   FlushSettles 0;
   Start;
   FetchSettles 0 (demo_response 200 None 2000);
   FlushSettles 0].

(** The state that run ends in. *)
Definition demo_end : Manager :=
  default demo_start (run (demo_config Catboy) demo_run demo_start).

(** The first job starts and its mirror answers with a quota of 5 left. *)
Definition demo_low_quota : list Input :=
  [Start; FetchSettles 0 (demo_response 200 (Some "5") 2000)].

Definition demo_paused : Manager :=
  default demo_start (run (demo_config Catboy) demo_low_quota demo_start).

(** The three jobs have started and nothing has settled yet. *)
Definition demo_started : Manager :=
  default demo_start (run (demo_config Catboy) [Start; Start; Start] demo_start).


(** Strings of ASCII characters, each given by the codes of its
    characters: on these the UTF-8 codec is the identity. *)
#[global] Instance ascii_Utf8 : Utf8 (list Byte.byte) := {|
  emptyStr := [];
  isEmptyStr str := match str with [] => true | _ => false end;
  utf8Encode str := str;
  utf8Decode bytes := bytes
|}.

(** A collection.db with two collections, the second one empty and
    without a name. *)
Definition demo_db : CollectionDb.Manager (list Byte.byte) := {|
  CollectionDb.version := 20150203;
  CollectionDb.collections :=
    [ {| CollectionDb.name := list_byte_of_string "abc";
         CollectionDb.md5Hashes :=
           [list_byte_of_string "0123456789abcdef0123456789abcdef";
            list_byte_of_string "";
            list_byte_of_string "fedcba9876543210fedcba9876543210"] |};
      {| CollectionDb.name := list_byte_of_string "";
         CollectionDb.md5Hashes := [] |} ];
  CollectionDb.offset := 0
|}.

(** * Properties *)

(** ** The registry and the fallback chain *)

Lemma Mirror_values_NoDup : NoDup Mirror_values.
Proof. apply (bool_decide_unpack _). vm_compute. reflexivity. Qed.

Lemma Mirror_values_complete (m : Mirror) : m ∈ Mirror_values.
Proof.
  destruct m; apply (bool_decide_unpack _); vm_compute; reflexivity.
Qed.

Lemma dropBanned_spec (banned : MirrorSet) (l : list Mirror) (m : Mirror) :
  m ∈ dropBanned banned l ↔ (m ∉ banned) ∧ m ∈ l.
Proof. unfold dropBanned. by rewrite list_elem_of_filter. Qed.

Lemma dropBanned_NoDup (banned : MirrorSet) (l : list Mirror) :
  NoDup l → NoDup (dropBanned banned l).
Proof. apply NoDup_filter. Qed.

Lemma dropBanned_fallback (preferred : Mirror) (banned : MirrorSet) :
  dropBanned banned (getFallbackMirrors preferred)
  = filter (λ m, m ≠ preferred ∧ (m ∉ banned)) Mirror_values.
Proof.
  unfold dropBanned, getFallbackMirrors. rewrite list_filter_filter.
  apply list_filter_iff. tauto.
Qed.


Lemma resolveMirrors_not_banned preferred (banned : MirrorSet) opts m :
  m ∈ resolveMirrors preferred banned opts → m ∉ banned.
Proof.
  destruct opts as [rest|]; simpl.
  - intros H. by apply dropBanned_spec in H as [? _].
  - unfold firstAttemptMirrors. case_decide as Hp.
    + intros H. by apply dropBanned_spec in H as [? _].
    + intros [->|H]%elem_of_cons; [done|].
      by apply dropBanned_spec in H as [? _].
Qed.

Lemma firstAttemptMirrors_NoDup preferred (banned : MirrorSet) :
  NoDup (firstAttemptMirrors preferred banned).
Proof.
  unfold firstAttemptMirrors.
  assert (NoDup (dropBanned banned (getFallbackMirrors preferred))) as Hnd.
  { apply dropBanned_NoDup. unfold getFallbackMirrors.
    apply NoDup_filter, Mirror_values_NoDup. }
  case_decide; [done|]. apply NoDup_cons. split; [|done].
  rewrite dropBanned_fallback. intros [[? _] _]%list_elem_of_filter. done.
Qed.


Example firstAttemptMirrors_all_banned :
  firstAttemptMirrors Catboy (list_to_set Mirror_values) = [].
Proof. vm_compute. reflexivity. Qed.

Example firstAttemptMirrors_preferred_banned :
  firstAttemptMirrors OsuDirect {[OsuDirect; Sayobot]}
  = [Catboy; Nerinyan; Beatconnect; Nekoha].
Proof. vm_compute. reflexivity. Qed.

Example firstAttemptMirrors_preferred_free :
  firstAttemptMirrors OsuDirect {[Nerinyan]}
  = [OsuDirect; Catboy; Sayobot; Beatconnect; Nekoha].
Proof. vm_compute. reflexivity. Qed.

(** ** Unfolding the manager *)

(** The functions of the manager are straight-line code over the record;
    most facts about one call follow by unfolding it and looking at the
    tests it makes. *)
Ltac unfold_manager :=
  unfold downloadFile_response, downloadFile_rateStatus, downloadFile_flush,
    downloadFile_begin, downloadFile_catch, pauseAndResubmit, banOn403,
    inspectQuota, signalRateLimit, decrementLimit, skipExisting,
    getNotDownloadedBeatapSets, getDownloadedBeatMapSetSize,
    getSkippedBeatMapSetSize, emit, on_rateLimited, queue_add, record in *.

(** ** HTTP 429 from a mirror of the unthrottled class *)

(** C8. Handling a 429 from a mirror of the unthrottled class leaves the
    paused flag and the concurrency limit of the queue as they were and
    emits nothing (so no ["rateLimited"]): the only change to the manager
    is that the same item is queued again with the same options.  When
    that job starts under the same ban list it resolves the same chain:
    the same mirror first and the same mirrors after it. *)
Theorem C8_unthrottled_429_frame (cfg : Config.t) (t : Task)
    (b : BeatMapSet.t) (opts : option (list Mirror)) (s0 s1 : Manager)
    (a : Attempt) (resp : Response) (s : Manager) :
  downloadFile_begin cfg t b opts s0 = (s1, InFlight a) →
  noRateLimit (currentMirror a) = true →
  status resp = 429 →
  ∃ s',
    downloadFile_response cfg a (FetchResponse resp) s = (s', Done false) ∧
    s' = set_queue (queue s ++ [RetrySame b opts]) s ∧
    isPaused s' = isPaused s ∧
    concurrency s' = concurrency s ∧
    timers s' = timers s ∧
    trace s' = trace s ∧
    (∀ s2, bannedMirrors s2 = bannedMirrors s0 →
       resolveMirrors (Config.mirror cfg) (bannedMirrors s2) opts
       = currentMirror a :: nextMirrors a).
Proof.
  intros Hbegin Hclass Hst.
  assert (beatMapSet a = b ∧ options a = opts ∧
          resolveMirrors (Config.mirror cfg) (bannedMirrors s0) opts
          = currentMirror a :: nextMirrors a) as (Hb & Ho & Hchain).
  { unfold downloadFile_begin in Hbegin.
    destruct (resolveMirrors _ _ _) as [|m l]; [done|].
    destruct (dailyLimitReached _); [done|].
    injection Hbegin as _ <-. done. }
  eexists. split.
  - unfold downloadFile_response, inspectQuota. rewrite Hclass, Hst. simpl.
    rewrite Hb, Ho. reflexivity.
  - repeat split; try (by destruct s).
    intros s2 ->. exact Hchain.
Qed.

Lemma C8_unthrottled_429_frame_witness :
  ∃ s',
    downloadFile_response (demo_config Nerinyan)
      (demo_attempt Nerinyan [Catboy; OsuDirect; Sayobot; Beatconnect; Nekoha]
         false)
      (demo_response 429 None 0)
      (bulkDownload (demo_config Nerinyan) None None [] 0)
    = (s', Done false) ∧
    isPaused s' = false ∧ concurrency s' = 5.
Proof.
  destruct (C8_unthrottled_429_frame (demo_config Nerinyan)
              (Submitted (demo_item 1)) (demo_item 1) None
              (bulkDownload (demo_config Nerinyan) None None [] 0)
              (record (Fetch 1 Nerinyan)
                 (emit (downloading (demo_item 1))
                    (bulkDownload (demo_config Nerinyan) None None [] 0)))
              (demo_attempt Nerinyan
                 [Catboy; OsuDirect; Sayobot; Beatconnect; Nekoha] false)
              {| status := 429; x_ratelimit_remaining := None;
                 fileName := Some "1 artist - title.osz";
                 body := Some {| chunks := [0%N]; streamOk := true |} |}
              (bulkDownload (demo_config Nerinyan) None None [] 0))
    as (s' & Hr & _ & Hp & Hc & _).
  - vm_compute. reflexivity.
  - reflexivity.
  - reflexivity.
  - exists s'. split; [exact Hr|]. split; [exact Hp | exact Hc].
Defined.

(** ** Items already on disk *)

Lemma Map_delete_gone (k : Z) (m : list BeatMapSet.t) (b : BeatMapSet.t) :
  BeatMapSet.id b = k → b ∉ Map_delete k m.
Proof.
  intros Hk Hin. unfold Map_delete in Hin.
  apply list_elem_of_filter in Hin as [Hne _]. done.
Qed.

(** C10. When the queue starts the job of a submitted item whose id is in
    the pre-scanned set, the job emits ["skipped"], removes the item from
    the collection, adds one to the skipped counter and one to the
    downloaded counter, and makes no attempt: nothing becomes pending and
    nothing but ["skipped"] (and ["end"], if the queue is now idle) is
    added to the trace.  The public getter therefore counts the item. *)
Theorem C10_skip_existing (cfg : Config.t) (b : BeatMapSet.t)
    (rest : list Task) (ids : gset Z) (s : Manager) :
  existingBeatmapsetIds s = Some ids →
  BeatMapSet.id b ∈ ids →
  queue s = Submitted b :: rest →
  isPaused s = false →
  Z.of_nat (length (pending s)) < concurrency s →
  ∃ s' tl,
    step cfg Start s = Some s' ∧
    trace s' = trace s ++ Emit (skipped b) :: tl ∧
    (tl = [] ∨ ∃ bs, tl = [Emit (ended bs)]) ∧
    beatMapSets s' = Map_delete (BeatMapSet.id b) (beatMapSets s) ∧
    (b ∉ beatMapSets s') ∧
    pending s' = pending s ∧
    queue s' = rest ∧
    getSkippedBeatMapSetSize s' = getSkippedBeatMapSetSize s + 1 ∧
    getDownloadedBeatMapSetSize s' = getDownloadedBeatMapSetSize s + 1.
Proof.
  intros Hex Hin Hq Hp Hc.
  assert (alreadyExists (set_queue rest s) (BeatMapSet.id b) = true) as Hhas.
  { unfold alreadyExists. simpl. rewrite Hex. by apply bool_decide_eq_true. }
  unfold step. rewrite Hq, Hp. simpl.
  rewrite (proj2 (Z.ltb_lt _ _) Hc). unfold runTask. rewrite Hhas.
  unfold queue_next, skipExisting, emit, record. simpl.
  destruct rest as [|t rest'], (pending s) as [|p ps] eqn:Hpend; simpl;
    eexists; eexists; (split; [reflexivity|]); simpl;
    rewrite <- ?app_assoc; simpl;
    (split; [reflexivity|]);
    (split; [eauto|]);
    repeat split; eauto using Map_delete_gone.
Qed.

Lemma C10_skip_existing_witness :
  ∃ s',
    step (demo_config Catboy) Start
      (bulkDownload (demo_config Catboy) None (Some {[7]})
         [demo_item 7; demo_item 8] 0) = Some s' ∧
    getDownloadedBeatMapSetSize s' = 1 ∧
    getSkippedBeatMapSetSize s' = 1 ∧
    beatMapSets s' = [demo_item 8].
Proof.
  destruct (C10_skip_existing (demo_config Catboy) (demo_item 7)
              [Submitted (demo_item 8)] {[7]}
              (bulkDownload (demo_config Catboy) None (Some {[7]})
                 [demo_item 7; demo_item 8] 0))
    as (s' & tl & Hstep & _ & _ & Hsets & _ & _ & _ & Hsk & Hdl).
  - reflexivity.
  - vm_compute. reflexivity.
  - reflexivity.
  - reflexivity.
  - vm_compute. reflexivity.
  - exists s'. split; [exact Hstep|]. split; [exact Hdl|].
    split; [exact Hsk|]. rewrite Hsets. vm_compute. reflexivity.
Defined.

(** ** A 200 whose body is too small *)

Lemma unlink_gone (f : string) (fs : gset string) : f ∉ fs ∖ {[f]}.
Proof. intros [_ Hn]%elem_of_difference. apply Hn. by apply elem_of_singleton. Qed.

Lemma other_status_is_caught (cfg : Config.t) (a : Attempt) (resp : Response)
    (s : Manager) :
  status resp ≠ 200 → status resp ≠ 429 →
  status resp ≠ 403 → status resp ≠ 451 →
  downloadFile_response cfg a (FetchResponse resp) s
  = (downloadFile_catch a (StatusCode (status resp))
       (inspectQuota (currentMirror a) resp s), Done false).
Proof.
  intros H200 H429 H403 H451. unfold downloadFile_response.
  rewrite (proj2 (Z.eqb_neq _ _) H429), (proj2 (Z.eqb_neq _ _) H403),
    (proj2 (Z.eqb_neq _ _) H451), (proj2 (Z.eqb_neq _ _) H200).
  reflexivity.
Qed.

(** C9. When an attempt got a 200 and the fully written body is smaller
    than 1024 bytes, the file is deleted and the attempt ends in the same
    [catch] block that any other non-200 status ends in: with mirrors
    left the item is queued for the next one (["retrying"]), with none
    left ["error"] is emitted for the item.  The call returns [false], so
    the item stays in the collection; the counters, the allowance, the
    ban list and the pause flag and concurrency of the queue are
    untouched, so the batch goes on. *)
Theorem C9_undersized_body (a : Attempt) (f : string) (bd : Body)
    (s : Manager) :
  streamOk bd = true →
  bytesWritten bd < 1024 →
  ∃ s',
    downloadFile_flush a f bd s = (s', Done false) ∧
    (f ∉ files s') ∧
    s' = downloadFile_catch a (FileTooSmall (bytesWritten bd))
           (set_files (files s ∖ {[f]}) s) ∧
    (∀ cfg resp,
       status resp ≠ 200 → status resp ≠ 429 →
       status resp ≠ 403 → status resp ≠ 451 →
       downloadFile_response cfg a (FetchResponse resp) s
       = (downloadFile_catch a (StatusCode (status resp))
            (inspectQuota (currentMirror a) resp s), Done false)) ∧
    match nextMirrors a with
    | _ :: _ =>
        queue s' = queue s ++ [RetryNext (beatMapSet a) (nextMirrors a)] ∧
        trace s' = trace s ++ [Emit (retrying (beatMapSet a))]
    | [] =>
        queue s' = queue s ∧
        trace s' = trace s ++
                   [Emit (error (beatMapSet a) (FileTooSmall (bytesWritten bd)))]
    end ∧
    beatMapSets (job_return (job a) false s') = beatMapSets s ∧
    downloadedBeatMapSetSize s' = downloadedBeatMapSetSize s ∧
    remainingDownloadsLimit s' = remainingDownloadsLimit s ∧
    bannedMirrors s' = bannedMirrors s ∧
    isPaused s' = isPaused s ∧
    concurrency s' = concurrency s.
Proof.
  intros Hok Hsmall. eexists. split.
  { unfold downloadFile_flush. rewrite Hok. simpl.
    rewrite (proj2 (Z.ltb_lt _ _) Hsmall). reflexivity. }
  split.
  { unfold_manager. destruct (isProbeRequest a), (nextMirrors a); simpl;
      apply unlink_gone. }
  split; [reflexivity|].
  split; [intros; by apply other_status_is_caught|].
  unfold_manager.
  destruct (isProbeRequest a), (nextMirrors a), (job a); simpl; done.
Qed.

Lemma C9_undersized_body_witness :
  ∃ s',
    downloadFile_flush (demo_attempt Catboy [Nerinyan] false)
      "1 artist - title.osz" {| chunks := [300%N; 200%N]; streamOk := true |}
      (set_files {["1 artist - title.osz"]}
         (bulkDownload (demo_config Catboy) None None [demo_item 1] 0))
    = (s', Done false) ∧
    files s' = ∅ ∧
    queue s' = [Submitted (demo_item 1); RetryNext (demo_item 1) [Nerinyan]].
Proof.
  destruct (C9_undersized_body (demo_attempt Catboy [Nerinyan] false)
              "1 artist - title.osz"
              {| chunks := [300%N; 200%N]; streamOk := true |}
              (set_files {["1 artist - title.osz"]}
                 (bulkDownload (demo_config Catboy) None None
                    [demo_item 1] 0)))
    as (s' & Hr & _ & Hs' & _ & Hq & _).
  - reflexivity.
  - vm_compute. reflexivity.
  - exists s'. split; [exact Hr|]. split.
    + rewrite Hs'. vm_compute. reflexivity.
    + simpl in Hq. destruct Hq as [Hq _]. rewrite Hq. reflexivity.
Defined.

(** ** Frame lemmas *)

Lemma settles_to_refl s : settles_to s s.
Proof. by split. Qed.

Lemma settles_to_trans s1 s2 s3 :
  settles_to s1 s2 → settles_to s2 s3 → settles_to s1 s3.
Proof.
  intros [] []. split; try (etrans; eassumption); try tauto.
  intros Hp. destruct (st_paused0 Hp) as [Hp2 Ht2].
  destruct (st_paused1 Hp2) as [Hp3 Ht3]. split; congruence.
Qed.

Ltac frame_by_cases s :=
  destruct s; unfold_manager; simpl;
  repeat case_match; simpl in *; split;
  unfold fetches, events, timers_inv; simpl;
  rewrite ?omap_app; simpl; rewrite ?app_nil_r;
  try done; try (intros; simplify_eq; eauto; done);
  try (repeat apply prefix_app_r; done).

Lemma set_queue_frame v s : settles_to s (set_queue v s).
Proof. frame_by_cases s. Qed.
Lemma set_pending_frame v s : settles_to s (set_pending v s).
Proof. frame_by_cases s. Qed.
Lemma set_files_frame v s : settles_to s (set_files v s).
Proof. frame_by_cases s. Qed.
Lemma set_beatMapSets_frame v s : settles_to s (set_beatMapSets v s).
Proof. frame_by_cases s. Qed.
Lemma set_concurrency_frame v s : settles_to s (set_concurrency v s).
Proof. frame_by_cases s. Qed.
Lemma set_lastDownloadsLimitCheck_frame v s :
  settles_to s (set_lastDownloadsLimitCheck v s).
Proof. frame_by_cases s. Qed.
Lemma set_remainingDownloadsLimit_frame v s :
  settles_to s (set_remainingDownloadsLimit v s).
Proof. frame_by_cases s. Qed.
Lemma set_downloadedBeatMapSetSize_frame v s :
  settles_to s (set_downloadedBeatMapSetSize v s).
Proof. frame_by_cases s. Qed.
Lemma set_testRequest_true_frame s : settles_to s (set_testRequest true s).
Proof. frame_by_cases s. Qed.
Lemma record_check_frame s : settles_to s (record CheckRateLimitation s).
Proof. frame_by_cases s. Qed.
Lemma queue_add_frame t s : settles_to s (queue_add t s).
Proof. frame_by_cases s. Qed.
Lemma emit_frame e s : settles_to s (emit e s).
Proof. destruct e; frame_by_cases s. Qed.
Lemma signalRateLimit_frame s : settles_to s (signalRateLimit s).
Proof. frame_by_cases s. Qed.
Lemma inspectQuota_frame m r s : settles_to s (inspectQuota m r s).
Proof. frame_by_cases s. Qed.
Lemma banOn403_frame a st s : settles_to s (banOn403 a st s).
Proof. frame_by_cases s. apply union_subseteq_r. Qed.
Lemma decrementLimit_frame s : settles_to s (decrementLimit s).
Proof. frame_by_cases s. Qed.
Lemma job_return_frame t ok s : settles_to s (job_return t ok s).
Proof. destruct t, ok; frame_by_cases s. Qed.
Lemma queue_next_frame s : settles_to s (queue_next s).
Proof. unfold queue_next. frame_by_cases s. Qed.
Lemma downloadFile_catch_frame a e s : settles_to s (downloadFile_catch a e s).
Proof. frame_by_cases s. Qed.
Lemma pauseAndResubmit_frame a s : settles_to s (pauseAndResubmit a s).
Proof. frame_by_cases s. Qed.

Ltac frame :=
  repeat lazymatch goal with
  | |- settles_to ?s ?s => apply settles_to_refl
  | |- settles_to _ _ =>
      eapply settles_to_trans;
      [| first
           [ apply emit_frame | apply downloadFile_catch_frame
           | apply pauseAndResubmit_frame | apply inspectQuota_frame
           | apply banOn403_frame | apply decrementLimit_frame
           | apply queue_add_frame | apply record_check_frame
           | apply job_return_frame | apply queue_next_frame
           | apply set_queue_frame | apply set_pending_frame
           | apply set_files_frame | apply set_beatMapSets_frame
           | apply set_concurrency_frame
           | apply set_lastDownloadsLimitCheck_frame
           | apply set_remainingDownloadsLimit_frame
           | apply set_downloadedBeatMapSetSize_frame ] ]
  end.

Lemma downloadFile_response_frame cfg a r s :
  settles_to s (downloadFile_response cfg a r s).1.
Proof.
  unfold downloadFile_response. cbv zeta. repeat case_match; cbn [fst]; frame.
Qed.

Lemma downloadFile_rateStatus_frame a r s :
  settles_to s (downloadFile_rateStatus a r s).1.
Proof.
  unfold downloadFile_rateStatus. cbv zeta. repeat case_match; cbn [fst]; frame.
Qed.

Lemma downloadFile_flush_frame a f bd s :
  settles_to s (downloadFile_flush a f bd s).1.
Proof.
  unfold downloadFile_flush. repeat case_match; cbn [fst]; frame.
Qed.

Lemma settle_frame k a res s :
  settles_to s res.1 → settles_to s (settle k a res).
Proof.
  destruct res as [s1 [ok|w]]; cbn [fst settle]; intros H; frame; exact H.
Qed.

Lemma downloadFile_begin_inv cfg t b opts s s' r :
  downloadFile_begin cfg t b opts s = (s', r) →
  bannedMirrors s' = bannedMirrors s ∧ clock s' = clock s ∧
  isPaused s' = isPaused s ∧ timers s' = timers s ∧
  concurrency s' = concurrency s ∧ queue s' = queue s ∧
  pending s' = pending s ∧ beatMapSets s' = beatMapSets s ∧
  remainingDownloadsLimit s' = remainingDownloadsLimit s ∧
  match r with
  | Returned ok => ok = false ∧ fetches s' = fetches s
  | InFlight a =>
      fetches s' = fetches s ++ [(BeatMapSet.id b, currentMirror a)] ∧
      resolveMirrors (Config.mirror cfg) (bannedMirrors s) opts
      = currentMirror a :: nextMirrors a ∧
      job a = t ∧ beatMapSet a = b ∧ options a = opts ∧
      isProbeRequest a = testRequest s ∧ testRequest s' = false ∧
      dailyLimitReached s = false
  end.
Proof.
  unfold downloadFile_begin.
  destruct (resolveMirrors _ _ _) as [|m l] eqn:Hchain.
  { intros [= <- <-]. destruct s; unfold_manager; unfold fetches; simpl.
    rewrite omap_app, app_nil_r. done. }
  destruct (dailyLimitReached _) eqn:Hlim.
  - intros [= <- <-]. destruct (testRequest s) eqn:Hprobe;
      destruct s; unfold_manager; unfold fetches; simpl in *;
      rewrite omap_app, app_nil_r; done.
  - intros [= <- <-]. destruct (testRequest s) eqn:Hprobe;
      destruct s; unfold_manager; unfold fetches; simpl in *;
      rewrite !omap_app, app_nil_r; simpl; subst; done.
Qed.


Lemma queue_next_controls s : same_controls s (queue_next s).
Proof.
  unfold queue_next, same_controls. destruct s; unfold_manager; unfold fetches.
  simpl. repeat case_match; simpl; rewrite ?omap_app, ?app_nil_r; done.
Qed.

Lemma job_return_controls t ok s : same_controls s (job_return t ok s).
Proof. unfold same_controls. by destruct t, ok, s. Qed.

Lemma skipExisting_controls b s : same_controls s (skipExisting b s).
Proof.
  unfold same_controls. destruct s; unfold_manager; unfold fetches. simpl.
  rewrite omap_app, app_nil_r. done.
Qed.

Lemma same_controls_trans s1 s2 s3 :
  same_controls s1 s2 → same_controls s2 s3 → same_controls s1 s3.
Proof. unfold same_controls. intuition congruence. Qed.

Lemma same_controls_starts s s' : same_controls s s' → starts_to s s'.
Proof. unfold same_controls. intros (?&?&?&?&?&?&?). split; auto. Qed.

Lemma launch_starts cfg t b opts s : starts_to s (launch cfg t b opts s).
Proof.
  unfold launch. destruct (downloadFile_begin _ _ _ _ _) as [s' r] eqn:Hb.
  apply downloadFile_begin_inv in Hb
    as (Hban & Hclk & Hp & Htm & Hc & _ & _ & _ & _ & Hr).
  destruct r as [ok|a].
  - destruct Hr as [_ Hf].
    pose proof (same_controls_trans _ _ _ (job_return_controls t ok s')
                  (queue_next_controls _)) as (?&?&?&?&?&?&?).
    split; try congruence. left. congruence.
  - destruct Hr as (Hf & Hchain & _).
    split; simpl; try done. right. eexists _, _. split; [exact Hf|].
    apply (resolveMirrors_not_banned (Config.mirror cfg) _ opts).
    rewrite Hchain. apply elem_of_cons. by left.
Qed.

Lemma runTask_starts cfg t s : starts_to s (runTask cfg t s).
Proof.
  unfold runTask. destruct t; try apply launch_starts.
  case_match; [|apply launch_starts].
  apply same_controls_starts.
  eapply same_controls_trans;
    [apply skipExisting_controls | apply queue_next_controls].
Qed.

Lemma step_Start cfg s s' :
  step cfg Start s = Some s' →
  isPaused s = false ∧ starts_to s s'.
Proof.
  unfold step. destruct (queue s) as [|t rest] eqn:Hq; [done|].
  destruct (isPaused s) eqn:Hp; [done|]. simpl.
  case_match; [|done]. intros [= <-]. split; [done|].
  pose proof (runTask_starts cfg t (set_queue rest s)) as [].
  split; try (by destruct s). 
Qed.

Lemma step_settles cfg i s s' :
  step cfg i s = Some s' →
  match i with
  | FetchSettles _ _ | RateStatusSettles _ _ | FlushSettles _ => settles_to s s'
  | _ => True
  end.
Proof.
  destruct i; try done; unfold step; repeat case_match; try done;
    intros [= <-]; apply settle_frame.
  - apply downloadFile_response_frame.
  - apply downloadFile_rateStatus_frame.
  - apply downloadFile_flush_frame.
Qed.

(** ** Runs of the event loop *)

Lemma step_Elapse cfg ms s s' :
  step cfg (Elapse ms) s = Some s' → 0 ≤ ms ∧ s' = set_clock (clock s + ms) s.
Proof.
  unfold step. destruct (0 <=? ms) eqn:Hms; [|done].
  intros [= <-]. split; [lia|done].
Qed.

Lemma step_TimerFires cfg s s' :
  step cfg TimerFires s = Some s' →
  ∃ due rest, timers s = due :: rest ∧ due ≤ clock s ∧
              s' = set_isPaused false (set_timers rest s).
Proof.
  unfold step. destruct (timers s) as [|due rest]; [done|].
  destruct (due <=? clock s) eqn:Hdue; [|done].
  intros [= <-]. exists due, rest. split; [done|]. split; [lia|done].
Qed.


Lemma step_clock_mono cfg i s s' :
  step cfg i s = Some s' → clock s ≤ clock s'.
Proof.
  intros Hstep. destruct i.
  - apply step_Start in Hstep as [_ []]. lia.
  - apply step_settles in Hstep as []. lia.
  - apply step_settles in Hstep as []. lia.
  - apply step_settles in Hstep as []. lia.
  - apply step_Elapse in Hstep as [? ->]. destruct s. simpl. lia.
  - apply step_TimerFires in Hstep as (? & ? & _ & _ & ->). by destruct s.
Qed.


Lemma step_timers_inv cfg i s s' :
  step cfg i s = Some s' → timers_inv s → timers_inv s'.
Proof.
  intros Hstep Hinv. destruct i.
  - apply step_Start in Hstep as [_ []]. unfold timers_inv in *.
    by rewrite sa_paused0, sa_timers0.
  - apply step_settles in Hstep as []. auto.
  - apply step_settles in Hstep as []. auto.
  - apply step_settles in Hstep as []. auto.
  - apply step_Elapse in Hstep as [_ ->]. by destruct s.
  - apply step_TimerFires in Hstep as (due & rest & Ht & _ & ->).
    unfold timers_inv in *. destruct s; simpl in *.
    destruct isPaused0; [|congruence].
    destruct Hinv as [d Hd]. congruence.
Qed.

Lemma run_cons cfg i ins s s' :
  run cfg (i :: ins) s = Some s' ↔
  ∃ s1, step cfg i s = Some s1 ∧ run cfg ins s1 = Some s'.
Proof.
  simpl. destruct (step cfg i s) as [s1|]; split.
  - intros H. by exists s1.
  - by intros (? & [= <-] & H).
  - done.
  - by intros (? & ? & _).
Qed.


Lemma run_clock_mono cfg ins s s' :
  run cfg ins s = Some s' → clock s ≤ clock s'.
Proof.
  revert s. induction ins as [|i ins IH]; intros s.
  - intros [= <-]. lia.
  - intros (s1 & Hstep & Hrun)%run_cons.
    apply step_clock_mono in Hstep. apply IH in Hrun. lia.
Qed.

Lemma run_timers_inv cfg ins s s' :
  run cfg ins s = Some s' → timers_inv s → timers_inv s'.
Proof.
  revert s. induction ins as [|i ins IH]; intros s.
  - by intros [= <-].
  - intros (s1 & Hstep & Hrun)%run_cons Hinv.
    eapply IH; [done|]. by eapply step_timers_inv.
Qed.

Lemma bulkDownload_timers_inv cfg limit existing items t0 :
  timers_inv (bulkDownload cfg limit existing items t0).
Proof. reflexivity. Qed.


(** ** Bans *)

(** The quota inspection touches only the controls of the soft rate
    limit and the trace. *)
Lemma inspectQuota_keeps (m : Mirror) (r : Response) (s : Manager) :
  let s' := inspectQuota m r s in
  queue s' = queue s ∧ pending s' = pending s ∧
  bannedMirrors s' = bannedMirrors s ∧ beatMapSets s' = beatMapSets s ∧
  remainingDownloadsLimit s' = remainingDownloadsLimit s ∧
  lastDownloadsLimitCheck s' = lastDownloadsLimitCheck s ∧
  downloadedBeatMapSetSize s' = downloadedBeatMapSetSize s ∧
  clock s' = clock s ∧ files s' = files s.
Proof. destruct s. unfold_manager. simpl. repeat case_match; simpl; done. Qed.




(** The scenario of the specification: the preferred mirror answers 403
    for item 1, the next mirror delivers 2000 bytes; the first mirror is
    then skipped for item 2 as well. *)
Example ban_scenario :
  ∃ s',
    run (demo_config Catboy)
      [Start; FetchSettles 0 (demo_response 403 None 0);
       Start; FetchSettles 0 (demo_response 200 None 2000); FlushSettles 0]
      (set_concurrency 1
         (bulkDownload (demo_config Catboy) None None
            [demo_item 1; demo_item 2] 0))
    = Some s' ∧
    fetches s' = [(1, Catboy); (2, Nerinyan)] ∧
    bannedMirrors s' = {[Catboy]} ∧
    queue s' = [RetryNext (demo_item 1)
                  [Nerinyan; OsuDirect; Sayobot; Beatconnect; Nekoha]].
Proof. eexists. split; [vm_compute; reflexivity|]. by vm_compute. Qed.

(** ** A successful download *)

Lemma downloadFile_flush_success (a : Attempt) (f : string) (bd : Body)
    (s : Manager) :
  streamOk bd = true →
  1024 ≤ bytesWritten bd →
  ∃ s',
    downloadFile_flush a f bd s = (s', Done true) ∧
    downloadedBeatMapSetSize s' = downloadedBeatMapSetSize s + 1 ∧
    remainingDownloadsLimit s'
    = (λ n, n - 1) <$> remainingDownloadsLimit s ∧
    trace s' = trace s ++ [Emit (downloaded (beatMapSet a))] ∧
    queue s' = queue s ∧
    beatMapSets s' = beatMapSets s.
Proof.
  intros Hok Hsize. eexists. split.
  { unfold downloadFile_flush. rewrite Hok. simpl.
    rewrite (proj2 (Z.ltb_ge _ _) Hsize). reflexivity. }
  destruct s as [? ? ? ? ? ? ? lim ? ? ? ? ? ? ? ?]. unfold_manager. simpl.
  destruct lim; done.
Qed.

(** The closures of lines 98 and 293 remove the item once their call has
    returned [true]. *)
Lemma job_return_deletes (t : Task) (b : BeatMapSet.t) (s : Manager) :
  t = Submitted b ∨ (∃ rest, t = RetryNext b rest) →
  b ∉ beatMapSets (job_return t true s).
Proof.
  intros [->|[rest ->]]; simpl; by apply Map_delete_gone.
Qed.

(** The closure of lines 205 and 229 does not. *)
Lemma job_return_RetrySame (b : BeatMapSet.t) (opts : option (list Mirror))
    (ok : bool) (s : Manager) :
  job_return (RetrySame b opts) ok s = s.
Proof. reflexivity. Qed.

(** C6, on the item of a run that was answered 429 once and then
    delivered in full: the 200 with 2000 bytes counts the item as
    downloaded and emits ["downloaded"] once, takes one from the
    allowance and queues no retry, but the item is still in the
    collection, and ["end"] reports it as not downloaded. *)
Theorem C6_resubmitted_item_stays_pending :
  ∃ s',
    run (demo_config Nerinyan)
      [Start; FetchSettles 0 (demo_response 429 None 0);
       Start; FetchSettles 0 (demo_response 200 None 2000); FlushSettles 0]
      (bulkDownload (demo_config Nerinyan) (Some 10) None [demo_item 1] 0)
    = Some s' ∧
    fetches s' = [(1, Nerinyan); (1, Nerinyan)] ∧
    events s' = [downloading (demo_item 1); downloading (demo_item 1);
                 downloaded (demo_item 1); ended [demo_item 1]] ∧
    getDownloadedBeatMapSetSize s' = 1 ∧
    remainingDownloadsLimit s' = Some 9 ∧
    queue s' = [] ∧ pending s' = [] ∧
    getNotDownloadedBeatapSets s' = [demo_item 1].
Proof. eexists. split; [vm_compute; reflexivity|]. by vm_compute. Qed.

(** ** The daily allowance *)

Lemma queue_next_pending (s : Manager) : pending (queue_next s) = pending s.
Proof.
  unfold queue_next. destruct s; unfold_manager; simpl.
  repeat case_match; done.
Qed.

Lemma job_return_pending t ok s : pending (job_return t ok s) = pending s.
Proof. by destruct t, ok, s. Qed.

Lemma skipExisting_pending b s : pending (skipExisting b s) = pending s.
Proof. by destruct s. Qed.

Lemma begin_exhausted cfg t b opts s n :
  remainingDownloadsLimit s = Some n → n ≤ 0 →
  ∃ s',
    downloadFile_begin cfg t b opts s = (s', Returned false) ∧
    fetches s' = fetches s ∧ pending s' = pending s ∧
    beatMapSets s' = beatMapSets s ∧
    remainingDownloadsLimit s' = Some n.
Proof.
  intros Hlim Hn.
  destruct (downloadFile_begin cfg t b opts s) as [s' r] eqn:Hb.
  apply downloadFile_begin_inv in Hb
    as (_ & _ & _ & _ & _ & _ & Hpend & Hsets & Hlim' & Hr).
  assert (dailyLimitReached s = true) as Hreached.
  { unfold dailyLimitReached. rewrite Hlim. by apply Z.leb_le. }
  destruct r as [ok|a']; [|destruct Hr as (_&_&_&_&_&_&_&Hno); congruence].
  destruct Hr as [-> Hf]. exists s'. split; [done|].
  repeat (split; [congruence|]). congruence.
Qed.

(** No job started while the tracked allowance is used up issues a
    fetch or becomes pending. *)
Lemma start_exhausted cfg s s' n :
  remainingDownloadsLimit s = Some n → n ≤ 0 →
  step cfg Start s = Some s' →
  fetches s' = fetches s ∧ pending s' = pending s.
Proof.
  intros Hlim Hn Hstep. unfold step in Hstep.
  destruct (queue s) as [|t rest]; [done|].
  destruct (_ && _); [|done]. injection Hstep as <-.
  assert (remainingDownloadsLimit (set_queue rest s) = Some n) as Hlim'
    by (by destruct s).
  assert (fetches (set_queue rest s) = fetches s ∧
          pending (set_queue rest s) = pending s) as [<- <-]
    by (by destruct s).
  assert (∀ b opts,
            fetches (launch cfg t b opts (set_queue rest s))
            = fetches (set_queue rest s) ∧
            pending (launch cfg t b opts (set_queue rest s))
            = pending (set_queue rest s)) as Hlaunch.
  { intros b opts. unfold launch.
    destruct (begin_exhausted cfg t b opts _ n Hlim' Hn)
      as (s1 & -> & Hf & Hp & _).
    destruct (same_controls_trans _ _ _ (job_return_controls t false s1)
                (queue_next_controls _)) as (_&_&_&_&_& Hf' &_).
    rewrite queue_next_pending, job_return_pending. split; congruence. }
  unfold runTask. destruct t as [b|b opts|b next]; try apply Hlaunch.
  case_match; [|apply Hlaunch].
  destruct (same_controls_trans _ _ _
              (skipExisting_controls b (set_queue rest s))
              (queue_next_controls _)) as (_&_&_&_&_& Hf' &_).
  by rewrite queue_next_pending, skipExisting_pending.
Qed.

(** C4. A confirmed download takes exactly one from the tracked
    allowance and leaves an untracked one untracked.  A call of
    [_downloadFile] made while the tracked allowance is zero or less
    returns [false] without recording a fetch and without becoming
    pending, and, having a mirror to attempt, emits ["dailyRateLimited"]
    with the items still in the collection; so no job that the queue
    starts in such a state, in whatever order jobs are started and
    settled, issues a fetch.  With an allowance of 5 and
    8 items downloaded one at a time, five fetches are made, the sixth,
    seventh and eighth job each end in ["dailyRateLimited"] for the three
    items left, and no sixth fetch is recorded. *)
Theorem C4_daily_allowance :
  (∀ a f bd s,
     streamOk bd = true → 1024 ≤ bytesWritten bd →
     ∃ s',
       downloadFile_flush a f bd s = (s', Done true) ∧
       remainingDownloadsLimit s'
       = (λ n, n - 1) <$> remainingDownloadsLimit s) ∧
  (∀ cfg t b opts s n,
     remainingDownloadsLimit s = Some n → n ≤ 0 →
     ∃ s',
       downloadFile_begin cfg t b opts s = (s', Returned false) ∧
       fetches s' = fetches s ∧
       pending s' = pending s ∧
       beatMapSets s' = beatMapSets s ∧
       remainingDownloadsLimit s' = Some n ∧
       (resolveMirrors (Config.mirror cfg) (bannedMirrors s) opts ≠ [] →
        events s' = events s ++ [dailyRateLimited (beatMapSets s)])) ∧
  (∀ cfg s s' n,
     remainingDownloadsLimit s = Some n → n ≤ 0 →
     step cfg Start s = Some s' →
     fetches s' = fetches s ∧ pending s' = pending s) ∧
  (∃ s5 s8,
     let items := demo_item <$> [1; 2; 3; 4; 5; 6; 7; 8] in
     let left := demo_item <$> [6; 7; 8] in
     let s0 := bulkDownload (sequential_config Nerinyan) (Some 5) None items 0 in
     run (sequential_config Nerinyan)
       (downloadOne ++ downloadOne ++ downloadOne ++ downloadOne ++ downloadOne)
       s0 = Some s5 ∧
     remainingDownloadsLimit s5 = Some 0 ∧
     getDownloadedBeatMapSetSize s5 = 5 ∧
     getNotDownloadedBeatapSets s5 = left ∧
     run (sequential_config Nerinyan) [Start; Start; Start] s5 = Some s8 ∧
     fetches s8 = fetches s5 ∧
     length (fetches s8) = 5%nat ∧
     events s8 = events s5 ++
                 [dailyRateLimited left; dailyRateLimited left;
                  dailyRateLimited left; ended left] ∧
     getNotDownloadedBeatapSets s8 = left ∧
     queue s8 = [] ∧ pending s8 = []).
Proof.
  split; [|split; [|split]].
  - intros a f bd s Hok Hsize.
    destruct (downloadFile_flush_success a f bd s Hok Hsize)
      as (s' & Hr & _ & Hlim & _).
    by exists s'.
  - intros cfg t b opts s n Hlim Hn.
    destruct (begin_exhausted cfg t b opts s n Hlim Hn)
      as (s' & Hb & Hf & Hp & Hsets & Hlim').
    exists s'. do 5 (split; [done|]).
    intros Hchain. unfold downloadFile_begin in Hb.
    destruct (resolveMirrors _ _ _) as [|m l]; [done|].
    assert (dailyLimitReached
              (if testRequest s then set_testRequest false s else s) = true)
      as Hreached'.
    { unfold dailyLimitReached.
      assert (remainingDownloadsLimit
                (if testRequest s then set_testRequest false s else s)
              = Some n) as -> by (destruct (testRequest s); by destruct s).
      by apply Z.leb_le. }
    rewrite Hreached' in Hb. injection Hb as <-.
    unfold events, record, getNotDownloadedBeatapSets.
    destruct (testRequest s); destruct s; simpl; by rewrite omap_app.
  - apply start_exhausted.
  - eexists _, _. cbv zeta.
    split; [vm_compute; reflexivity|].
    do 3 (split; [vm_compute; reflexivity|]).
    split; [vm_compute; reflexivity|].
    by vm_compute.
Qed.

(** ** The concurrency limit *)

(** The three things a resumed attempt can do to the concurrency limit:
    put the configured value back (a probe that got a 200), leave it and
    the pause flag alone, or pause a running queue and set it to 1. *)
Lemma downloadFile_response_concurrency cfg a r s :
  let s' := (downloadFile_response cfg a r s).1 in
  (∃ resp, r = FetchResponse resp ∧ status resp = 200 ∧
           isProbeRequest a = true ∧
           concurrency s' = configuredConcurrency cfg) ∨
  (concurrency s' = concurrency s ∧ isPaused s' = isPaused s) ∨
  (isPaused s = false ∧ isPaused s' = true ∧ concurrency s' = 1).
Proof.
  destruct r as [|resp]; cbv zeta.
  { right; left. destruct s; unfold_manager; simpl.
    repeat case_match; simpl; done. }
  destruct (Z.eq_dec (status resp) 200) as [H200|H200].
  - destruct (isProbeRequest a) eqn:Hp.
    + left. exists resp. repeat split; try done.
      unfold downloadFile_response. rewrite H200, Hp. simpl.
      destruct s; unfold_manager; simpl. repeat case_match; simpl; done.
    + right. unfold downloadFile_response. rewrite H200, Hp. simpl.
      destruct s; unfold_manager; simpl. repeat case_match; simpl; auto.
  - right. unfold downloadFile_response.
    rewrite (proj2 (Z.eqb_neq _ _) H200).
    destruct s; unfold_manager; simpl. repeat case_match; simpl; auto.
Qed.

(** A probe answered 200 puts the configured concurrency back, whatever
    becomes of the body. *)
Lemma probe_200_restores cfg a resp s :
  isProbeRequest a = true → status resp = 200 →
  concurrency (downloadFile_response cfg a (FetchResponse resp) s).1
  = configuredConcurrency cfg.
Proof.
  intros Hp H200. unfold downloadFile_response. rewrite H200, Hp. simpl.
  destruct s; unfold_manager; simpl. repeat case_match; simpl; done.
Qed.

(** The same for a response, told apart by whether it is a 200 to a
    probe. *)
Lemma response_concurrency_cases cfg a resp s :
  let s' := (downloadFile_response cfg a (FetchResponse resp) s).1 in
  if isProbeRequest a && (status resp =? 200)
  then concurrency s' = configuredConcurrency cfg
  else (concurrency s' = concurrency s ∧ isPaused s' = isPaused s) ∨
       (isPaused s = false ∧ isPaused s' = true ∧ concurrency s' = 1).
Proof.
  cbv zeta. destruct (isProbeRequest a) eqn:Hp; cbn [andb].
  - destruct (status resp =? 200) eqn:H200.
    + apply Z.eqb_eq in H200. by apply probe_200_restores.
    + apply Z.eqb_neq in H200.
      destruct (downloadFile_response_concurrency cfg a (FetchResponse resp) s)
        as [(resp' & [= <-] & ? & _)|[?|?]]; [done|by left|by right].
  - destruct (downloadFile_response_concurrency cfg a (FetchResponse resp) s)
      as [(resp' & [= <-] & _ & ? & _)|[?|?]]; [congruence|by left|by right].
Qed.

Lemma downloadFile_rateStatus_concurrency a r s :
  let s' := (downloadFile_rateStatus a r s).1 in
  (concurrency s' = concurrency s ∧ isPaused s' = isPaused s) ∨
  (isPaused s = false ∧ isPaused s' = true ∧ concurrency s' = 1).
Proof.
  cbv zeta. unfold downloadFile_rateStatus.
  destruct s; unfold_manager; simpl. repeat case_match; simpl; auto.
Qed.

Lemma downloadFile_flush_concurrency a f bd s :
  let s' := (downloadFile_flush a f bd s).1 in
  concurrency s' = concurrency s ∧ isPaused s' = isPaused s.
Proof.
  cbv zeta. unfold downloadFile_flush.
  destruct s; unfold_manager; simpl. repeat case_match; simpl; auto.
Qed.

Lemma settle_controls k a res :
  concurrency (settle k a res) = concurrency res.1 ∧
  isPaused (settle k a res) = isPaused res.1 ∧
  testRequest (settle k a res) = testRequest res.1 ∧
  timers (settle k a res) = timers res.1 ∧
  remainingDownloadsLimit (settle k a res) = remainingDownloadsLimit res.1 ∧
  queue (settle k a res) = queue res.1.
Proof.
  destruct res as [s1 [ok|w]]; cbn [settle fst]; [|by destruct s1].
  unfold queue_next.
  destruct (job a), ok, s1; unfold_manager; simpl;
    repeat case_match; simpl; done.
Qed.

Lemma step_concurrency cfg i s s' :
  step cfg i s = Some s' →
  (∃ k a resp,
     i = FetchSettles k (FetchResponse resp) ∧
     pending s !! k = Some (a, AwaitFetch) ∧
     isProbeRequest a = true ∧ status resp = 200 ∧
     concurrency s' = configuredConcurrency cfg) ∨
  (concurrency s' = concurrency s ∧ isPaused s' = isPaused s) ∨
  (isPaused s = false ∧ isPaused s' = true ∧ concurrency s' = 1) ∨
  (i = TimerFires ∧ concurrency s' = concurrency s).
Proof.
  intros Hstep. destruct i.
  - apply step_Start in Hstep as [_ []]. right; left. done.
  - unfold step in Hstep.
    destruct (pending s !! k) as [[a w]|] eqn:Hk; [|done].
    destruct w; try done. injection Hstep as <-.
    destruct (settle_controls k a (downloadFile_response cfg a r s))
      as (-> & -> & _).
    destruct (downloadFile_response_concurrency cfg a r s)
      as [(resp & -> & ? & ? & ?)|[?|?]]; [left|right; left|right; right; left];
      try done.
    by exists k, a, resp.
  - unfold step in Hstep.
    destruct (pending s !! k) as [[a w]|] eqn:Hk; [|done].
    destruct w; try done. injection Hstep as <-.
    destruct (settle_controls k a (downloadFile_rateStatus a r s))
      as (-> & -> & _).
    destruct (downloadFile_rateStatus_concurrency a r s) as [?|?];
      [right; left|right; right; left]; done.
  - unfold step in Hstep.
    destruct (pending s !! k) as [[a w]|] eqn:Hk; [|done].
    destruct w; try done. injection Hstep as <-.
    destruct (settle_controls k a (downloadFile_flush a filePath b s))
      as (-> & -> & _).
    right; left. apply downloadFile_flush_concurrency.
  - apply step_Elapse in Hstep as [_ ->]. right; left. by destruct s.
  - apply step_TimerFires in Hstep as (? & ? & _ & _ & ->).
    right; right; right. by destruct s.
Qed.

(** ** The cooldown *)

Lemma cooling_no_start cfg due s : cooling due s → step cfg Start s = None.
Proof.
  intros (Hp & _ & _). unfold step. rewrite Hp. by destruct (queue s).
Qed.

Lemma step_cooling cfg i due s s' :
  cooling due s → step cfg i s = Some s' →
  (cooling due s' ∧ fetches s' = fetches s ∧ clock s' < due ∨ due ≤ clock s').
Proof.
  intros (Hp & Hprobe & Ht) Hstep.
  destruct (Z.lt_ge_cases (clock s') due) as [Hlt|Hge]; [left|by right].
  destruct i.
  - by rewrite (cooling_no_start cfg due s) in Hstep.
  - apply step_settles in Hstep as [].
    destruct (st_paused0 Hp) as [? ?]. repeat split; auto; congruence.
  - apply step_settles in Hstep as [].
    destruct (st_paused0 Hp) as [? ?]. repeat split; auto; congruence.
  - apply step_settles in Hstep as [].
    destruct (st_paused0 Hp) as [? ?]. repeat split; auto; congruence.
  - apply step_Elapse in Hstep as [_ ->]. by destruct s.
  - apply step_TimerFires in Hstep as (d & rest & Ht' & Hd & ->).
    rewrite Ht in Ht'. injection Ht' as <- <-. destruct s; simpl in *. lia.
Qed.

(** While the clock is short of the due time the queue stays paused, the
    probe flag stays set, and no fetch is issued. *)
Lemma run_cooling cfg ins due s s' :
  cooling due s → run cfg ins s = Some s' → clock s' < due →
  cooling due s' ∧ fetches s' = fetches s.
Proof.
  revert s. induction ins as [|i ins IH]; intros s Hcool.
  - by intros [= <-] _.
  - intros (s1 & Hstep & Hrun)%run_cons Hlt.
    destruct (step_cooling _ _ _ _ _ Hcool Hstep) as [(Hc1 & Hf1 & _)|Hge].
    + destruct (IH s1 Hc1 Hrun Hlt) as [? ?]. split; [done|congruence].
    + apply run_clock_mono in Hrun. lia.
Qed.

(** Once the cooldown has passed the timer goes off and the queue runs
    again. *)
Lemma cooling_resume cfg due s :
  cooling due s → due ≤ clock s →
  ∃ s', step cfg TimerFires s = Some s' ∧ isPaused s' = false ∧
        timers s' = [] ∧ concurrency s' = concurrency s ∧
        testRequest s' = true.
Proof.
  intros (Hp & Hprobe & Ht) Hdue. unfold step. rewrite Ht.
  rewrite (proj2 (Z.leb_le _ _) Hdue). eexists. split; [done|]. by destruct s.
Qed.

(** The course of a cooldown: until it is over the queue stays paused,
    the probe flag stays set, no job starts and no fetch is issued; when
    it is over the timer resumes the queue. *)
Lemma cooling_course cfg due s :
  cooling due s → due ≤ clock s + cooldown →
  (∀ ins s2,
     run cfg ins s = Some s2 → clock s2 < due →
     isPaused s2 = true ∧ testRequest s2 = true ∧
     fetches s2 = fetches s ∧ step cfg Start s2 = None) ∧
  (∃ s3, run cfg waitOutCooldown s = Some s3 ∧
         isPaused s3 = false ∧ testRequest s3 = true ∧
         concurrency s3 = concurrency s).
Proof.
  intros Hcool Hdue. split.
  - intros ins s2 Hrun Hshort.
    destruct (run_cooling _ _ _ _ _ Hcool Hrun Hshort) as [(? & ? & ?) ?].
    split; [done|]. split; [done|]. split; [done|].
    by apply (cooling_no_start cfg due).
  - unfold waitOutCooldown, run.
    assert (step cfg (Elapse cooldown) s
            = Some (set_clock (clock s + cooldown) s)) as -> by done.
    destruct (cooling_resume cfg due (set_clock (clock s + cooldown) s))
      as (s3 & -> & Hp3 & _ & Hc3 & Ht3).
    { destruct Hcool as (? & ? & ?). by destruct s. }
    { by destruct s. }
    exists s3. split; [done|]. split; [done|]. split; [done|].
    rewrite Hc3. by destruct s.
Qed.

(** ** The soft rate limit *)

Lemma parseInt_nonempty (x : string) (v : Z) :
  JS.parseInt x = Some v → String.eqb x "" = false.
Proof. by destruct x. Qed.

Lemma quotaLow_iff (r : Response) :
  quotaLow r = true ↔
  ∃ x v, x_ratelimit_remaining r = Some x ∧ JS.parseInt x = Some v ∧ v ≤ 12.
Proof.
  unfold quotaLow. destruct (x_ratelimit_remaining r) as [x|]; split.
  - intros [_ H]%andb_true_iff. destruct (JS.parseInt x) as [v|] eqn:Hv; [|done].
    exists x, v. split; [done|]. split; [done|]. by apply Z.leb_le.
  - intros (x' & v & [= <-] & Hv & Hle).
    rewrite (parseInt_nonempty _ _ Hv), Hv. simpl. by apply Z.leb_le.
  - done.
  - by intros (? & ? & ? & _).
Qed.

Lemma signalRateLimit_running (s : Manager) :
  isPaused s = false →
  let s1 := signalRateLimit s in
  events s1 = events s ++ [rateLimited] ∧
  isPaused s1 = true ∧ concurrency s1 = 1 ∧ testRequest s1 = true ∧
  timers s1 = timers s ++ [clock s + cooldown].
Proof.
  intros Hp. destruct s; simpl in *; subst. unfold_manager; unfold events.
  simpl. by rewrite omap_app.
Qed.

Lemma signalRateLimit_paused (s : Manager) :
  isPaused s = true → signalRateLimit s = s.
Proof. intros Hp. unfold signalRateLimit. by rewrite Hp. Qed.

(** The quota inspection comes first; what follows it in the handling of
    a response is framed from there. *)
Lemma downloadFile_response_after_quota cfg a resp s :
  settles_to (inspectQuota (currentMirror a) resp s)
    (downloadFile_response cfg a (FetchResponse resp) s).1.
Proof.
  unfold downloadFile_response. cbv zeta. repeat case_match; cbn [fst]; frame.
Qed.

Lemma settle_events k a res : events res.1 `prefix_of` events (settle k a res).
Proof.
  destruct res as [s1 [ok|w]]; cbn [settle fst]; [|by destruct s1].
  etrans; [|apply queue_next_frame].
  etrans; [|apply job_return_frame]. by destruct s1.
Qed.

Lemma timers_inv_running (s : Manager) :
  timers_inv s → isPaused s = false → timers s = [].
Proof. unfold timers_inv. intros H Hp. by rewrite Hp in H. Qed.

(** A low quota header on a response from a throttled mirror, seen while
    the queue runs. *)
Lemma low_quota_pauses cfg k a resp x v s :
  pending s !! k = Some (a, AwaitFetch) →
  noRateLimit (currentMirror a) = false →
  x_ratelimit_remaining resp = Some x → JS.parseInt x = Some v → v ≤ 12 →
  timers_inv s → isPaused s = false →
  ∃ s' tl,
    step cfg (FetchSettles k (FetchResponse resp)) s = Some s' ∧
    events s' = events s ++ rateLimited :: tl ∧
    concurrency (inspectQuota (currentMirror a) resp s) = 1 ∧
    cooling (clock s + cooldown) s' ∧
    clock s' = clock s ∧
    (isProbeRequest a = false ∨ status resp ≠ 200 → concurrency s' = 1).
Proof.
  intros Hk Hclass Hx Hv Hle Hinv Hrun.
  assert (inspectQuota (currentMirror a) resp s = signalRateLimit s) as Hsig.
  { unfold inspectQuota. rewrite Hclass.
    rewrite (proj2 (quotaLow_iff resp)); [done|by exists x, v]. }
  destruct (signalRateLimit_running s Hrun) as (Hev & Hp1 & Hc1 & Ht1 & Htm1).
  rewrite <- Hsig in Hev, Hp1, Hc1, Ht1, Htm1.
  pose proof (downloadFile_response_after_quota cfg a resp s) as [].
  set (res := downloadFile_response cfg a (FetchResponse resp) s) in *.
  destruct (settle_controls k a res) as (Hsc & Hsp & Hst & Hstm & _).
  destruct (st_paused0 Hp1) as [Hp2 Htm2].
  pose proof (settle_events k a res) as Hpre.
  destruct (transitivity st_events0 Hpre) as [tl Htl].
  exists (settle k a res), tl. split; [by unfold step; rewrite Hk|].
  split; [by rewrite Htl, Hev, <- app_assoc|].
  split; [done|].
  split.
  { split; [congruence|]. split; [rewrite Hst; auto|].
    rewrite Hstm, Htm2, Htm1, (timers_inv_running s Hinv Hrun). done. }
  split.
  { assert (step cfg (FetchSettles k (FetchResponse resp)) s
            = Some (settle k a res)) as Hstep by (by unfold step; rewrite Hk).
    apply step_settles in Hstep as []. done. }
  intros Hnot.
  destruct (downloadFile_response_concurrency cfg a (FetchResponse resp) s)
    as [(resp' & [= <-] & H200 & Hpr & _)|[[_ Hsame]|(_ & _ & Hone)]].
  - destruct Hnot; congruence.
  - fold res in Hsame. congruence.
  - fold res in Hone. congruence.
Qed.

Example parseInt_samples :
  JS.parseInt "5" = Some 5 ∧ JS.parseInt " 12; w=60" = Some 12 ∧
  JS.parseInt "-3" = Some (-3) ∧ JS.parseInt "0x0c" = Some 12 ∧
  JS.parseInt "" = None ∧ JS.parseInt "unlimited" = None.
Proof. repeat split; reflexivity. Qed.

(** The threshold of line 194 is inclusive: a header of exactly 12 gives
    the signal as well. *)
Example quotaLow_at_12 :
  quotaLow {| status := 200; x_ratelimit_remaining := Some "12";
              fileName := None; body := None |} = true ∧
  quotaLow {| status := 200; x_ratelimit_remaining := Some "13";
              fileName := None; body := None |} = false.
Proof. split; reflexivity. Qed.

(** While the queue is paused the handling of a response emits no
    ["rateLimited"]. *)
Lemma downloadFile_response_quiet cfg a r s :
  isPaused s = true →
  ∃ tl, events (downloadFile_response cfg a r s).1 = events s ++ tl ∧
        rateLimited ∉ tl.
Proof.
  intros Hp. unfold downloadFile_response.
  destruct s as [? paused ? ? ? ? ? ? ? ? ? ? ? ? ? ?]. simpl in Hp. subst.
  unfold_manager; unfold events; simpl.
  repeat case_match; simpl; rewrite ?omap_app; simpl;
    rewrite ?app_nil_r, <- ?app_assoc; simpl;
    eexists; (split; [reflexivity || (symmetry; apply app_nil_r)|]);
    rewrite ?elem_of_cons, ?elem_of_nil; naive_solver.
Qed.

Lemma settle_quiet k a res :
  ∃ tl, events (settle k a res) = events res.1 ++ tl ∧ rateLimited ∉ tl.
Proof.
  destruct res as [s1 [ok|w]]; cbn [settle fst].
  - unfold queue_next.
    destruct (job a), ok, s1; unfold_manager; unfold events; simpl;
      repeat case_match; simpl; rewrite ?omap_app; simpl;
      eexists; (split; [reflexivity || (symmetry; apply app_nil_r)|]);
      rewrite ?elem_of_cons, ?elem_of_nil; naive_solver.
  - exists []. rewrite app_nil_r. split; [by destruct s1|]. apply not_elem_of_nil.
Qed.

(** C7, as the code has it.  First, the soft rate limit is signalled by
    a 200 to a probe with a quota header of 5, seen while the queue runs:
    the queue is paused, but the concurrency is the configured 5 when the
    response has been handled, not 1.  Second, two items are under way
    and the response to the first, with a quota header of 5, pauses the
    queue; the response to the second arrives 30 seconds later with the
    same header, while the queue is paused: no ["rateLimited"] is emitted
    for it and no timer is armed, so the queue resumes 30 seconds after
    that response. *)
Lemma C7_counterexample :
  let cfg := demo_config Catboy in
  (∃ sb a s',
     run cfg ([Start; FetchSettles 0 (tooManyRequests "50")] ++ waitOutCooldown
              ++ [Start])
       (bulkDownload cfg None None [demo_item 1] 0) = Some sb ∧
     isPaused sb = false ∧
     pending sb = [(a, AwaitFetch)] ∧ currentMirror a = Catboy ∧
     isProbeRequest a = true ∧
     step cfg (FetchSettles 0 (demo_response 200 (Some "5") 2000)) sb = Some s' ∧
     events s' = events sb ++ [rateLimited] ∧
     isPaused s' = true ∧
     configuredConcurrency cfg = 5 ∧
     concurrency s' = 5) ∧
  (∃ sp s',
     run cfg [Start; Start; FetchSettles 0 (demo_response 200 (Some "5") 2000);
              Elapse 30000]
       (bulkDownload cfg None None [demo_item 1; demo_item 2] 0) = Some sp ∧
     isPaused sp = true ∧ clock sp = 30000 ∧ timers sp = [cooldown] ∧
     step cfg (FetchSettles 1 (demo_response 200 (Some "5") 2000)) sp = Some s' ∧
     events s' = events sp ∧
     timers s' = [cooldown]).
Proof.
  cbv zeta. split.
  - eexists _, _, _. split; [vm_compute; reflexivity|].
    split; [vm_compute; reflexivity|]. split; [vm_compute; reflexivity|].
    split; [vm_compute; reflexivity|]. split; [vm_compute; reflexivity|].
    split; [vm_compute; reflexivity|]. split; [vm_compute; reflexivity|].
    split; [vm_compute; reflexivity|]. split; vm_compute; reflexivity.
  - eexists _, _. split; [vm_compute; reflexivity|].
    split; [vm_compute; reflexivity|]. split; [vm_compute; reflexivity|].
    split; [vm_compute; reflexivity|]. split; [vm_compute; reflexivity|].
    split; vm_compute; reflexivity.
Qed.

(** C7, amended. In every state of a run, a response from a mirror of
    the throttled class whose quota header reads below 12 leaves the
    queue paused.  If the queue was running, ["rateLimited"] is emitted
    and its listener pauses the queue, sets the concurrency to 1 and arms
    the one timer, due 60 seconds later; until then the queue stays
    paused, no job can start and no fetch is issued, and when the
    cooldown has passed the timer resumes the queue.  The concurrency is
    still 1 when the response has been handled, unless the response is a
    200 to a probe, which puts the configured value back at once.  If the
    queue was paused already, no ["rateLimited"] is emitted and no timer
    is armed: the queue stays paused on the timer of the cooldown under
    way, and the concurrency is left as it is (again unless the response
    is a 200 to a probe).
    In the scenario, one item alone on Catboy is answered 429 three
    times, with quota headers 20, 10 and 5 and the allowance unknown:
    the queue is running when the third response arrives and paused once
    it is handled; three fetches have been made, the item is queued for
    its fourth attempt and the queue refuses to start it.  (The first
    and the second response had paused the queue as well; the run waits
    out both cooldowns.) *)
Theorem C7_low_quota_signal :
  cooldown = 60000 ∧
  (∀ cfg limit existing items t0 ins0 s k a resp x v,
     run cfg ins0 (bulkDownload cfg limit existing items t0) = Some s →
     pending s !! k = Some (a, AwaitFetch) →
     noRateLimit (currentMirror a) = false →
     x_ratelimit_remaining resp = Some x → JS.parseInt x = Some v → v < 12 →
     ∃ s',
       step cfg (FetchSettles k (FetchResponse resp)) s = Some s' ∧
       isPaused s' = true ∧
       (isPaused s = false →
          (∃ tl, events s' = events s ++ rateLimited :: tl) ∧
          concurrency (inspectQuota (currentMirror a) resp s) = 1 ∧
          (if isProbeRequest a && (status resp =? 200)
           then concurrency s' = configuredConcurrency cfg
           else concurrency s' = 1) ∧
          timers s' = [clock s + cooldown] ∧
          (∀ ins s2,
             run cfg ins s' = Some s2 → clock s2 < clock s + cooldown →
             isPaused s2 = true ∧ fetches s2 = fetches s' ∧
             step cfg Start s2 = None) ∧
          (∃ s3, run cfg waitOutCooldown s' = Some s3 ∧ isPaused s3 = false)) ∧
       (isPaused s = true →
          (∃ tl, events s' = events s ++ tl ∧ rateLimited ∉ tl) ∧
          timers s' = timers s ∧
          (if isProbeRequest a && (status resp =? 200)
           then concurrency s' = configuredConcurrency cfg
           else concurrency s' = concurrency s))) ∧
  (let cfg := demo_config Catboy in
   let s0 := onlyMirror Catboy (bulkDownload cfg None None [demo_item 1] 0) in
   ∃ s1 s2 sb s3 s3',
     run cfg [Start; FetchSettles 0 (tooManyRequests "20")] s0 = Some s1 ∧
     isPaused s1 = true ∧
     run cfg (waitOutCooldown ++
              [Start; FetchSettles 0 (tooManyRequests "10");
               RateStatusSettles 0 (RateStatus None)]) s1 = Some s2 ∧
     isPaused s2 = true ∧
     run cfg (waitOutCooldown ++ [Start]) s2 = Some sb ∧
     isPaused sb = false ∧
     step cfg (FetchSettles 0 (tooManyRequests "5")) sb = Some s3 ∧
     isPaused s3 = true ∧
     run cfg [RateStatusSettles 0 (RateStatus None)] s3 = Some s3' ∧
     isPaused s3' = true ∧
     fetches s3' = [(1, Catboy); (1, Catboy); (1, Catboy)] ∧
     queue s3' = [RetrySame (demo_item 1) None] ∧
     pending s3' = [] ∧
     step cfg Start s3' = None).
Proof.
  split; [reflexivity|]. split.
  - intros cfg limit existing items t0 ins0 s k a resp x v
      Hreach Hk Hclass Hx Hv Hlt.
    pose proof (run_timers_inv _ _ _ _ Hreach
                  (bulkDownload_timers_inv cfg limit existing items t0))
      as Hinv.
    set (res := downloadFile_response cfg a (FetchResponse resp) s).
    assert (step cfg (FetchSettles k (FetchResponse resp)) s
            = Some (settle k a res)) as Hstep by (by unfold step; rewrite Hk).
    destruct (settle_controls k a res) as (Hsc & Hsp & _ & Hstm & _).
    pose proof (response_concurrency_cases cfg a resp s) as Hcases.
    cbv zeta in Hcases. fold res in Hcases. rewrite <- Hsc in Hcases.
    exists (settle k a res). split; [done|].
    destruct (isPaused s) eqn:Hp.
    + pose proof (downloadFile_response_frame cfg a (FetchResponse resp) s)
        as [_ _ Hpaused _ _ _ _].
      destruct (Hpaused Hp) as [Hp1 Htm1]. fold res in Hp1, Htm1.
      split; [congruence|]. split; [done|]. intros _.
      split; [|split; [congruence|]].
      * destruct (downloadFile_response_quiet cfg a (FetchResponse resp) s Hp)
          as (tl1 & Htl1 & Hn1).
        destruct (settle_quiet k a res) as (tl2 & Htl2 & Hn2).
        exists (tl1 ++ tl2). fold res in Htl1.
        split; [by rewrite Htl2, Htl1, app_assoc|].
        rewrite elem_of_app. tauto.
      * destruct (isProbeRequest a && (status resp =? 200)); [done|].
        destruct Hcases as [[? _]|[? _]]; done.
    + destruct (low_quota_pauses cfg k a resp x v s Hk Hclass Hx Hv
                  ltac:(lia) Hinv Hp)
        as (s' & tl & Hstep' & Hev & Hc1 & Hcool & Hclk & Hc').
      rewrite Hstep in Hstep'. injection Hstep' as <-.
      split; [by destruct Hcool|]. split; [|done]. intros _.
      split; [by exists tl|]. split; [done|]. split.
      { destruct (isProbeRequest a && (status resp =? 200)) eqn:Hb; [done|].
        apply Hc'. apply andb_false_iff in Hb as [?|?%Z.eqb_neq]; auto. }
      split; [by destruct Hcool as (_ & _ & ?)|].
      destruct (cooling_course cfg _ _ Hcool ltac:(lia)) as [Hstay Hres].
      split.
      * intros ins s2 Hrun Hshort.
        destruct (Hstay ins s2 Hrun Hshort) as (? & _ & ? & ?). done.
      * destruct Hres as (s3 & ? & ? & _). by exists s3.
  - cbv zeta. eexists _, _, _, _, _.
    split; [vm_compute; reflexivity|]. split; [vm_compute; reflexivity|].
    split; [vm_compute; reflexivity|]. split; [vm_compute; reflexivity|].
    split; [vm_compute; reflexivity|]. split; [vm_compute; reflexivity|].
    split; [vm_compute; reflexivity|]. split; [vm_compute; reflexivity|].
    split; [vm_compute; reflexivity|]. by vm_compute.
Qed.

(** ** A probe answered 429 *)



Lemma limitCheckDue_inspectQuota m r s :
  limitCheckDue (inspectQuota m r s) = limitCheckDue s.
Proof.
  unfold limitCheckDue.
  by destruct (inspectQuota_keeps m r s) as (_&_&_&_&_& -> &_& -> &_).
Qed.













(** ** HTTP 429 from a mirror of the throttled class *)

Lemma throttled_429_signal cfg a resp s :
  noRateLimit (currentMirror a) = false → status resp = 429 →
  isProbeRequest a && limitCheckDue s = false →
  isPaused s = false →
  ∃ s',
    downloadFile_response cfg a (FetchResponse resp) s = (s', Done false) ∧
    isPaused s' = true ∧ concurrency s' = 1 ∧ testRequest s' = true ∧
    timers s' = timers s ++ [clock s + cooldown] ∧
    queue s' = queue s ++ [RetrySame (beatMapSet a) (options a)] ∧
    events s' = events s ++ [rateLimited].
Proof.
  intros Hclass Hst Hnocheck Hrun.
  pose proof (limitCheckDue_inspectQuota (currentMirror a) resp s) as Hdue.
  unfold downloadFile_response. rewrite Hst, Hclass, Hdue, Hnocheck.
  cbn [Z.eqb Pos.eqb]. eexists. split; [reflexivity|].
  unfold pauseAndResubmit, inspectQuota. rewrite Hclass.
  destruct s as [? paused ? ? ? ? ? ? ? ? ? ? ? ? ? ?]. simpl in Hrun. subst.
  unfold_manager; unfold events; simpl.
  destruct (quotaLow resp); simpl; rewrite omap_app; done.
Qed.

Lemma rateStatus_signal a v s :
  isPaused s = false →
  ∃ s',
    downloadFile_rateStatus a (RateStatus v) s = (s', Done false) ∧
    isPaused s' = true ∧ concurrency s' = 1 ∧ testRequest s' = true ∧
    timers s' = timers s ++ [clock s + cooldown] ∧
    queue s' = queue s ++ [RetrySame (beatMapSet a) (options a)].
Proof.
  intros Hrun. eexists. split; [reflexivity|].
  destruct s as [? paused ? ? ? ? ? ? ? ? ? ? ? ? ? ?]. simpl in Hrun. subst.
  unfold_manager; simpl. destruct v as [[| |]|]; done.
Qed.

Lemma refused_with_mirror_left cfg a resp s :
  status resp = 403 ∨ status resp = 451 → nextMirrors a ≠ [] →
  downloadFile_response cfg a (FetchResponse resp) s
  = (downloadFile_catch a (StatusCode (status resp))
       (banOn403 a (status resp) (inspectQuota (currentMirror a) resp s)),
     Done false).
Proof.
  intros Hst Hnext. unfold downloadFile_response.
  destruct (nextMirrors a) eqn:Hn; [done|].
  destruct Hst as [-> | ->]; reflexivity.
Qed.

(** A probe that ends in the [catch] block sets the probe flag again. *)
Lemma probe_rearmed a e s :
  isProbeRequest a = true → testRequest (downloadFile_catch a e s) = true.
Proof.
  intros Hp. destruct s. unfold_manager. rewrite Hp. simpl.
  destruct (nextMirrors a); simpl; done.
Qed.

(** C2, as the code has it: the probe sent after the cooldown is
    answered 500, a status other than 429, and the concurrency the queue
    was configured with (5) is not put back: it stays 1, and the probe
    flag is set again for the next request. *)
Lemma C2_counterexample :
  let cfg := demo_config Catboy in
  ∃ sb a s',
    run cfg ([Start; FetchSettles 0 (tooManyRequests "50")] ++ waitOutCooldown ++
             [Start])
      (bulkDownload cfg None None [demo_item 1] 0) = Some sb ∧
    clock sb = cooldown ∧
    pending sb = [(a, AwaitFetch)] ∧ isProbeRequest a = true ∧
    step cfg (FetchSettles 0 (demo_response 500 None 0)) sb = Some s' ∧
    pending s' = [] ∧
    configuredConcurrency cfg = 5 ∧
    concurrency s' = 1 ∧
    testRequest s' = true.
Proof.
  cbv zeta. eexists _, _, _. split; [vm_compute; reflexivity|].
  split; [vm_compute; reflexivity|]. split; [vm_compute; reflexivity|].
  split; [vm_compute; reflexivity|]. split; [vm_compute; reflexivity|].
  by vm_compute.
Qed.

(** C2, amended. In every state of a run, a 429 from a mirror of the
    throttled class handled while the queue is running pauses the queue,
    sets its concurrency to 1, sets the probe flag, queues the item
    again and arms the one timer, due 60 seconds later (for a probe
    whose allowance query is due this happens when the query returns, if
    the queue is still running then).  Until the cooldown has passed the
    queue stays paused, the probe flag stays set, no job can start and
    no fetch is issued; then the timer resumes the queue, and the
    attempt that starts first takes the flag and is the probe.  The
    configured concurrency is put back by a probe that receives a 200,
    and by nothing else: any other step of the run leaves the
    concurrency as it is or pauses a running queue with concurrency 1.
    A probe that fails into the [catch] block (transport failure, any
    status other than 200, 429, 403 and 451, or a 403 or 451 with a
    mirror left) sets the probe flag again and does not put the
    concurrency back: it leaves it as it was, or at 1 if the quota
    header of the response pauses a running queue. *)
Theorem C2_soft_rate_limit :
  cooldown = 60000 ∧
  (∀ cfg limit existing items t0 ins0 s k a resp,
     run cfg ins0 (bulkDownload cfg limit existing items t0) = Some s →
     pending s !! k = Some (a, AwaitFetch) →
     noRateLimit (currentMirror a) = false → status resp = 429 →
     isProbeRequest a && limitCheckDue s = false →
     isPaused s = false →
     ∃ s',
       step cfg (FetchSettles k (FetchResponse resp)) s = Some s' ∧
       isPaused s' = true ∧ concurrency s' = 1 ∧ testRequest s' = true ∧
       timers s' = [clock s + cooldown] ∧
       queue s' = queue s ++ [RetrySame (beatMapSet a) (options a)] ∧
       (∀ ins s2,
          run cfg ins s' = Some s2 → clock s2 < clock s + cooldown →
          isPaused s2 = true ∧ testRequest s2 = true ∧
          fetches s2 = fetches s' ∧ step cfg Start s2 = None) ∧
       (∃ s3, run cfg waitOutCooldown s' = Some s3 ∧
              isPaused s3 = false ∧ testRequest s3 = true ∧
              concurrency s3 = 1)) ∧
  (∀ cfg limit existing items t0 ins0 s k a v,
     run cfg ins0 (bulkDownload cfg limit existing items t0) = Some s →
     pending s !! k = Some (a, AwaitRateStatus) →
     isPaused s = false →
     ∃ s',
       step cfg (RateStatusSettles k (RateStatus v)) s = Some s' ∧
       isPaused s' = true ∧ concurrency s' = 1 ∧ testRequest s' = true ∧
       timers s' = [clock s + cooldown] ∧
       queue s' = queue s ++ [RetrySame (beatMapSet a) (options a)] ∧
       (∀ ins s2,
          run cfg ins s' = Some s2 → clock s2 < clock s + cooldown →
          isPaused s2 = true ∧ testRequest s2 = true ∧
          fetches s2 = fetches s' ∧ step cfg Start s2 = None) ∧
       (∃ s3, run cfg waitOutCooldown s' = Some s3 ∧
              isPaused s3 = false ∧ testRequest s3 = true ∧
              concurrency s3 = 1)) ∧
  (∀ cfg t b opts s s' a,
     downloadFile_begin cfg t b opts s = (s', InFlight a) →
     isProbeRequest a = testRequest s ∧ testRequest s' = false) ∧
  (∀ cfg a resp s,
     isProbeRequest a = true → status resp = 200 →
     concurrency (downloadFile_response cfg a (FetchResponse resp) s).1
     = configuredConcurrency cfg) ∧
  (∀ cfg i s s',
     step cfg i s = Some s' →
     (∃ k a resp,
        i = FetchSettles k (FetchResponse resp) ∧
        pending s !! k = Some (a, AwaitFetch) ∧
        isProbeRequest a = true ∧ status resp = 200 ∧
        concurrency s' = configuredConcurrency cfg) ∨
     concurrency s' = concurrency s ∨
     (isPaused s = false ∧ isPaused s' = true ∧ concurrency s' = 1)) ∧
  (∀ cfg a r s,
     isProbeRequest a = true →
     (r = FetchRejected ∨
      ∃ resp, r = FetchResponse resp ∧
              status resp ≠ 200 ∧ status resp ≠ 429 ∧
              (status resp = 403 ∨ status resp = 451 → nextMirrors a ≠ [])) →
     let s' := (downloadFile_response cfg a r s).1 in
     testRequest s' = true ∧
     (concurrency s' = concurrency s ∨
      isPaused s = false ∧ isPaused s' = true ∧ concurrency s' = 1)).
Proof.
  assert (∀ cfg k a s s1,
            timers_inv s → isPaused s = false →
            isPaused s1 = true → concurrency s1 = 1 → testRequest s1 = true →
            timers s1 = timers s ++ [clock s + cooldown] →
            queue s1 = queue s ++ [RetrySame (beatMapSet a) (options a)] →
            clock (settle k a (s1, Done false)) = clock s →
            let s' := settle k a (s1, Done false) in
            isPaused s' = true ∧ concurrency s' = 1 ∧ testRequest s' = true ∧
            timers s' = [clock s + cooldown] ∧
            queue s' = queue s ++ [RetrySame (beatMapSet a) (options a)] ∧
            (∀ ins s2,
               run cfg ins s' = Some s2 → clock s2 < clock s + cooldown →
               isPaused s2 = true ∧ testRequest s2 = true ∧
               fetches s2 = fetches s' ∧ step cfg Start s2 = None) ∧
            (∃ s3, run cfg waitOutCooldown s' = Some s3 ∧
                   isPaused s3 = false ∧ testRequest s3 = true ∧
                   concurrency s3 = 1)) as Hsignal.
  { intros cfg k a s s1 Hinv Hrun Hp Hc Hprobe Htm Hq Hclk s'.
    rewrite (timers_inv_running s Hinv Hrun) in Htm. simpl in Htm.
    destruct (settle_controls k a (s1, Done false))
      as (Hsc & Hsp & Hst' & Hstm & _ & Hsq).
    cbn [fst] in Hsc, Hsp, Hst', Hstm, Hsq. fold s' in Hsc, Hsp, Hst', Hstm, Hsq, Hclk.
    assert (cooling (clock s + cooldown) s') as Hcool.
    { split; [congruence|]. split; congruence. }
    destruct (cooling_course cfg _ _ Hcool ltac:(lia)) as [Hstay Hres].
    split; [congruence|]. split; [congruence|]. split; [congruence|].
    split; [congruence|]. split; [congruence|]. split; [done|].
    destruct Hres as (s3 & ? & ? & ? & ?). exists s3.
    split; [done|]. split; [done|]. split; [done|]. congruence. }
  split; [reflexivity|].
  split; [|split; [|split; [|split; [|split]]]].
  - intros cfg limit existing items t0 ins0 s k a resp
      Hreach Hk Hclass Hst Hnocheck Hrun.
    pose proof (run_timers_inv _ _ _ _ Hreach
                  (bulkDownload_timers_inv cfg limit existing items t0))
      as Hinv.
    destruct (throttled_429_signal cfg a resp s Hclass Hst Hnocheck Hrun)
      as (s1 & Hres & Hp & Hc & Hprobe & Htm & Hq & _).
    assert (step cfg (FetchSettles k (FetchResponse resp)) s
            = Some (settle k a (s1, Done false))) as Hstep.
    { unfold step. by rewrite Hk, Hres. }
    exists (settle k a (s1, Done false)). split; [done|].
    apply (Hsignal cfg k a s s1); try done.
    by apply step_settles in Hstep as [].
  - intros cfg limit existing items t0 ins0 s k a v Hreach Hk Hrun.
    pose proof (run_timers_inv _ _ _ _ Hreach
                  (bulkDownload_timers_inv cfg limit existing items t0))
      as Hinv.
    destruct (rateStatus_signal a v s Hrun)
      as (s1 & Hres & Hp & Hc & Hprobe & Htm & Hq).
    assert (step cfg (RateStatusSettles k (RateStatus v)) s
            = Some (settle k a (s1, Done false))) as Hstep.
    { unfold step. by rewrite Hk, Hres. }
    exists (settle k a (s1, Done false)). split; [done|].
    apply (Hsignal cfg k a s s1); try done.
    by apply step_settles in Hstep as [].
  - intros cfg t b opts s s' a Hb.
    by apply downloadFile_begin_inv in Hb as (_&_&_&_&_&_&_&_&_&_&_&_&_&_&?&?&_).
  - intros cfg a resp s Hprobe H200. by apply probe_200_restores.
  - intros cfg i s s' Hstep.
    destruct (step_concurrency cfg i s s' Hstep)
      as [?|[[? _]|[?|[_ ?]]]]; auto.
  - intros cfg a r s Hprobe Hr s'. subst s'. split.
    + destruct Hr as [->|(resp & -> & H200 & H429 & Hnext)].
      * by apply probe_rearmed.
      * destruct (Z.eq_dec (status resp) 403) as [H403|H403];
          [|destruct (Z.eq_dec (status resp) 451) as [H451|H451]].
        -- rewrite refused_with_mirror_left by auto. by apply probe_rearmed.
        -- rewrite refused_with_mirror_left by auto. by apply probe_rearmed.
        -- rewrite other_status_is_caught by done. by apply probe_rearmed.
    + destruct (downloadFile_response_concurrency cfg a r s)
        as [(resp & -> & H200 & _)|[[? _]|?]]; auto.
      destruct Hr as [?|(? & [= <-] & ? & _)]; done.
Qed.

(** The scenario in which a failing probe finds the configured
    concurrency already back: the first probe is answered 200 with a
    body of 10 bytes, which restores the concurrency and then fails on
    the size check; the next request is a probe again and is answered
    500. *)
Example failing_probe_after_restore :
  let cfg := demo_config Catboy in
  ∃ s',
    run cfg ([Start; FetchSettles 0 (tooManyRequests "50")] ++ waitOutCooldown
             ++ [Start; FetchSettles 0 (demo_response 200 None 10);
                 FlushSettles 0; Start;
                 FetchSettles 0 (demo_response 500 None 0)])
      (bulkDownload cfg None None [demo_item 1] 0) = Some s' ∧
    concurrency s' = 5 ∧ testRequest s' = true.
Proof. cbv zeta. eexists. split; [vm_compute; reflexivity|]. by vm_compute. Qed.

(** ** The chain of a retry *)































(** The manager itself does not stop when it has emitted ["blocked"]:
    it is the process that ends there.  A manager that is kept going
    can find every mirror left over for an item banned.  Two items are
    under way on Catboy; item 2 is refused with a 403 by every mirror in
    turn and ends as blocked, which leaves all six mirrors banned.  Item
    1 then receives its 403 from Catboy: it is announced as
    ["retrying"] and queued with the chain its attempt had left over,
    and when that retry starts it ends in the per-item ["error"] "All
    mirrors are banned", without a fetch. *)
Example retry_after_blocked :
  let cfg := demo_config Catboy in
  let refused := demo_response 403 None 0 in
  ∃ s a s1 s2,
    run cfg
      [Start; Start;
       FetchSettles 1 refused; Start; FetchSettles 1 refused; Start;
       FetchSettles 1 refused; Start; FetchSettles 1 refused; Start;
       FetchSettles 1 refused; Start; FetchSettles 1 refused]
      (bulkDownload cfg None None [demo_item 1; demo_item 2] 0) = Some s ∧
    pending s = [(a, AwaitFetch)] ∧ beatMapSet a = demo_item 1 ∧
    currentMirror a = Catboy ∧
    nextMirrors a = [Nerinyan; OsuDirect; Sayobot; Beatconnect; Nekoha] ∧
    last (events s) = Some (blocked [demo_item 1; demo_item 2]) ∧
    dropBanned (bannedMirrors s) (nextMirrors a) = [] ∧
    step cfg (FetchSettles 0 refused) s = Some s1 ∧
    events s1 = events s ++ [retrying (demo_item 1)] ∧
    queue s1 = [RetryNext (demo_item 1) (nextMirrors a)] ∧
    step cfg Start s1 = Some s2 ∧
    events s2 = events s1 ++ [error (demo_item 1) AllMirrorsAreBanned;
                              ended [demo_item 1; demo_item 2]] ∧
    fetches s2 = fetches s ∧
    queue s2 = [] ∧ pending s2 = [].
Proof.
  cbv zeta. eexists _, _, _, _.
  split; [vm_compute; reflexivity|]. split; [vm_compute; reflexivity|].
  split; [vm_compute; reflexivity|]. split; [vm_compute; reflexivity|].
  split; [vm_compute; reflexivity|]. split; [vm_compute; reflexivity|].
  split; [vm_compute; reflexivity|]. split; [vm_compute; reflexivity|].
  split; [vm_compute; reflexivity|]. split; [vm_compute; reflexivity|].
  split; [vm_compute; reflexivity|]. split; [vm_compute; reflexivity|].
  split; [vm_compute; reflexivity|]. split; vm_compute; reflexivity.
Qed.

(** ** The general statements at concrete inputs *)


Lemma C2_soft_rate_limit_witness :
  ∃ s s',
    run (demo_config Catboy) [Start]
      (bulkDownload (demo_config Catboy) None None [demo_item 1] 0) = Some s ∧
    step (demo_config Catboy) (FetchSettles 0 (tooManyRequests "50")) s
    = Some s' ∧
    isPaused s' = true ∧ concurrency s' = 1 ∧ testRequest s' = true ∧
    timers s' = [cooldown].
Proof.
  destruct C2_soft_rate_limit as (_ & Hsignal & _).
  edestruct (Hsignal (demo_config Catboy) None None [demo_item 1] 0 [Start])
    with (k := 0%nat)
         (resp := {| status := 429; x_ratelimit_remaining := Some "50";
                     fileName := None; body := None |})
    as (s' & Hstep & Hp & Hc & Ht & Htm & _).
  - vm_compute. reflexivity.
  - vm_compute. reflexivity.
  - reflexivity.
  - reflexivity.
  - reflexivity.
  - reflexivity.
  - eexists _, s'. split; [vm_compute; reflexivity|].
    split; [exact Hstep|]. split; [exact Hp|]. split; [exact Hc|].
    split; [exact Ht | exact Htm].
Defined.


Lemma C4_daily_allowance_witness :
  ∃ s',
    downloadFile_begin (demo_config Catboy) (Submitted (demo_item 6))
      (demo_item 6) None
      (bulkDownload (demo_config Catboy) (Some 0) None [demo_item 6] 0)
    = (s', Returned false) ∧
    fetches s' = [] ∧
    events s' = [dailyRateLimited [demo_item 6]].
Proof.
  destruct C4_daily_allowance as (_ & Hexhausted & _).
  destruct (Hexhausted (demo_config Catboy) (Submitted (demo_item 6))
              (demo_item 6) None
              (bulkDownload (demo_config Catboy) (Some 0) None [demo_item 6] 0)
              0 eq_refl ltac:(lia))
    as (s' & Hb & Hf & _ & _ & _ & Hev).
  exists s'. split; [exact Hb|]. split; [exact Hf|].
  apply Hev. vm_compute. discriminate.
Defined.


Lemma C7_low_quota_signal_witness :
  ∃ s s',
    run (demo_config Catboy) [Start]
      (bulkDownload (demo_config Catboy) None None [demo_item 1] 0) = Some s ∧
    step (demo_config Catboy) (FetchSettles 0 (demo_response 200 (Some "5") 2000))
      s = Some s' ∧
    isPaused s' = true ∧ concurrency s' = 1 ∧ timers s' = [cooldown].
Proof.
  destruct C7_low_quota_signal as (_ & Hsignal & _).
  edestruct (Hsignal (demo_config Catboy) None None [demo_item 1] 0 [Start])
    with (k := 0%nat)
         (resp := {| status := 200; x_ratelimit_remaining := Some "5";
                     fileName := Some "1 artist - title.osz";
                     body := Some {| chunks := [2000%N]; streamOk := true |} |})
         (x := "5"%string) (v := 5)
    as (s' & Hstep & Hp & Hrunning & _).
  - vm_compute. reflexivity.
  - vm_compute. reflexivity.
  - reflexivity.
  - reflexivity.
  - reflexivity.
  - lia.
  - destruct (Hrunning eq_refl) as (_ & _ & Hc & Htm & _).
    eexists _, s'. split; [vm_compute; reflexivity|].
    split; [exact Hstep|]. split; [exact Hp|].
    split; [exact Hc | exact Htm].
Defined.

(** ** The books of a run *)

Lemma downloadFile_response_ledger cfg a r s :
  settled_ledger a s (downloadFile_response cfg a r s).1
    (downloadFile_response cfg a r s).2.
Proof.
  unfold downloadFile_response.
  destruct s; unfold_manager; simpl.
  repeat case_match; simpl; unfold settled_ledger, downloads, skips; simpl;
    rewrite ?omap_app; simpl; rewrite ?app_nil_r; split_and!; eauto.
Qed.

Lemma downloadFile_rateStatus_ledger a r s :
  settled_ledger a s (downloadFile_rateStatus a r s).1
    (downloadFile_rateStatus a r s).2.
Proof.
  unfold downloadFile_rateStatus.
  destruct s; unfold_manager; simpl.
  repeat case_match; simpl; unfold settled_ledger, downloads, skips; simpl;
    rewrite ?omap_app; simpl; rewrite ?app_nil_r; split_and!; eauto.
Qed.

Lemma downloadFile_flush_ledger a f bd s :
  settled_ledger a s (downloadFile_flush a f bd s).1
    (downloadFile_flush a f bd s).2.
Proof.
  unfold downloadFile_flush.
  destruct s; unfold_manager; simpl.
  repeat case_match; simpl; unfold settled_ledger, downloads, skips; simpl;
    rewrite ?omap_app; simpl; rewrite ?app_nil_r; split_and!; eauto.
Qed.

Lemma queue_next_books s : same_books s (queue_next s).
Proof.
  unfold queue_next, same_books, downloads, skips.
  destruct s; unfold_manager; simpl.
  repeat case_match; simpl; rewrite ?omap_app; simpl; rewrite ?app_nil_r; done.
Qed.

Lemma job_return_books t ok s : same_books s (job_return t ok s).
Proof. by destruct t, ok, s. Qed.

Lemma downloadFile_begin_books cfg t b opts s :
  same_books s (downloadFile_begin cfg t b opts s).1.
Proof.
  unfold downloadFile_begin, same_books, downloads, skips.
  destruct s; unfold_manager; simpl.
  repeat case_match; simpl; rewrite ?omap_app; simpl; rewrite ?app_nil_r; done.
Qed.

Lemma same_books_trans s1 s2 s3 :
  same_books s1 s2 → same_books s2 s3 → same_books s1 s3.
Proof. unfold same_books. intros (?&?&?&?&?&?) (?&?&?&?&?&?). split_and!; congruence. Qed.

Lemma accounts_refl s : accounts s s.
Proof. split; try done; lia. Qed.

Lemma accounts_trans s1 s2 s3 : accounts s1 s2 → accounts s2 s3 → accounts s1 s3.
Proof.
  intros [] []. split; try (etrans; eassumption); lia.
Qed.

Lemma same_books_accounts s s' : same_books s s' → accounts s s'.
Proof.
  intros (Hq & Hp & Hd & Hs & Hn & Hk).
  split; unfold ledger, queued, inFlight; rewrite ?Hq, ?Hp, ?Hd, ?Hs; try done; lia.
Qed.

Lemma launch_books cfg t b opts s :
  let s' := launch cfg t b opts s in
  queue s' = queue s ∧ downloads s' = downloads s ∧ skips s' = skips s ∧
  downloadedBeatMapSetSize s' = downloadedBeatMapSetSize s ∧
  skippedBeatMapSetSize s' = skippedBeatMapSetSize s ∧
  (pending s' = pending s ∨
   ∃ a, pending s' = pending s ++ [(a, AwaitFetch)] ∧
        beatMapSet a = b ∧ job a = t).
Proof.
  cbv zeta. unfold launch.
  pose proof (downloadFile_begin_books cfg t b opts s) as Hb.
  destruct (downloadFile_begin cfg t b opts s) as [s1 r] eqn:Hbegin.
  apply downloadFile_begin_inv in Hbegin
    as (_ & _ & _ & _ & _ & _ & _ & _ & _ & Hr).
  cbn [fst] in Hb. destruct r as [ok|a].
  - pose proof (same_books_trans _ _ _ Hb
      (same_books_trans _ _ _ (job_return_books t ok s1)
         (queue_next_books _))) as (?&?&?&?&?&?).
    split_and!; auto.
  - destruct Hr as (_ & _ & ? & ? & _).
    destruct Hb as (?&?&?&?&?&?). destruct s1; simpl in *.
    split_and!; try done. right. exists a. split_and!; congruence.
Qed.

Lemma settle_accounts k a w s res :
  pending s !! k = Some (a, w) →
  settled_ledger a s res.1 res.2 →
  accounts s (settle k a res).
Proof.
  intros Hk. destruct res as [s1 o]. cbn [fst snd settle].
  intros (Hp & Hs & _ & Hn & Ho).
  assert (inFlight s !! k = Some (beatMapSet a)) as Hk'.
  { unfold inFlight. by rewrite list_lookup_fmap, Hk. }
  destruct o as [ok|w'].
  - set (s2 := set_pending (delete k (pending s1)) s1).
    pose proof (same_books_trans _ _ _ (job_return_books (job a) ok s2)
                  (queue_next_books _)) as (Hq3 & Hp3 & Hd3 & Hs3 & Hn3 & Hk3).
    assert (queue s2 = queue s1 ∧ pending s2 = delete k (pending s) ∧
            downloads s2 = downloads s1 ∧ skips s2 = skips s ∧
            downloadedBeatMapSetSize s2 = downloadedBeatMapSetSize s1 ∧
            skippedBeatMapSetSize s2 = skippedBeatMapSetSize s)
      as (Hq2 & Hp2 & Hd2 & Hs2 & Hn2 & Hk2).
    { rewrite <- Hp, <- Hs, <- Hn. by destruct s1. }
    pose proof (delete_Permutation _ _ _ Hk') as Hperm.
    assert (inFlight (queue_next (job_return (job a) ok s2))
            = delete k (inFlight s)) as Hfl.
    { unfold inFlight. by rewrite Hp3, Hp2, list_fmap_delete. }
    split; unfold ledger, queued; rewrite ?Hfl, ?Hq3, ?Hd3, ?Hs3, ?Hn3, ?Hk3,
      ?Hq2, ?Hd2, ?Hs2, ?Hn2, ?Hk2; try done; try lia.
    + rewrite Hperm at 2.
      destruct ok.
      * destruct Ho as (-> & -> & _). rewrite ?fmap_app. simpl.
        apply Permutation_submseteq. solve_Permutation.
      * destruct Ho as (-> & _ & [->|(t & -> & Ht)]).
        -- solve_submseteq.
        -- rewrite fmap_app. simpl. rewrite Ht.
           apply Permutation_submseteq. solve_Permutation.
    + destruct ok; [destruct Ho as (_ & -> & _)|destruct Ho as (-> & _)];
        [by apply prefix_app_r|done].
    + destruct ok; [destruct Ho as (_ & -> & ->)|destruct Ho as (-> & -> & _)];
        rewrite ?length_app; simpl; lia.
  - destruct Ho as (Hd & Hq & Hn').
    assert (inFlight (set_pending (<[k:=(a, w')]> (pending s1)) s1) = inFlight s)
      as Hfl.
    { unfold inFlight. destruct s1; simpl in *. subst.
      rewrite list_fmap_insert. simpl. by apply list_insert_id. }
    split; unfold ledger, queued; rewrite ?Hfl;
      destruct s1; unfold downloads, skips in *; simpl in *; subst;
      rewrite ?Hd, ?Hs; try done; lia.
Qed.

Lemma step_accounts cfg i s s' : step cfg i s = Some s' → accounts s s'.
Proof.
  intros Hstep. destruct i.
  - unfold step in Hstep. destruct (queue s) as [|t rest] eqn:Hq; [done|].
    case_match; [|done]. injection Hstep as <-.
    assert (∀ b opts, itemOf t = b →
      accounts s (launch cfg t b opts (set_queue rest s))) as Hlaunch.
    { intros b opts Hb.
      destruct (launch_books cfg t b opts (set_queue rest s))
        as (Hq' & Hd & Hs & Hn & Hk & Hp).
      assert (queue (set_queue rest s) = rest) as Hq0 by by destruct s.
      assert (pending (set_queue rest s) = pending s) as Hp0 by by destruct s.
      assert (downloads (set_queue rest s) = downloads s) as Hd0 by by destruct s.
      assert (skips (set_queue rest s) = skips s) as Hs0 by by destruct s.
      assert (downloadedBeatMapSetSize (set_queue rest s) = downloadedBeatMapSetSize s) as Hn0 by by destruct s.
      assert (skippedBeatMapSetSize (set_queue rest s) = skippedBeatMapSetSize s) as Hk0 by by destruct s.
      split; rewrite ?Hd, ?Hs, ?Hd0, ?Hs0; try done; try lia.
      unfold ledger, queued, inFlight. rewrite Hq', Hq0, Hd, Hs, Hd0, Hs0, Hq.
      destruct Hp as [->|(a & -> & Ha & _)]; rewrite Hp0.
      + rewrite fmap_cons. simpl. by apply submseteq_cons.
      + rewrite fmap_cons, ?fmap_app. simpl. rewrite Ha, Hb.
        apply Permutation_submseteq. solve_Permutation. }
    destruct t as [b|b opts|b l]; simpl; [|by apply Hlaunch..].
    case_match; [|by apply Hlaunch].
    pose proof (queue_next_books (skipExisting b (set_queue rest s)))
      as (Hq' & Hp' & Hd & Hs & Hn & Hk).
    assert (queue (skipExisting b (set_queue rest s)) = rest ∧
            pending (skipExisting b (set_queue rest s)) = pending s ∧
            downloads (skipExisting b (set_queue rest s)) = downloads s ∧
            skips (skipExisting b (set_queue rest s)) = skips s ++ [b] ∧
            downloadedBeatMapSetSize (skipExisting b (set_queue rest s))
            = downloadedBeatMapSetSize s + 1 ∧
            skippedBeatMapSetSize (skipExisting b (set_queue rest s))
            = skippedBeatMapSetSize s + 1) as (Hq0 & Hp0 & Hd0 & Hs0 & Hn0 & Hk0).
    { destruct s; unfold downloads, skips; simpl.
      rewrite !omap_app; simpl. by rewrite app_nil_r. }
    split; unfold ledger, queued, inFlight;
      rewrite ?Hq', ?Hp', ?Hd, ?Hs, ?Hn, ?Hk, ?Hq0, ?Hp0, ?Hd0, ?Hs0, ?Hn0, ?Hk0, ?Hq;
      rewrite ?fmap_app, ?length_app; simpl; try done; try lia.
    + apply Permutation_submseteq. solve_Permutation.
    + by apply prefix_app_r.
  - unfold step in Hstep.
    destruct (pending s !! k) as [[a w]|] eqn:Hk; [|done].
    destruct w; try done. injection Hstep as <-.
    eapply settle_accounts; [done|]. apply downloadFile_response_ledger.
  - unfold step in Hstep.
    destruct (pending s !! k) as [[a w]|] eqn:Hk; [|done].
    destruct w; try done. injection Hstep as <-.
    eapply settle_accounts; [done|]. apply downloadFile_rateStatus_ledger.
  - unfold step in Hstep.
    destruct (pending s !! k) as [[a w]|] eqn:Hk; [|done].
    destruct w; try done. injection Hstep as <-.
    eapply settle_accounts; [done|]. apply downloadFile_flush_ledger.
  - apply step_Elapse in Hstep as [_ ->]. apply same_books_accounts. by destruct s.
  - apply step_TimerFires in Hstep as (? & ? & _ & _ & ->).
    apply same_books_accounts. by destruct s.
Qed.

Lemma run_accounts cfg ins s s' : run cfg ins s = Some s' → accounts s s'.
Proof.
  revert s. induction ins as [|i ins IH]; intros s.
  - intros [= <-]. apply accounts_refl.
  - intros (s1 & Hstep & Hrun)%run_cons.
    eapply accounts_trans; [by eapply step_accounts|by apply IH].
Qed.

Lemma runTask_pending cfg t s :
  pending (runTask cfg t s) = pending s ∨
  ∃ a, pending (runTask cfg t s) = pending s ++ [(a, AwaitFetch)] ∧
       beatMapSet a = itemOf t ∧ job a = t.
Proof.
  destruct t as [b|b opts|b l]; simpl.
  - case_match.
    + left. by rewrite queue_next_pending, skipExisting_pending.
    + by destruct (launch_books cfg (Submitted b) b None s) as (_&_&_&_&_&?).
  - by destruct (launch_books cfg (RetrySame b opts) b opts s) as (_&_&_&_&_&?).
  - by destruct (launch_books cfg (RetryNext b l) b (Some l) s) as (_&_&_&_&_&?).
Qed.

Lemma settle_pending k a res :
  pending (settle k a res) = delete k (pending res.1) ∨
  ∃ w, pending (settle k a res) = <[k:=(a, w)]> (pending res.1).
Proof.
  destruct res as [s1 [ok|w]]; cbn [settle fst].
  - left. rewrite queue_next_pending, job_return_pending. by destruct s1.
  - right. exists w. by destruct s1.
Qed.

(** What one turn of the event loop does to the attempts under way. *)
Lemma step_pending cfg i s s' :
  step cfg i s = Some s' →
  (isPaused s = false ∧ Z.of_nat (length (pending s)) < concurrency s ∧
   ∃ a, pending s' = pending s ++ [(a, AwaitFetch)] ∧
        itemOf (job a) = beatMapSet a) ∨
  (∃ k, is_Some (pending s !! k) ∧ pending s' = delete k (pending s)) ∨
  (∃ k a w w', pending s !! k = Some (a, w) ∧
               pending s' = <[k:=(a, w')]> (pending s)) ∨
  pending s' = pending s.
Proof.
  assert (∀ k a w res, pending s !! k = Some (a, w) →
            pending res.1 = pending s → s' = settle k a res →
            (∃ k, is_Some (pending s !! k) ∧ pending s' = delete k (pending s)) ∨
            (∃ k a w w', pending s !! k = Some (a, w) ∧
                         pending s' = <[k:=(a, w')]> (pending s)) ∨
            pending s' = pending s) as Hsettle.
  { intros k a w res Hk Hp ->.
    destruct (settle_pending k a res) as [->|[w' ->]]; rewrite Hp.
    - left. exists k. by rewrite Hk.
    - right; left. by exists k, a, w, w'. }
  intros Hstep. destruct i.
  - unfold step in Hstep. destruct (queue s) as [|t rest] eqn:Hq; [done|].
    destruct (isPaused s) eqn:Hpaused; [done|]. simpl in Hstep.
    destruct (_ <? _) eqn:Hlt; [|done]. injection Hstep as <-.
    apply Z.ltb_lt in Hlt.
    destruct (runTask_pending cfg t (set_queue rest s)) as [->|(a & -> & Hb & Hj)].
    + right; right; right. by destruct s.
    + left. split_and!; [done..|]. exists a. split; [by destruct s|congruence].
  - unfold step in Hstep.
    destruct (pending s !! k) as [[a w]|] eqn:Hk; [|done].
    destruct w; try done. injection Hstep as <-. right.
    eapply Hsettle; [done| |done]. apply downloadFile_response_ledger.
  - unfold step in Hstep.
    destruct (pending s !! k) as [[a w]|] eqn:Hk; [|done].
    destruct w; try done. injection Hstep as <-. right.
    eapply Hsettle; [done| |done]. apply downloadFile_rateStatus_ledger.
  - unfold step in Hstep.
    destruct (pending s !! k) as [[a w]|] eqn:Hk; [|done].
    destruct w; try done. injection Hstep as <-. right.
    eapply Hsettle; [done| |done]. apply downloadFile_flush_ledger.
  - apply step_Elapse in Hstep as [_ ->]. right; right; right. by destruct s.
  - apply step_TimerFires in Hstep as (? & ? & _ & _ & ->).
    right; right; right. by destruct s.
Qed.

Lemma step_attempts_wf cfg i s s' :
  step cfg i s = Some s' → attempts_wf s → attempts_wf s'.
Proof.
  unfold attempts_wf.
  intros [(_ & _ & a & -> & Ha)|[(k & _ & ->)|[(k & a & w & w' & Hk & ->)| ->]]]%step_pending Hwf.
  - apply Forall_app. split; [done|]. by apply Forall_singleton.
  - by apply Forall_delete.
  - apply Forall_insert; [done|].
    by apply (Forall_lookup_1 _ _ _ _ Hwf Hk).
  - done.
Qed.

Lemma step_within_limit cfg i s s' :
  step cfg i s = Some s' → within_limit cfg s → within_limit cfg s'.
Proof.
  intros Hstep [Hc Hn]. split.
  - destruct (step_concurrency _ _ _ _ Hstep)
      as [(?&?&?&_&_&_&_&?)|[[? _]|[(_&_&?)|[_ ?]]]]; auto; congruence.
  - destruct (step_pending _ _ _ _ Hstep)
      as [(_ & Hlt & a & -> & _)|[(k & Hk & ->)|[(k & a & w & w' & Hk & ->)| ->]]].
    + rewrite length_app. simpl. lia.
    + rewrite length_delete by done. lia.
    + by rewrite length_insert.
    + done.
Qed.

Lemma queue_next_items s : beatMapSets (queue_next s) = beatMapSets s.
Proof.
  unfold queue_next. destruct s; unfold_manager; simpl.
  repeat case_match; done.
Qed.

Lemma launch_items cfg t b opts s :
  beatMapSets (launch cfg t b opts s) = beatMapSets s.
Proof.
  unfold launch.
  destruct (downloadFile_begin cfg t b opts s) as [s1 r] eqn:Hbegin.
  apply downloadFile_begin_inv in Hbegin
    as (_ & _ & _ & _ & _ & _ & _ & Hi & _ & Hr).
  destruct r as [ok|a]; [|by destruct s1].
  destruct Hr as [-> _]. rewrite queue_next_items. by destruct t, s1.
Qed.

Lemma runTask_items cfg t s : reports_removal s (runTask cfg t s).
Proof.
  assert (∀ b opts, reports_removal s (launch cfg t b opts s)) as Hlaunch.
  { intros b opts. left. split; [apply launch_items|].
    by destruct (launch_books cfg t b opts s) as (_ & _ & ? & _). }
  destruct t as [b|b opts|b l]; simpl; [|apply Hlaunch..].
  case_match; [|apply Hlaunch].
  right. exists b. rewrite queue_next_items.
  destruct (queue_next_books (skipExisting b s)) as (_ & _ & _ & -> & _).
  split; [by destruct s|]. right.
  destruct s; unfold skips; simpl. rewrite omap_app. done.
Qed.

Lemma settle_items k a s res :
  itemOf (job a) = beatMapSet a →
  settled_ledger a s res.1 res.2 →
  reports_removal s (settle k a res).
Proof.
  intros Hwf. destruct res as [s1 o]. cbn [fst snd settle].
  intros (Hp & Hs & Hi & Hn & Ho).
  destruct o as [ok|w]; [|left; by destruct s1; simpl in *].
  set (s2 := set_pending (delete k (pending s1)) s1).
  destruct (queue_next_books (job_return (job a) ok s2)) as (_ & _ & Hd3 & Hs3 & _).
  destruct (job_return_books (job a) ok s2) as (_ & _ & Hd2 & Hs2 & _).
  assert (downloads s2 = downloads s1 ∧ skips s2 = skips s ∧
          beatMapSets s2 = beatMapSets s) as (Hd1 & Hs1 & Hi1).
  { rewrite <- Hs, <- Hi. by destruct s1. }
  unfold reports_removal. rewrite queue_next_items.
  destruct ok.
  - destruct Ho as (_ & Hd & _).
    destruct (job a) as [b|b opts|b l] eqn:Hjob; simpl in Hwf; subst b.
    + right. exists (beatMapSet a). split; [by destruct s1; simpl in *; subst|].
      left. split; congruence.
    + left. split; [done|congruence].
    + right. exists (beatMapSet a). split; [by destruct s1; simpl in *; subst|].
      left. split; congruence.
  - left. split; [by destruct (job a)|congruence].
Qed.

Lemma step_items cfg i s s' :
  step cfg i s = Some s' → attempts_wf s → reports_removal s s'.
Proof.
  intros Hstep Hwf.
  assert (∀ k a w, pending s !! k = Some (a, w) →
            itemOf (job a) = beatMapSet a) as Hin.
  { intros k a w Hk. apply (Forall_lookup_1 _ _ _ _ Hwf Hk). }
  destruct i.
  - unfold step in Hstep. destruct (queue s) as [|t rest] eqn:Hq; [done|].
    case_match; [|done]. injection Hstep as <-.
    destruct (runTask_items cfg t (set_queue rest s)) as [[? ?]|(b & ? & ?)];
      [left|right; exists b]; by destruct s.
  - unfold step in Hstep.
    destruct (pending s !! k) as [[a w]|] eqn:Hk; [|done].
    destruct w; try done. injection Hstep as <-.
    apply settle_items; [by eapply Hin|]. apply downloadFile_response_ledger.
  - unfold step in Hstep.
    destruct (pending s !! k) as [[a w]|] eqn:Hk; [|done].
    destruct w; try done. injection Hstep as <-.
    apply settle_items; [by eapply Hin|]. apply downloadFile_rateStatus_ledger.
  - unfold step in Hstep.
    destruct (pending s !! k) as [[a w]|] eqn:Hk; [|done].
    destruct w; try done. injection Hstep as <-.
    apply settle_items; [by eapply Hin|]. apply downloadFile_flush_ledger.
  - apply step_Elapse in Hstep as [_ ->]. left. by destruct s.
  - apply step_TimerFires in Hstep as (? & ? & _ & _ & ->). left. by destruct s.
Qed.

Lemma step_collection_inv cfg items i s s' :
  step cfg i s = Some s' → collection_inv items s → collection_inv items s'.
Proof.
  intros Hstep (Hwf & Hsub & Hgone & Hskip).
  pose proof (step_accounts _ _ _ _ Hstep) as [_ Hd Hs _ _].
  split; [by eapply step_attempts_wf|].
  destruct (step_items _ _ _ _ Hstep Hwf) as [[Hi Hs']|(b & Hi & Hrep)].
  - rewrite Hi, Hs'. split_and!; [done| |done].
    intros b0 Hb0 Hn0. destruct (Hgone b0 Hb0 Hn0) as (b' & ? & [?|?]).
    + exists b'. split; [done|]. left. by eapply elem_of_prefix. 
    + exists b'. split; [done|]. by right.
  - rewrite Hi. split_and!.
    + etrans; [apply sublist_filter|done].
    + intros b0 Hb0 Hn0.
      destruct (decide (b0 ∈ beatMapSets s)) as [Hin|Hout].
      * exists b. split.
        { destruct (decide (BeatMapSet.id b = BeatMapSet.id b0)) as [|Hne];
            [done|]. exfalso. apply Hn0. unfold Map_delete.
          rewrite list_elem_of_filter. split; [congruence|done]. }
        destruct Hrep as [[-> _]| ->]; [left|right];
          apply elem_of_app; right; by apply list_elem_of_singleton.
      * destruct (Hgone b0 Hb0 Hout) as (b' & ? & [?|?]); exists b';
          (split; [done|]); [left|right]; by eapply elem_of_prefix.
    + intros b0 b' Hb0 Hb'. unfold Map_delete in Hb'.
      apply list_elem_of_filter in Hb' as [Hne Hb'].
      destruct Hrep as [[_ Heq]|Heq]; rewrite Heq in Hb0.
      * by apply Hskip.
      * apply elem_of_app in Hb0 as [?|Hb0]; [by apply Hskip|].
        apply list_elem_of_singleton in Hb0 as ->. done.
Qed.

Lemma resolveMirrors_length preferred banned opts :
  (length (resolveMirrors preferred banned opts)
   ≤ match opts with Some l => length l | None => length Mirror_values end)%nat.
Proof.
  destruct opts as [l|]; simpl; [apply length_filter|].
  unfold firstAttemptMirrors.
  assert (length (getFallbackMirrors preferred) = 5%nat) as Hfb
    by by destruct preferred.
  pose proof (length_filter (λ m, m ∉ banned) (getFallbackMirrors preferred)).
  unfold dropBanned. case_decide; simpl; lia.
Qed.

Lemma downloadFile_response_budget cfg a r s :
  is429 (FetchSettles 0 r) = false →
  settled_budget a s (downloadFile_response cfg a r s).1
    (downloadFile_response cfg a r s).2.
Proof.
  unfold is429, downloadFile_response, settled_budget.
  destruct r as [|resp]; [|intros ->];
    destruct s; unfold_manager; simpl;
    repeat case_match; simpl; split; auto; done.
Qed.

Lemma downloadFile_flush_budget a f bd s :
  settled_budget a s (downloadFile_flush a f bd s).1
    (downloadFile_flush a f bd s).2.
Proof.
  unfold downloadFile_flush, settled_budget.
  destruct s; unfold_manager; simpl;
    repeat case_match; simpl; split; auto; done.
Qed.

Lemma launch_budget cfg t b opts s :
  let s' := launch cfg t b opts s in
  queue s' = queue s ∧
  ((pending s' = pending s ∧ fetches s' = fetches s) ∨
   ∃ a, pending s' = pending s ++ [(a, AwaitFetch)] ∧
        length (fetches s') = S (length (fetches s)) ∧
        (S (length (nextMirrors a))
         ≤ match opts with Some l => length l | None => length Mirror_values end)%nat).
Proof.
  cbv zeta. destruct (launch_books cfg t b opts s) as (Hq & _). split; [done|].
  unfold launch.
  destruct (downloadFile_begin cfg t b opts s) as [s1 r] eqn:Hbegin.
  apply downloadFile_begin_inv in Hbegin
    as (_ & _ & _ & _ & _ & _ & Hp & _ & _ & Hr).
  destruct r as [ok|a].
  - left. destruct Hr as [_ Hf].
    rewrite queue_next_pending, job_return_pending.
    destruct (same_controls_trans _ _ _ (job_return_controls t ok s1)
                (queue_next_controls _)) as (_&_&_&_&_&Hf'&_).
    split; congruence.
  - right. exists a. destruct Hr as (Hf & Hchain & _).
    pose proof (resolveMirrors_length (Config.mirror cfg) (bannedMirrors s) opts)
      as Hlen.
    rewrite Hchain in Hlen. simpl in Hlen.
    split_and!; [by destruct s1; simpl in *; subst| |done].
    replace (fetches (set_pending (pending s1 ++ [(a, AwaitFetch)]) s1))
      with (fetches s1) by by destruct s1.
    rewrite Hf, length_app. simpl. lia.
Qed.

Lemma settle_budget k a w s res :
  pending s !! k = Some (a, w) →
  settled_ledger a s res.1 res.2 →
  settled_budget a s res.1 res.2 →
  no_rate_wait s →
  no_rate_wait (settle k a res) ∧
  (fetchBudget (settle k a res) ≤ fetchBudget s)%nat.
Proof.
  intros Hk (Hp & _ & _ & _ & Hl) [Ho Hq] Hwait.
  destruct (settle_controls k a res) as (_&_&_&_&_&Hq').
  unfold no_rate_wait, fetchBudget. rewrite Hq'.
  destruct res as [s1 [ok|w']]; cbn [settle fst snd] in *.
  - rewrite queue_next_pending, job_return_pending.
    replace (pending (set_pending (delete k (pending s1)) s1))
      with (delete k (pending s)) by (rewrite <- Hp; by destruct s1).
    split; [by apply Forall_delete|].
    rewrite (delete_Permutation _ _ _ Hk) at 2. simpl.
    destruct Hq as [->| ->]; rewrite ?sum_list_with_app; simpl; lia.
  - replace (pending (set_pending (<[k:=(a, w')]> (pending s1)) s1))
      with (<[k:=(a, w')]> (pending s)) by (rewrite <- Hp; by destruct s1).
    split; [apply Forall_insert; [done|simpl; congruence]|].
    destruct Hl as (_ & -> & _).
    rewrite insert_take_drop by by eapply lookup_lt_Some.
    rewrite <- (take_drop_middle _ _ _ Hk) at 3.
    rewrite !sum_list_with_app. simpl. lia.
Qed.

Lemma step_budget cfg i s s' :
  is429 i = false → no_rate_wait s → step cfg i s = Some s' →
  no_rate_wait s' ∧
  (length (fetches s') + fetchBudget s' ≤ length (fetches s) + fetchBudget s)%nat.
Proof.
  intros H429 Hwait Hstep. destruct i.
  - unfold step in Hstep. destruct (queue s) as [|t rest] eqn:Hq; [done|].
    case_match; [|done]. injection Hstep as <-.
    assert (∀ b opts,
      match opts with Some l => length l | None => length Mirror_values end
      = chainBound t →
      no_rate_wait (launch cfg t b opts (set_queue rest s)) ∧
      (length (fetches (launch cfg t b opts (set_queue rest s)))
       + fetchBudget (launch cfg t b opts (set_queue rest s))
       ≤ length (fetches s) + fetchBudget s)%nat) as Hlaunch.
    { intros b opts Hbound.
      destruct (launch_budget cfg t b opts (set_queue rest s))
        as (Hq' & [[Hp Hf]|(a & Hp & Hf & Hlen)]);
        unfold no_rate_wait, fetchBudget; rewrite Hq', Hp, Hf, Hq;
        replace (queue (set_queue rest s)) with rest by (by destruct s);
        replace (pending (set_queue rest s)) with (pending s) by (by destruct s);
        replace (fetches (set_queue rest s)) with (fetches s) by (by destruct s).
      - split; [done|]. simpl. lia.
      - split; [apply Forall_app; split; [done|by apply Forall_singleton]|].
        rewrite sum_list_with_app. simpl. lia. }
    destruct t as [b|b opts|b l]; simpl; [|by apply Hlaunch..].
    case_match; [|by apply Hlaunch].
    unfold no_rate_wait, fetchBudget.
    rewrite queue_next_pending, skipExisting_pending.
    destruct (queue_next_books (skipExisting b (set_queue rest s))) as (-> & _).
    destruct (same_controls_trans _ _ _
                (skipExisting_controls b (set_queue rest s))
                (queue_next_controls _)) as (_&_&_&_&_&->&_).
    rewrite Hq.
    replace (queue (skipExisting b (set_queue rest s))) with rest by (by destruct s).
    replace (pending (set_queue rest s)) with (pending s) by (by destruct s).
    replace (fetches (set_queue rest s)) with (fetches s) by (by destruct s).
    split; [done|]. simpl. lia.
  - pose proof (step_settles _ _ _ _ Hstep) as [_ _ _ _ Hf _ _].
    unfold step in Hstep.
    destruct (pending s !! k) as [[a w]|] eqn:Hk; [|done].
    destruct w; try done. injection Hstep as <-.
    rewrite Hf.
    destruct (settle_budget k a AwaitFetch s (downloadFile_response cfg a r s));
      [done| | |done|split; [done|lia]].
    + apply downloadFile_response_ledger.
    + by apply downloadFile_response_budget.
  - unfold step in Hstep.
    destruct (pending s !! k) as [[a w]|] eqn:Hk; [|done].
    destruct w; try done.
    by apply (Forall_lookup_1 _ _ _ _ Hwait) in Hk.
  - pose proof (step_settles _ _ _ _ Hstep) as [_ _ _ _ Hf _ _].
    unfold step in Hstep.
    destruct (pending s !! k) as [[a w]|] eqn:Hk; [|done].
    destruct w; try done. injection Hstep as <-.
    rewrite Hf.
    destruct (settle_budget k a (AwaitFlush filePath b) s
                (downloadFile_flush a filePath b s));
      [done| | |done|split; [done|lia]].
    + apply downloadFile_flush_ledger.
    + by apply downloadFile_flush_budget.
  - apply step_Elapse in Hstep as [_ ->]. by destruct s.
  - apply step_TimerFires in Hstep as (? & ? & _ & _ & ->). by destruct s.
Qed.

Lemma run_budget cfg ins s s' :
  forallb (λ i, negb (is429 i)) ins = true → no_rate_wait s →
  run cfg ins s = Some s' →
  (length (fetches s') + fetchBudget s' ≤ length (fetches s) + fetchBudget s)%nat.
Proof.
  revert s. induction ins as [|i ins IH]; intros s.
  - intros _ _ [= <-]. done.
  - simpl. intros [Hi Hins]%andb_true_iff Hwait.
    destruct (step cfg i s) as [s1|] eqn:Hstep; [|done]. intros Hrun.
    apply negb_true_iff in Hi.
    destruct (step_budget _ _ _ _ Hi Hwait Hstep) as [Hwait1 Hle].
    specialize (IH s1 Hins Hwait1 Hrun). lia.
Qed.

Lemma downloadFile_response_limit cfg a r s :
  settled_limit s (downloadFile_response cfg a r s).1
    (downloadFile_response cfg a r s).2.
Proof.
  unfold downloadFile_response, settled_limit.
  destruct s; unfold_manager; simpl. repeat case_match; simpl; done.
Qed.

Lemma downloadFile_rateStatus_limit a s :
  settled_limit s (downloadFile_rateStatus a RateRejected s).1
    (downloadFile_rateStatus a RateRejected s).2.
Proof.
  unfold downloadFile_rateStatus, settled_limit.
  destruct s; unfold_manager; simpl. repeat case_match; simpl; done.
Qed.

Lemma downloadFile_flush_limit a f bd s :
  settled_limit s (downloadFile_flush a f bd s).1
    (downloadFile_flush a f bd s).2.
Proof.
  unfold downloadFile_flush, settled_limit.
  destruct s; unfold_manager; simpl. repeat case_match; simplify_eq/=; done.
Qed.

Lemma settle_downloads k a res : downloads (settle k a res) = downloads res.1.
Proof.
  destruct res as [s1 [ok|w]]; cbn [settle fst]; [|by destruct s1].
  destruct (same_books_trans _ _ _
    (job_return_books (job a) ok (set_pending (delete k (pending s1)) s1))
    (queue_next_books _)) as (_ & _ & -> & _).
  by destruct s1.
Qed.

Lemma settle_allowance k a s res :
  settled_ledger a s res.1 res.2 → settled_limit s res.1 res.2 →
  allowanceSpent (settle k a res) = allowanceSpent s.
Proof.
  intros (_ & _ & _ & _ & Hl) Hlim. unfold allowanceSpent.
  destruct (settle_controls k a res) as (_&_&_&_&->&_).
  rewrite settle_downloads.
  destruct res as [s1 [[]|w]]; cbn [fst snd settled_limit] in *.
  - destruct Hl as (_ & -> & _). rewrite Hlim, length_app. simpl.
    destruct (remainingDownloadsLimit s); simpl; [f_equal; lia|done].
  - destruct Hl as (-> & _). by rewrite Hlim.
  - destruct Hl as (-> & _). by rewrite Hlim.
Qed.

Lemma runTask_limit cfg t s :
  remainingDownloadsLimit (runTask cfg t s) = remainingDownloadsLimit s.
Proof.
  assert (∀ s, remainingDownloadsLimit (queue_next s)
               = remainingDownloadsLimit s) as Hnext.
  { intros s0. unfold queue_next. destruct s0; unfold_manager; simpl.
    repeat case_match; done. }
  assert (∀ b opts, remainingDownloadsLimit (launch cfg t b opts s)
                    = remainingDownloadsLimit s) as Hlaunch.
  { intros b opts. unfold launch.
    destruct (downloadFile_begin cfg t b opts s) as [s1 r] eqn:Hbegin.
    apply downloadFile_begin_inv in Hbegin
      as (_ & _ & _ & _ & _ & _ & _ & _ & <- & _).
    destruct r as [ok|a]; [|by destruct s1].
    rewrite Hnext. by destruct t, ok, s1. }
  destruct t as [b|b opts|b l]; simpl; [|apply Hlaunch..].
  case_match; [|apply Hlaunch]. rewrite Hnext. by destruct s.
Qed.

Lemma step_allowance cfg i s s' :
  isRateAnswer i = false → step cfg i s = Some s' →
  allowanceSpent s' = allowanceSpent s.
Proof.
  intros Hi Hstep. destruct i.
  - pose proof (step_accounts _ _ _ _ Hstep) as Hacc.
    unfold step in Hstep. destruct (queue s) as [|t rest] eqn:Hq; [done|].
    case_match; [|done]. injection Hstep as <-.
    unfold allowanceSpent. rewrite runTask_limit.
    replace (remainingDownloadsLimit (set_queue rest s))
      with (remainingDownloadsLimit s) by (by destruct s).
    enough (downloads (runTask cfg t (set_queue rest s)) = downloads s)
      as -> by done.
    destruct t as [b|b opts|b l]; simpl.
    + case_match.
      * destruct (queue_next_books (skipExisting b (set_queue rest s)))
          as (_ & _ & -> & _).
        destruct s; unfold downloads; simpl. by rewrite omap_app, app_nil_r.
      * destruct (launch_books cfg (Submitted b) b None (set_queue rest s))
          as (_ & -> & _). by destruct s.
    + destruct (launch_books cfg (RetrySame b opts) b opts (set_queue rest s))
        as (_ & -> & _). by destruct s.
    + destruct (launch_books cfg (RetryNext b l) b (Some l) (set_queue rest s))
        as (_ & -> & _). by destruct s.
  - unfold step in Hstep.
    destruct (pending s !! k) as [[a w]|] eqn:Hk; [|done].
    destruct w; try done. injection Hstep as <-.
    apply settle_allowance;
      [apply downloadFile_response_ledger|apply downloadFile_response_limit].
  - unfold step in Hstep.
    destruct (pending s !! k) as [[a w]|] eqn:Hk; [|done].
    destruct w; try done. injection Hstep as <-.
    destruct r; [|done].
    apply settle_allowance;
      [apply downloadFile_rateStatus_ledger|apply downloadFile_rateStatus_limit].
  - unfold step in Hstep.
    destruct (pending s !! k) as [[a w]|] eqn:Hk; [|done].
    destruct w; try done. injection Hstep as <-.
    apply settle_allowance;
      [apply downloadFile_flush_ledger|apply downloadFile_flush_limit].
  - apply step_Elapse in Hstep as [_ ->]. by destruct s.
  - apply step_TimerFires in Hstep as (? & ? & _ & _ & ->). by destruct s.
Qed.

(** ** What a run does with the items it was given *)

Lemma run_ledger cfg ins s s' : run cfg ins s = Some s' → ledger s' ⊆+ ledger s.
Proof. by intros []%run_accounts. Qed.

Lemma bulkDownload_ledger cfg limit existing items t0 :
  ledger (bulkDownload cfg limit existing items t0) = items.
Proof.
  unfold ledger, queued, inFlight, downloads, skips. simpl.
  rewrite !app_nil_r, <- list_fmap_compose. apply list_fmap_id.
Qed.

(** X1. In every state of a run over a collection with distinct ids, the
    jobs waiting in the queue, the attempts under way and the items
    reported by ["downloaded"] and ["skipped"] are, taken together, items
    of the collection without repetition: no item is attempted by two
    calls at once, none is both queued and under way, and none is reported
    twice or retried after it was reported. *)
Theorem run_no_item_twice cfg limit existing items t0 ins s :
  NoDup (BeatMapSet.id <$> items) →
  run cfg ins (bulkDownload cfg limit existing items t0) = Some s →
  ledger s ⊆+ items ∧ NoDup (BeatMapSet.id <$> ledger s).
Proof.
  intros Hnd Hrun. apply run_ledger in Hrun.
  rewrite bulkDownload_ledger in Hrun. split; [done|].
  apply (fmap_submseteq BeatMapSet.id) in Hrun.
  apply submseteq_Permutation in Hrun as [k Hk]. rewrite Hk in Hnd.
  by apply NoDup_app in Hnd as [? _].
Qed.

Lemma run_no_item_twice_witness :
  ledger demo_end ⊆+ demo_collection ∧ NoDup (BeatMapSet.id <$> ledger demo_end).
Proof.
  apply (run_no_item_twice (demo_config Catboy) (Some 10) (Some {[3]})
           demo_collection 0 demo_run).
  - apply (bool_decide_unpack _). vm_compute. reflexivity.
  - vm_compute. reflexivity.
Defined.

(** X2. In every state of a run the value of
    [getDownloadedBeatMapSetSize()] is the number of ["downloaded"] events
    plus the number of ["skipped"] events emitted so far, the value of
    [getSkippedBeatMapSetSize()] is the number of ["skipped"] events, and
    neither exceeds the number of items the run began with. *)
Theorem run_counters_match_reports cfg limit existing items t0 ins s :
  run cfg ins (bulkDownload cfg limit existing items t0) = Some s →
  getDownloadedBeatMapSetSize s
  = Z.of_nat (length (downloads s) + length (skips s)) ∧
  getSkippedBeatMapSetSize s = Z.of_nat (length (skips s)) ∧
  getSkippedBeatMapSetSize s ≤ getDownloadedBeatMapSetSize s
  ≤ Z.of_nat (length items).
Proof.
  intros Hrun. pose proof (run_accounts _ _ _ _ Hrun) as [Hl _ _ Hd Hs].
  rewrite bulkDownload_ledger in Hl. apply submseteq_length in Hl.
  unfold ledger in Hl. rewrite !length_app in Hl.
  unfold getDownloadedBeatMapSetSize, getSkippedBeatMapSetSize.
  unfold downloads, skips in Hd, Hs; simpl in Hd, Hs.
  unfold downloads, skips in *. lia.
Qed.

Lemma run_counters_match_reports_witness :
  getDownloadedBeatMapSetSize demo_end
  = Z.of_nat (length (downloads demo_end) + length (skips demo_end)) ∧
  getSkippedBeatMapSetSize demo_end = Z.of_nat (length (skips demo_end)) ∧
  getSkippedBeatMapSetSize demo_end ≤ getDownloadedBeatMapSetSize demo_end
  ≤ Z.of_nat (length demo_collection).
Proof.
  apply (run_counters_match_reports (demo_config Catboy) (Some 10)
           (Some {[3]}) demo_collection 0 demo_run).
  vm_compute. reflexivity.
Defined.

(** X3. In every state of a run the concurrency limit of the queue is 1
    or the configured value, the number of attempts under way is at most
    the larger of the two, and the queue is paused exactly while one
    cooldown timer is armed. *)
Theorem run_stays_within_limit cfg limit existing items t0 ins s :
  run cfg ins (bulkDownload cfg limit existing items t0) = Some s →
  (concurrency s = 1 ∨ concurrency s = configuredConcurrency cfg) ∧
  Z.of_nat (length (pending s)) ≤ Z.max 1 (configuredConcurrency cfg) ∧
  timers_inv s.
Proof.
  intros Hrun.
  enough (within_limit cfg s) as [? ?].
  { split_and!; [done..|]. by eapply run_timers_inv. }
  assert (within_limit cfg (bulkDownload cfg limit existing items t0)) as Hinit.
  { split; [by right|simpl; lia]. }
  revert Hrun Hinit. generalize (bulkDownload cfg limit existing items t0).
  induction ins as [|i ins IH]; intros s0.
  - by intros [= <-].
  - intros (s1 & Hstep & Hrun)%run_cons Hs0.
    eapply IH; [done|]. by eapply step_within_limit.
Qed.

Lemma run_stays_within_limit_witness :
  (concurrency demo_paused = 1 ∨
   concurrency demo_paused = configuredConcurrency (demo_config Catboy)) ∧
  Z.of_nat (length (pending demo_paused))
  ≤ Z.max 1 (configuredConcurrency (demo_config Catboy)) ∧
  timers_inv demo_paused.
Proof.
  apply (run_stays_within_limit (demo_config Catboy) (Some 10) (Some {[3]})
           demo_collection 0 demo_low_quota).
  vm_compute. reflexivity.
Defined.

Lemma run_collection_inv cfg limit existing items t0 ins s :
  run cfg ins (bulkDownload cfg limit existing items t0) = Some s →
  collection_inv items s.
Proof.
  assert (collection_inv items (bulkDownload cfg limit existing items t0))
    as Hinit.
  { split_and!; simpl.
    - by apply Forall_nil.
    - done.
    - intros b Hb Hn. done.
    - intros b b' Hb. by apply elem_of_nil in Hb. }
  revert Hinit. generalize (bulkDownload cfg limit existing items t0).
  induction ins as [|i ins IH]; intros s0 Hs0.
  - by intros [= <-].
  - intros (s1 & Hstep & Hrun)%run_cons.
    eapply IH; [|done]. by eapply step_collection_inv.
Qed.

(** X4. In every state of a run over a collection with distinct ids, the
    items [getNotDownloadedBeatapSets()] returns are items the run began
    with, in their original order; every item that is no longer among
    them has been reported by ["downloaded"] or by ["skipped"]; and no
    item reported by ["skipped"] is still among them. *)
Theorem run_removed_items_are_reported cfg limit existing items t0 ins s :
  NoDup (BeatMapSet.id <$> items) →
  run cfg ins (bulkDownload cfg limit existing items t0) = Some s →
  getNotDownloadedBeatapSets s `sublist_of` items ∧
  (∀ b, b ∈ items → b ∉ getNotDownloadedBeatapSets s →
        b ∈ downloads s ∨ b ∈ skips s) ∧
  (∀ b, b ∈ skips s → b ∉ getNotDownloadedBeatapSets s).
Proof.
  intros Hnd Hrun.
  assert (ledger s ⊆+ items) as Hl.
  { apply run_ledger in Hrun. by rewrite bulkDownload_ledger in Hrun. }
  destruct (run_collection_inv _ _ _ _ _ _ _ Hrun) as (_ & Hsub & Hgone & Hskip).
  unfold getNotDownloadedBeatapSets. split_and!; [done| |].
  - intros b Hb Hn. destruct (Hgone b Hb Hn) as (b' & Hid & Hrep).
    assert (b' ∈ items) as Hb'.
    { eapply elem_of_submseteq; [|done]. unfold ledger.
      rewrite !elem_of_app. tauto. }
    enough (b' = b) by by subst.
    clear -Hnd Hb Hb' Hid.
    induction items as [|x l IH]; [by apply elem_of_nil in Hb|].
    rewrite fmap_cons in Hnd. apply NoDup_cons in Hnd as [Hx Hnd].
    apply elem_of_cons in Hb as [->|Hb], Hb' as [->|Hb']; auto.
    + exfalso. apply Hx. rewrite <- Hid. by apply list_elem_of_fmap_2.
    + exfalso. apply Hx. rewrite Hid. by apply list_elem_of_fmap_2.
  - intros b Hb Hin. by apply (Hskip b b Hb Hin).
Qed.

Lemma run_removed_items_are_reported_witness :
  getNotDownloadedBeatapSets demo_started `sublist_of` demo_collection ∧
  (∀ b, b ∈ demo_collection → b ∉ getNotDownloadedBeatapSets demo_started →
        b ∈ downloads demo_started ∨ b ∈ skips demo_started) ∧
  (∀ b, b ∈ skips demo_started → b ∉ getNotDownloadedBeatapSets demo_started).
Proof.
  apply (run_removed_items_are_reported (demo_config Catboy) (Some 10)
           (Some {[3]}) demo_collection 0 [Start; Start; Start]).
  - apply (bool_decide_unpack _). vm_compute. reflexivity.
  - vm_compute. reflexivity.
Defined.

Lemma bulkDownload_budget cfg limit existing items t0 :
  fetchBudget (bulkDownload cfg limit existing items t0)
  = (length Mirror_values * length items)%nat.
Proof.
  unfold fetchBudget. simpl.
  replace (length Mirror_values) with 6%nat by done.
  induction items as [|b l IH]; [done|].
  rewrite fmap_cons. cbn [sum_list_with chainBound length] in *.
  replace (length Mirror_values) with 6%nat by done. lia.
Qed.

Lemma resolveMirrors_NoDup preferred banned opts :
  match opts with Some l => NoDup l | None => True end →
  NoDup (resolveMirrors preferred banned opts).
Proof.
  destruct opts as [l|]; simpl.
  - intros Hl. by apply NoDup_filter.
  - intros _. apply firstAttemptMirrors_NoDup.
Qed.

Lemma resolveMirrors_subseteq preferred banned opts m :
  m ∈ resolveMirrors preferred banned opts →
  match opts with Some l => m ∈ l | None => m ∈ Mirror_values end.
Proof.
  destruct opts as [l|]; simpl.
  - unfold dropBanned. rewrite list_elem_of_filter. tauto.
  - intros _. apply Mirror_values_complete.
Qed.

(** What a call of [_downloadFile] does to the queue, the attempts under
    way and the fetches. *)
Lemma launch_fetches cfg t b opts s :
  let s' := launch cfg t b opts s in
  queue s' = queue s ∧
  ((pending s' = pending s ∧ fetches s' = fetches s) ∨
   ∃ a, pending s' = pending s ++ [(a, AwaitFetch)] ∧ beatMapSet a = b ∧
        fetches s' = fetches s ++ [(BeatMapSet.id b, currentMirror a)] ∧
        resolveMirrors (Config.mirror cfg) (bannedMirrors s) opts
        = currentMirror a :: nextMirrors a).
Proof.
  cbv zeta. destruct (launch_books cfg t b opts s) as (Hq & _). split; [done|].
  unfold launch.
  destruct (downloadFile_begin cfg t b opts s) as [s1 r] eqn:Hbegin.
  apply downloadFile_begin_inv in Hbegin
    as (_ & _ & _ & _ & _ & _ & Hp & _ & _ & Hr).
  destruct r as [ok|a].
  - left. destruct Hr as [_ Hf].
    rewrite queue_next_pending, job_return_pending.
    destruct (same_controls_trans _ _ _ (job_return_controls t ok s1)
                (queue_next_controls _)) as (_&_&_&_&_&Hf'&_).
    split; congruence.
  - right. exists a. destruct Hr as (Hf & Hchain & _ & Hb & _).
    split_and!; [by destruct s1; simpl in *; subst|done| |done].
    replace (fetches (set_pending (pending s1 ++ [(a, AwaitFetch)]) s1))
      with (fetches s1) by by destruct s1.
    done.
Qed.

(** What a settled await does to the queue and to the attempts under
    way when the answer is not a 429. *)
Lemma settle_shape k a w s res :
  pending s !! k = Some (a, w) →
  settled_ledger a s res.1 res.2 →
  settled_budget a s res.1 res.2 →
  (queue (settle k a res) = queue s ∨
   queue (settle k a res)
   = queue s ++ [RetryNext (beatMapSet a) (nextMirrors a)]) ∧
  (pending (settle k a res) = delete k (pending s) ∨
   ∃ w', w' ≠ AwaitRateStatus ∧
         pending (settle k a res) = <[k:=(a, w')]> (pending s)).
Proof.
  intros Hk (Hp & _) [Ho Hq].
  destruct (settle_controls k a res) as (_&_&_&_&_&Hq').
  rewrite Hq'. split; [done|].
  destruct res as [s1 [ok|w']]; cbn [settle fst snd] in *.
  - left. rewrite queue_next_pending, job_return_pending.
    rewrite <- Hp. by destruct s1.
  - right. exists w'. split; [congruence|]. rewrite <- Hp. by destruct s1.
Qed.

Lemma job_fresh_mono s s' t :
  fetches s' = fetches s → job_fresh s t → job_fresh s' t.
Proof. unfold job_fresh, unfetched. intros ->. done. Qed.

Lemma attempt_fresh_mono s s' p :
  fetches s' = fetches s → attempt_fresh s p → attempt_fresh s' p.
Proof. unfold attempt_fresh, unfetched. intros ->. done. Qed.

Lemma job_fresh_other s s' t k m :
  fetches s' = fetches s ++ [(k, m)] → BeatMapSet.id (itemOf t) ≠ k →
  job_fresh s t → job_fresh s' t.
Proof.
  unfold job_fresh, unfetched. intros -> Hk.
  destruct t as [b|b o|b l]; simpl in *; [|done|].
  - intros H m' Hm'. rewrite elem_of_app, list_elem_of_singleton.
    intros [?|[= ? ?]]; [by eapply H|done].
  - intros [? H]. split; [done|]. intros m' Hm'.
    rewrite elem_of_app, list_elem_of_singleton.
    intros [?|[= ? ?]]; [by eapply H|done].
Qed.

Lemma attempt_fresh_other s s' p k m :
  fetches s' = fetches s ++ [(k, m)] → BeatMapSet.id (beatMapSet p.1) ≠ k →
  attempt_fresh s p → attempt_fresh s' p.
Proof.
  unfold attempt_fresh, unfetched. intros -> Hk [? H]. split; [done|].
  intros m' Hm'. rewrite elem_of_app, list_elem_of_singleton.
  intros [?|[= ? ?]]; [by eapply H|done].
Qed.

Lemma NoDup_ids_cons (b : BeatMapSet.t) (l : list BeatMapSet.t) (b' : BeatMapSet.t) :
  NoDup (BeatMapSet.id <$> b :: l) → b' ∈ l → BeatMapSet.id b' ≠ BeatMapSet.id b.
Proof.
  rewrite fmap_cons. intros [Hb _]%NoDup_cons Hb' Heq. apply Hb.
  rewrite <- Heq. by apply list_elem_of_fmap_2.
Qed.

Lemma step_fetch_inv cfg items i s s' :
  NoDup (BeatMapSet.id <$> items) →
  is429 i = false → step cfg i s = Some s' →
  fetch_inv items s → fetch_inv items s'.
Proof.
  intros Hnd H429 Hstep (Hl & Hwait & Hf & Hids & Hq & Hp).
  assert (ledger s' ⊆+ items) as Hl'.
  { etrans; [|exact Hl]. by destruct (step_accounts _ _ _ _ Hstep). }
  destruct (step_budget _ _ _ _ H429 Hwait Hstep) as [Hwait' _].
  assert (NoDup (BeatMapSet.id <$> ledger s)) as Hndl.
  { pose proof (fmap_submseteq BeatMapSet.id _ _ Hl) as Hl2.
    apply submseteq_Permutation in Hl2 as [rest Hrest]. rewrite Hrest in Hnd.
    by apply NoDup_app in Hnd as [? _]. }
  split; [done|]. split; [done|].
  destruct i.
  - unfold step in Hstep. destruct (queue s) as [|t rest] eqn:Hqs; [done|].
    case_match; [|done]. injection Hstep as <-.
    apply Forall_cons in Hq as [Ht Hrest].
    set (s0 := set_queue rest s).
    assert (queue s0 = rest ∧ pending s0 = pending s ∧ fetches s0 = fetches s ∧
            bannedMirrors s0 = bannedMirrors s) as (Hq0 & Hp0 & Hf0 & Hb0)
      by by destruct s.
    assert (itemOf t ∈ items) as Hin.
    { eapply elem_of_submseteq; [|exact Hl]. unfold ledger, queued.
      rewrite Hqs, fmap_cons. apply elem_of_app. left. apply elem_of_cons. by left. }
    assert (∀ t', t' ∈ rest →
              BeatMapSet.id (itemOf t') ≠ BeatMapSet.id (itemOf t)) as Hother_q.
    { intros t' Ht'. unfold ledger, queued in Hndl. rewrite Hqs in Hndl.
      rewrite fmap_app in Hndl. apply NoDup_app in Hndl as (Hndl & _).
      rewrite <- list_fmap_compose, fmap_cons in Hndl.
      apply NoDup_cons in Hndl as [Hnot _]. intros Heq. apply Hnot.
      unfold compose at 1. rewrite <- Heq.
      by apply (list_elem_of_fmap_2 (BeatMapSet.id ∘ itemOf)). }
    assert (∀ p, p ∈ pending s →
              BeatMapSet.id (beatMapSet p.1) ≠ BeatMapSet.id (itemOf t))
      as Hother_p.
    { intros p Hp'. unfold ledger, queued, inFlight in Hndl. rewrite Hqs in Hndl.
      rewrite !fmap_app, fmap_cons in Hndl. simpl in Hndl.
      apply NoDup_cons in Hndl as [Hnot _]. intros Heq. apply Hnot.
      rewrite <- Heq, !elem_of_app. right. left.
      rewrite <- list_fmap_compose.
      by apply (list_elem_of_fmap_2 (λ p, BeatMapSet.id (beatMapSet p.1))). }
    assert (∀ opts,
      match opts with
      | Some l => NoDup l ∧ unfetched (BeatMapSet.id (itemOf t)) l s
      | None => unfetched (BeatMapSet.id (itemOf t)) Mirror_values s
      end →
      let s1 := launch cfg t (itemOf t) opts s0 in
      NoDup (fetches s1) ∧
      (∀ k m, (k, m) ∈ fetches s1 → k ∈ BeatMapSet.id <$> items) ∧
      Forall (job_fresh s1) (queue s1) ∧
      Forall (attempt_fresh s1) (pending s1)) as Hlaunch.
    { intros opts Hopts s1. subst s1.
      destruct (launch_fetches cfg t (itemOf t) opts s0)
        as (Hq1 & [[Hp1 Hf1]|(a & Hp1 & Ha & Hf1 & Hchain)]);
        rewrite Hq1, Hp1, Hf1, Hq0, Hp0, Hf0.
      - split; [done|]. split; [done|]. split.
        + eapply Forall_impl; [exact Hrest|]. intros t'.
          apply job_fresh_mono. by rewrite Hf1.
        + eapply Forall_impl; [exact Hp|]. intros p.
          apply attempt_fresh_mono. by rewrite Hf1.
      - rewrite Hb0 in Hchain.
        pose proof (resolveMirrors_NoDup (Config.mirror cfg) (bannedMirrors s) opts)
          as Hnd_chain.
        rewrite Hchain in Hnd_chain.
        assert (NoDup (currentMirror a :: nextMirrors a)) as Hnd_c.
        { apply Hnd_chain. destruct opts; [by destruct Hopts|done]. }
        apply NoDup_cons in Hnd_c as [Hcur Hnext].
        assert (∀ m, m ∈ currentMirror a :: nextMirrors a →
                  (BeatMapSet.id (itemOf t), m) ∉ fetches s) as Hfresh.
        { intros m Hm. rewrite <- Hchain in Hm.
          apply resolveMirrors_subseteq in Hm.
          destruct opts as [l|]; [destruct Hopts as [_ Hu]|]; by apply Hopts || apply Hu. }
        assert (fetches (launch cfg t (itemOf t) opts s0)
                = fetches s ++ [(BeatMapSet.id (itemOf t), currentMirror a)]) as Hf1'.
        { by rewrite Hf1, Hf0. }
        split; [|split; [|split]].
        + apply NoDup_app. split; [done|]. split; [|apply NoDup_singleton].
          intros x Hx ->%list_elem_of_singleton. revert Hx. apply Hfresh.
          apply elem_of_cons. by left.
        + intros k m. rewrite elem_of_app, list_elem_of_singleton.
          intros [?|[= -> _]]; [by eapply Hids|].
          by apply list_elem_of_fmap_2.
        + apply Forall_forall. intros t' Ht'.
          eapply job_fresh_other; [exact Hf1'|by apply Hother_q|].
          by apply (proj1 (Forall_forall _ _) Hrest).
        + apply Forall_app. split.
          * apply Forall_forall. intros p Hp'.
            eapply attempt_fresh_other; [exact Hf1'|by apply Hother_p|].
            by apply (proj1 (Forall_forall _ _) Hp).
          * apply Forall_singleton. split; [done|]. simpl. rewrite Ha.
            intros m Hm. rewrite Hf1', elem_of_app, list_elem_of_singleton.
            intros [Hin'|[= ->]]; [|done].
            revert Hin'. apply Hfresh. apply elem_of_cons. by right. }
    destruct t as [b|b opts|b l]; simpl in Ht; [|done|].
    + simpl. case_match; [|by apply (Hlaunch None)].
      rewrite queue_next_pending, skipExisting_pending.
      destruct (queue_next_books (skipExisting b s0)) as (Hq1 & _).
      destruct (same_controls_trans _ _ _ (skipExisting_controls b s0)
                  (queue_next_controls _)) as (_&_&_&_&_&Hf1&_).
      rewrite Hq1, Hf1, Hf0, Hp0.
      replace (queue (skipExisting b s0)) with rest by (by destruct s).
      split; [done|]. split; [done|]. split.
      * eapply Forall_impl; [exact Hrest|]. intros t'.
        apply job_fresh_mono. by rewrite Hf1.
      * eapply Forall_impl; [exact Hp|]. intros p.
        apply attempt_fresh_mono. by rewrite Hf1.
    + simpl. by apply (Hlaunch (Some l)).
  - pose proof (step_settles _ _ _ _ Hstep) as [_ _ _ _ Hfs _ _].
    unfold step in Hstep.
    destruct (pending s !! k) as [[a w]|] eqn:Hk; [|done].
    destruct w; try done. injection Hstep as <-.
    destruct (settle_shape k a AwaitFetch s (downloadFile_response cfg a r s) Hk)
      as [Hq' Hp'];
      [apply downloadFile_response_ledger|by apply downloadFile_response_budget|].
    pose proof (Forall_lookup_1 _ _ _ _ Hp Hk) as Ha.
    rewrite Hfs. split; [done|]. split; [done|]. split.
    + destruct Hq' as [->| ->]; [|apply Forall_app; split].
      * eapply Forall_impl; [exact Hq|]. intros t'. by apply job_fresh_mono.
      * eapply Forall_impl; [exact Hq|]. intros t'. by apply job_fresh_mono.
      * apply Forall_singleton. destruct Ha as [? Hu]. split; [done|].
        intros m Hm. rewrite Hfs. by apply Hu.
    + destruct Hp' as [->|(w' & _ & ->)].
      * apply Forall_delete. eapply Forall_impl; [exact Hp|].
        intros p. by apply attempt_fresh_mono.
      * apply Forall_insert.
        -- eapply Forall_impl; [exact Hp|]. intros p. by apply attempt_fresh_mono.
        -- by apply (attempt_fresh_mono s _ (a, AwaitFetch)).
  - unfold step in Hstep.
    destruct (pending s !! k) as [[a w]|] eqn:Hk; [|done].
    destruct w; try done.
    by apply (Forall_lookup_1 _ _ _ _ Hwait) in Hk.
  - pose proof (step_settles _ _ _ _ Hstep) as [_ _ _ _ Hfs _ _].
    unfold step in Hstep.
    destruct (pending s !! k) as [[a w]|] eqn:Hk; [|done].
    destruct w; try done. injection Hstep as <-.
    destruct (settle_shape k a (AwaitFlush filePath b) s
                (downloadFile_flush a filePath b s) Hk)
      as [Hq' Hp'];
      [apply downloadFile_flush_ledger|by apply downloadFile_flush_budget|].
    pose proof (Forall_lookup_1 _ _ _ _ Hp Hk) as Ha.
    rewrite Hfs. split; [done|]. split; [done|]. split.
    + destruct Hq' as [->| ->]; [|apply Forall_app; split].
      * eapply Forall_impl; [exact Hq|]. intros t'. by apply job_fresh_mono.
      * eapply Forall_impl; [exact Hq|]. intros t'. by apply job_fresh_mono.
      * apply Forall_singleton. destruct Ha as [? Hu]. split; [done|].
        intros m Hm. rewrite Hfs. by apply Hu.
    + destruct Hp' as [->|(w' & _ & ->)].
      * apply Forall_delete. eapply Forall_impl; [exact Hp|].
        intros p. by apply attempt_fresh_mono.
      * apply Forall_insert.
        -- eapply Forall_impl; [exact Hp|]. intros p. by apply attempt_fresh_mono.
        -- by apply (attempt_fresh_mono s _ (a, AwaitFlush filePath b)).
  - apply step_Elapse in Hstep as [_ ->]. by destruct s.
  - apply step_TimerFires in Hstep as (? & ? & _ & _ & ->). by destruct s.
Qed.

Lemma run_fetch_inv cfg items ins s s' :
  NoDup (BeatMapSet.id <$> items) →
  forallb (λ i, negb (is429 i)) ins = true →
  run cfg ins s = Some s' → fetch_inv items s → fetch_inv items s'.
Proof.
  intros Hnd. revert s. induction ins as [|i ins IH]; intros s.
  - by intros _ [= <-].
  - simpl. intros [Hi Hins]%andb_true_iff.
    destruct (step cfg i s) as [s1|] eqn:Hstep; [|done]. intros Hrun Hinv.
    apply negb_true_iff in Hi.
    eapply IH; [done..|]. by eapply step_fetch_inv.
Qed.

Lemma bulkDownload_fetch_inv cfg limit existing items t0 :
  fetch_inv items (bulkDownload cfg limit existing items t0).
Proof.
  split_and!.
  - by rewrite bulkDownload_ledger.
  - by apply Forall_nil.
  - apply NoDup_nil_2.
  - by intros k m ?%elem_of_nil.
  - simpl. apply Forall_fmap, Forall_forall. intros b _ m _.
    apply not_elem_of_nil.
  - by apply Forall_nil.
Qed.

(** The mirrors of the fetches made for one item are pairwise distinct
    when the fetches are. *)
Lemma fetches_of_item (k : Z) (l : list (Z * Mirror)) :
  NoDup l → (length (filter (λ f, f.1 = k) l) ≤ length Mirror_values)%nat.
Proof.
  intros Hnd. rewrite <- (length_fmap snd).
  apply submseteq_length, NoDup_submseteq.
  - apply NoDup_fmap_2_strong; [|by apply NoDup_filter].
    intros [k1 m1] [k2 m2] [H1 _]%list_elem_of_filter [H2 _]%list_elem_of_filter.
    simpl in *. congruence.
  - intros m _. apply Mirror_values_complete.
Qed.

(** X5. As long as no mirror answers 429, a run over a collection with
    distinct ids requests no archive twice from the same mirror: the
    fetches it records are pairwise distinct pairs of an item and a
    mirror, each for an item of the collection.  So at most six archives
    are fetched for any one item, one from each mirror of the registry,
    and at most six times the number of items in all. *)
Theorem run_fetches_bounded cfg limit existing items t0 ins s :
  NoDup (BeatMapSet.id <$> items) →
  forallb (λ i, negb (is429 i)) ins = true →
  run cfg ins (bulkDownload cfg limit existing items t0) = Some s →
  NoDup (fetches s) ∧
  (∀ k m, (k, m) ∈ fetches s → k ∈ BeatMapSet.id <$> items) ∧
  (∀ k, (length (filter (λ f, f.1 = k) (fetches s))
         ≤ length Mirror_values)%nat) ∧
  length Mirror_values = 6%nat ∧
  (length (fetches s) ≤ length Mirror_values * length items)%nat.
Proof.
  intros Hnd Hins Hrun.
  destruct (run_fetch_inv _ _ _ _ _ Hnd Hins Hrun
              (bulkDownload_fetch_inv cfg limit existing items t0))
    as (_ & _ & Hf & Hids & _).
  split; [done|]. split; [done|]. split; [|split; [done|]].
  - intros k. by apply fetches_of_item.
  - eapply run_budget in Hrun; [|done|by apply Forall_nil].
    rewrite bulkDownload_budget in Hrun. simpl in *. lia.
Qed.

Lemma run_fetches_bounded_witness :
  NoDup (fetches demo_end) ∧
  (∀ k m, (k, m) ∈ fetches demo_end → k ∈ BeatMapSet.id <$> demo_collection) ∧
  (∀ k, (length (filter (λ f, f.1 = k) (fetches demo_end))
         ≤ length Mirror_values)%nat) ∧
  length Mirror_values = 6%nat ∧
  (length (fetches demo_end) ≤ length Mirror_values * length demo_collection)%nat.
Proof.
  apply (run_fetches_bounded (demo_config Catboy) (Some 10) (Some {[3]})
           demo_collection 0 demo_run).
  - apply (bool_decide_unpack _). vm_compute. reflexivity.
  - vm_compute. reflexivity.
  - vm_compute. reflexivity.
Defined.

(** X6. As long as no allowance query is answered, the tracked allowance
    of every state of a run is the allowance the manager was built with
    minus the number of ["downloaded"] events emitted so far, and an
    untracked allowance stays untracked: skipped items, failed attempts
    and retries cost nothing. *)
Theorem run_allowance_counts_downloads cfg limit existing items t0 ins s :
  forallb (λ i, negb (isRateAnswer i)) ins = true →
  run cfg ins (bulkDownload cfg limit existing items t0) = Some s →
  remainingDownloadsLimit s
  = (λ n, n - Z.of_nat (length (downloads s))) <$> limit.
Proof.
  intros Hins Hrun.
  enough (allowanceSpent s = limit) as Hsp.
  { unfold allowanceSpent in Hsp. destruct (remainingDownloadsLimit s), limit;
      simplify_eq/=; [f_equal; lia|done]. }
  assert (allowanceSpent (bulkDownload cfg limit existing items t0) = limit)
    as Hinit.
  { unfold allowanceSpent. simpl. destruct limit; simpl; [f_equal; lia|done]. }
  revert Hins Hrun Hinit. generalize (bulkDownload cfg limit existing items t0).
  induction ins as [|i ins IH]; intros s0.
  - by intros _ [= <-].
  - simpl. intros [Hi Hins]%andb_true_iff.
    destruct (step cfg i s0) as [s1|] eqn:Hstep; [|done]. intros Hrun Hs0.
    apply negb_true_iff in Hi.
    eapply IH; [done..|]. by rewrite (step_allowance _ _ _ _ Hi Hstep).
Qed.

Lemma run_allowance_counts_downloads_witness :
  remainingDownloadsLimit demo_end
  = (λ n, n - Z.of_nat (length (downloads demo_end))) <$> Some 10.
Proof.
  apply (run_allowance_counts_downloads (demo_config Catboy) (Some 10)
           (Some {[3]}) demo_collection 0 demo_run).
  - vm_compute. reflexivity.
  - vm_compute. reflexivity.
Defined.

(** ** JavaScript strings *)

Lemma span_app p s : (span p s).1 ++ (span p s).2 = s.
Proof.
  induction s as [|c s IH]; [done|]. simpl.
  destruct (p c); [|done]. destruct (span p s). simpl in *. by rewrite IH.
Qed.

Lemma span_prefix p s : Forall (λ c, p c = true) (span p s).1.
Proof.
  induction s as [|c s IH]; simpl; [done|].
  destruct (p c) eqn:Hc; [|done]. destruct (span p s). simpl in *. by constructor.
Qed.

Lemma span_rest p s :
  match (span p s).2 with c :: _ => p c = false | [] => True end.
Proof.
  induction s as [|c s IH]; simpl; [done|].
  destruct (p c) eqn:Hc; [|done]. by destruct (span p s).
Qed.

Lemma span_all p s r :
  Forall (λ c, p c = true) s →
  match r with c :: _ => p c = false | [] => True end →
  span p (s ++ r) = (s, r).
Proof.
  intros Hs Hr. induction Hs as [|c s Hc _ IH]; simpl.
  - destruct r as [|c r]; [done|]. simpl. by rewrite Hr.
  - by rewrite Hc, IH.
Qed.

Lemma isWhiteSpace_not_digit c : isWhiteSpace c = true → isDigit c = false.
Proof.
  unfold isWhiteSpace, isDigit. intros H.
  apply andb_false_iff. rewrite !N.leb_gt.
  repeat (apply orb_true_iff in H as [H|H]);
    rewrite ?andb_true_iff, ?N.leb_le, ?N.eqb_eq in H; lia.
Qed.

Lemma isDigit_not_whiteSpace c : isDigit c = true → isWhiteSpace c = false.
Proof.
  intros Hd. destruct (isWhiteSpace c) eqn:Hw; [|done].
  apply isWhiteSpace_not_digit in Hw. congruence.
Qed.

Lemma digitsOf_digits fuel n : Forall (λ c, isDigit c = true) (digitsOf fuel n).
Proof.
  revert n. induction fuel as [|fuel IH]; intros n; cbn [digitsOf]; [done|].
  constructor.
  - unfold isDigit. pose proof (N.mod_upper_bound n 10 ltac:(lia)).
    apply andb_true_iff. rewrite !N.leb_le.
    generalize dependent (n `mod` 10)%N. intros; lia.
  - destruct (n <? 10)%N; [done|apply IH].
Qed.

Lemma digitsOf_value fuel n :
  (n < 10 ^ N.of_nat fuel)%N →
  foldr (λ c a, 10 * a + (Z.of_N c - 48)) 0 (digitsOf fuel n) = Z.of_N n.
Proof.
  revert n. induction fuel as [|fuel IH]; intros n Hn.
  - simpl in *. lia.
  - cbn [digitsOf foldr]. destruct (n <? 10)%N eqn:Hlt.
    + apply N.ltb_lt in Hlt. cbn [foldr]. rewrite N.mod_small by done. lia.
    + rewrite IH.
      * pose proof (N.div_mod n 10 ltac:(lia)) as Hdm.
        generalize dependent (n `mod` 10)%N.
        generalize dependent (n / 10)%N. intros; lia.
      * rewrite Nat2N.inj_succ, N.pow_succ_r' in Hn.
        apply N.Div0.div_lt_upper_bound. lia.
Qed.

Lemma digitsValue_reverse l :
  digitsValue (reverse l) = foldr (λ c a, 10 * a + (Z.of_N c - 48)) 0 l.
Proof.
  unfold digitsValue. induction l as [|c l IH]; [done|].
  rewrite reverse_cons, fold_left_app. simpl. by rewrite IH.
Qed.

Lemma decimal_spec n :
  Forall (λ c, isDigit c = true) (decimal n) ∧ decimal n ≠ [] ∧
  digitsValue (decimal n) = Z.of_N n.
Proof.
  unfold decimal. split_and!.
  - apply Forall_reverse, digitsOf_digits.
  - simpl. intros H%(f_equal length). rewrite length_reverse in H. done.
  - rewrite digitsValue_reverse, digitsOf_value; [lia|].
    destruct (N.eq_dec n 0%N) as [->|Hm]; [done|].
    destruct (N.log2_spec n) as [_ Hlt]; [lia|].
    eapply N.lt_le_trans; [exact Hlt|].
    rewrite Nat2N.inj_succ, N2Nat.id.
    apply N.pow_le_mono_l. lia.
Qed.

(** *** Numbers *)

(** An integer below 2^53 in absolute value is its own Number value, and
    the Number value of no other integer. *)
Lemma roundToNumber_safe (m : N) : (m < 2 ^ 53)%N → roundToNumber m = Some m.
Proof. intros Hm. unfold roundToNumber. by rewrite (proj2 (N.ltb_lt _ _) Hm). Qed.

(** A number of 54 bits or more is rounded to one of 54 bits or more. *)
Lemma roundToNumber_large (v m : N) :
  (2 ^ 53 ≤ v)%N → roundToNumber v = Some m → (2 ^ 53 ≤ m)%N.
Proof.
  intros Hv. unfold roundToNumber. rewrite (proj2 (N.ltb_ge _ _) Hv).
  cbv zeta. set (e := (N.log2 v - 52)%N).
  set (q' := if (_ || _)%bool then _ else _).
  destruct (N.shiftl q' e <? 2 ^ 1024)%N; [|done]. intros [= <-].
  assert (0 < v)%N as Hpos.
  { eapply N.lt_le_trans; [|exact Hv]. done. }
  assert (53 ≤ N.log2 v)%N as Hlog.
  { apply N.log2_le_pow2; [|done]. lia. }
  assert (2 ^ 52 ≤ N.shiftr v e)%N as Hq.
  { rewrite N.shiftr_div_pow2.
    apply N.div_le_lower_bound; [by apply N.pow_nonzero|].
    rewrite <- N.pow_add_r. replace (e + 52)%N with (N.log2 v) by lia.
    by apply N.log2_spec. }
  assert (N.shiftr v e ≤ q')%N as Hq'.
  { subst q'. case_match; [apply N.le_add_r|done]. }
  rewrite N.shiftl_mul_pow2.
  assert (2 ^ 1 ≤ 2 ^ e)%N as He by (apply N.pow_le_mono_r; lia).
  change (2 ^ 53)%N with (2 ^ 52 * 2 ^ 1)%N.
  apply N.mul_le_mono; [|done]. by etrans.
Qed.

Lemma roundToNumber_inv_safe (v m : N) :
  roundToNumber v = Some m → (m < 2 ^ 53)%N → v = m.
Proof.
  intros Hr Hm. destruct (N.lt_ge_cases v (2 ^ 53)) as [Hv|Hv].
  - rewrite roundToNumber_safe in Hr by done. congruence.
  - pose proof (roundToNumber_large v m Hv Hr). lia.
Qed.

Lemma shortest_spec j m :
  shortest j m = m ∨ roundToNumber (shortest j m) = Some m.
Proof.
  induction j as [|j IH]; cbn [shortest]; cbv zeta;
    repeat case_match; auto;
    repeat match goal with
    | H : _ && _ = true |- _ => apply andb_true_iff in H as [? ?]
    | H : bool_decide _ = true |- _ => apply bool_decide_eq_true in H
    end; auto.
Qed.

Lemma shortest_safe j m : (m < 2 ^ 53)%N → shortest j m = m.
Proof.
  intros Hm. destruct (shortest_spec j m) as [?|Hr]; [done|].
  by apply roundToNumber_inv_safe in Hr.
Qed.

Lemma printNumber_safe m : (m < 2 ^ 53)%N → printNumber m = decimal m.
Proof.
  intros Hm. unfold printNumber. cbv zeta. rewrite shortest_safe by done.
  rewrite (proj2 (N.ltb_lt m (10 ^ 21))); [done|].
  etrans; [exact Hm|]. by vm_compute.
Qed.

Lemma abs_N_safe z : Z.abs z < 2 ^ 53 → (Z.abs_N z < 2 ^ 53)%N.
Proof.
  intros Hz. apply N2Z.inj_lt. rewrite N2Z.inj_abs_N.
  by change (Z.of_N (2 ^ 53)) with (2 ^ 53).
Qed.

Lemma toNumber_safe z : Z.abs z < 2 ^ 53 → toNumber z = Some z.
Proof.
  intros Hz. unfold toNumber. rewrite roundToNumber_safe by by apply abs_N_safe.
  simpl. f_equal. lia.
Qed.

Lemma toNumber_inv_safe v z :
  toNumber v = Some z → Z.abs z < 2 ^ 53 → v = z.
Proof.
  unfold toNumber. destruct (roundToNumber (Z.abs_N v)) as [m|] eqn:Hr; [|done].
  simpl. intros [= <-] Hz.
  apply roundToNumber_inv_safe in Hr; [lia|].
  apply N2Z.inj_lt. change (Z.of_N (2 ^ 53)) with (2 ^ 53).
  rewrite Z.abs_mul in Hz.
  destruct (Z.eq_dec v 0) as [->|Hv].
  - vm_compute in Hr. injection Hr as <-. done.
  - assert (Z.abs (Z.sgn v) = 1) as H1 by lia.
    by rewrite H1, Z.mul_1_l, Z.abs_eq in Hz by lia.
Qed.

Lemma toString_safe z :
  Z.abs z < 2 ^ 53 →
  toString z = if z <? 0 then lit "-" ++ decimal (Z.abs_N z)
               else decimal (Z.abs_N z).
Proof.
  intros Hz. apply abs_N_safe in Hz. unfold toString.
  rewrite roundToNumber_safe by done.
  by rewrite printNumber_safe by done.
Qed.

Lemma toString_nonneg n :
  0 ≤ n < 2 ^ 53 →
  Forall (λ c, isDigit c = true) (toString n) ∧ toString n ≠ [] ∧
  digitsValue (toString n) = n.
Proof.
  intros Hn. rewrite toString_safe by lia.
  rewrite (proj2 (Z.ltb_ge _ _)) by lia.
  destruct (decimal_spec (Z.abs_N n)) as (? & ? & ->).
  split_and!; [done..|lia].
Qed.

Lemma parseDigits_digits s acc :
  Forall (λ c, isDigit c = true) s →
  parseDigits 10 s (Some acc)
  = Some (fold_left (λ a c, 10 * a + (Z.of_N c - 48)) s acc).
Proof.
  intros Hs. revert acc. induction Hs as [|c s Hc _ IH]; intros acc; [done|].
  cbn [parseDigits fold_left]. unfold digitValue, isDigit in *.
  apply andb_true_iff in Hc as [H1%N.leb_le H2%N.leb_le].
  replace ((48 <=? Z.of_N c) && (Z.of_N c <=? 57)) with true
    by (symmetry; apply andb_true_iff; rewrite !Z.leb_le; lia).
  replace (Z.of_N c - 48 <? 10) with true by (symmetry; apply Z.ltb_lt; lia).
  apply IH.
Qed.

(** On a string of digits, [parseInt] and unary plus agree. *)
Lemma parseInt_digits s :
  s ≠ [] → Forall (λ c, isDigit c = true) s →
  parseInt s = toNumber (digitsValue s).
Proof.
  intros Hne Hs. destruct s as [|c s]; [done|].
  apply Forall_cons in Hs as [Hc Hs].
  assert (isWhiteSpace c = false) as Hw by by apply isDigit_not_whiteSpace.
  assert ((c =? 45)%N = false ∧ (c =? 43)%N = false) as [H45 H43].
  { unfold isDigit in Hc. apply andb_true_iff in Hc as [?%N.leb_le ?%N.leb_le].
    split; apply N.eqb_neq; lia. }
  unfold parseInt. cbn [trimStart]. rewrite Hw, H45, H43.
  assert (parseDigits 10 (c :: s) None = Some (digitsValue (c :: s))) as Hd.
  { cbn [parseDigits]. unfold digitValue, isDigit in *.
    apply andb_true_iff in Hc as [H1%N.leb_le H2%N.leb_le].
    replace ((48 <=? Z.of_N c) && (Z.of_N c <=? 57)) with true
      by (symmetry; apply andb_true_iff; rewrite !Z.leb_le; lia).
    replace (Z.of_N c - 48 <? 10) with true by (symmetry; apply Z.ltb_lt; lia).
    rewrite parseDigits_digits by done. done. }
  destruct s as [|c2 s].
  - rewrite Hd. by rewrite Z.mul_1_l.
  - apply Forall_cons in Hs as [Hc2 Hs].
    assert (((c2 =? 120) || (c2 =? 88))%N = false) as ->.
    { unfold isDigit in Hc2.
      apply andb_true_iff in Hc2 as [?%N.leb_le ?%N.leb_le].
      apply orb_false_iff. split; apply N.eqb_neq; lia. }
    rewrite andb_false_r, Hd. by rewrite Z.mul_1_l.
Qed.

Lemma trimStart_suffix s : trimStart s `suffix_of` s.
Proof.
  induction s as [|c s IH]; simpl; [done|].
  destruct (isWhiteSpace c); [by apply suffix_cons_r|done].
Qed.

Lemma trim_Forall (P : N → Prop) s : Forall P s → Forall P (trim s).
Proof.
  intros Hs. unfold trim, trimEnd. apply Forall_reverse.
  destruct (trimStart_suffix (reverse (trimStart s))) as [k1 Hk1].
  destruct (trimStart_suffix s) as [k2 Hk2].
  assert (Forall P (reverse (trimStart s))) as H1.
  { apply Forall_reverse. rewrite Hk2 in Hs. by apply Forall_app in Hs as [_ ?]. }
  rewrite Hk1 in H1. by apply Forall_app in H1 as [_ ?].
Qed.

(** [trim] leaves alone a string that neither begins nor ends with white
    space. *)
Lemma trim_id c s d :
  isWhiteSpace c = false → isWhiteSpace d = false →
  trim (c :: s ++ [d]) = c :: s ++ [d].
Proof.
  intros Hc Hd. unfold trim, trimEnd. cbn [trimStart]. rewrite Hc.
  rewrite app_comm_cons, reverse_snoc. cbn [trimStart]. rewrite Hd.
  by rewrite <- reverse_snoc, reverse_involutive.
Qed.

Lemma split_no_sep sep s : sep ∉ s → split sep s = [s].
Proof.
  induction s as [|c s IH]; [done|]. intros Hn.
  apply not_elem_of_cons in Hn as [Hc Hs]. simpl.
  rewrite (proj2 (N.eqb_neq _ _)) by done. by rewrite IH.
Qed.

Lemma split_app sep s r :
  sep ∉ s → split sep (s ++ sep :: r) = s :: split sep r.
Proof.
  induction s as [|c s IH]; intros Hn; simpl.
  - by rewrite N.eqb_refl.
  - apply not_elem_of_cons in Hn as [Hc Hs].
    rewrite (proj2 (N.eqb_neq _ _)) by done. by rewrite IH.
Qed.

(** Splitting at the separator undoes joining with it. *)
Lemma split_join sep pieces :
  pieces ≠ [] → Forall (λ p, sep ∉ p) pieces →
  split sep (join [sep] pieces) = pieces.
Proof.
  intros Hne Hp. induction Hp as [|p ps Hp Hps IH]; [done|].
  destruct ps as [|q ps]; simpl.
  - by apply split_no_sep.
  - rewrite split_app by done. f_equal. by apply IH.
Qed.

(** *** The log of missing items *)

Lemma join_cons sep p ps :
  ps ≠ [] → join sep (p :: ps) = p ++ sep ++ join sep ps.
Proof. by destruct ps. Qed.

Lemma join_snoc_empty sep ps :
  ps ≠ [] → join sep (ps ++ [[]]) = join sep ps ++ sep.
Proof.
  induction ps as [|p ps IH]; [done|]. intros _.
  destruct ps as [|q ps].
  - simpl. by rewrite app_nil_r.
  - change ((p :: q :: ps) ++ [[]]) with (p :: (q :: ps) ++ [[]]).
    rewrite !join_cons by done. rewrite IH by done.
    by rewrite <- !app_assoc.
Qed.

Lemma toString_no_LF n : 0 ≤ n < 2 ^ 53 → LF ∉ toString n.
Proof.
  intros Hn Hin. destruct (toString_nonneg n Hn) as (Hd & _).
  by apply (Forall_forall _ _) with (x := LF) in Hd.
Qed.

Lemma missingLog_lines bs :
  Forall (λ b, 0 ≤ BeatMapSet.id b < 2 ^ 53) bs →
  drop 2 (split LF (missingLog bs)) = missingLogBody bs.
Proof.
  intros Hbs.
  assert (missingLog bs
          = join [LF] (lit "=== Missing Beatmap Sets ===" ::
                       lit "[ Try to download them manually ]" ::
                       missingLogBody bs)) as ->.
  { unfold missingLog, missingLogBody.
    rewrite !join_cons by by destruct bs.
    destruct bs as [|b bs]; [done|].
    rewrite join_snoc_empty by done. by rewrite <- ?app_assoc. }
  rewrite split_join; [done|done|].
  repeat constructor.
  - apply (bool_decide_unpack _). vm_compute. reflexivity.
  - apply (bool_decide_unpack _). vm_compute. reflexivity.
  - unfold missingLogBody. apply Forall_app. split.
    + destruct bs as [|b bs]; [repeat constructor; by intros ?%elem_of_nil|].
      apply Forall_fmap. eapply Forall_impl; [exact Hbs|].
      intros x Hx. cbv beta. unfold missingLogUrl.
      intros [Hin|Hin]%elem_of_app; [|by apply (toString_no_LF _ Hx)].
      revert Hin. apply (bool_decide_unpack _). vm_compute. reflexivity.
    + repeat constructor. by intros ?%elem_of_nil.
Qed.

Lemma searchFrom_here {A} (m : t → option A) s r :
  m s = Some r → searchFrom m s = Some r.
Proof. intros H. destruct s; simpl; by rewrite H. Qed.

Lemma searchFrom_next {A} (m : t → option A) c s :
  m (c :: s) = None → searchFrom m (c :: s) = searchFrom m s.
Proof. intros H. simpl. by rewrite H. Qed.

Lemma span_all_nil p s : Forall (λ c, p c = true) s → span p s = (s, []).
Proof.
  intros Hs. rewrite <- (app_nil_r s) at 1. by apply span_all.
Qed.

Lemma missingLogUrl_match b :
  0 ≤ BeatMapSet.id b < 2 ^ 53 →
  searchFrom matchBeatmapsetId (trim (missingLogUrl b))
  = Some (toString (BeatMapSet.id b)).
Proof.
  intros Hb. destruct (toString_nonneg _ Hb) as (Hd & Hne & _).
  unfold missingLogUrl. revert Hd Hne.
  generalize (toString (BeatMapSet.id b)). intros ds Hd Hne.
  assert (trim (lit "https://osu.ppy.sh/beatmapsets/" ++ ds)
          = lit "https://osu.ppy.sh/beatmapsets/" ++ ds) as ->.
  { destruct ds as [|d ds' _] using rev_ind; [done|].
    assert (isWhiteSpace d = false) as Hw.
    { apply isDigit_not_whiteSpace.
      apply Forall_app in Hd as [_ Hd]. by inversion Hd. }
    change (lit "https://osu.ppy.sh/beatmapsets/")
      with (104%N :: lit "ttps://osu.ppy.sh/beatmapsets/").
    by rewrite <- app_comm_cons, app_assoc, trim_id. }
  let x := eval vm_compute in (lit "https://osu.ppy.sh/beatmapsets/") in
  change (lit "https://osu.ppy.sh/beatmapsets/") with x.
  cbn [app].
  do 18 (rewrite searchFrom_next by (vm_compute; reflexivity)).
  apply searchFrom_here. unfold matchBeatmapsetId.
  let x := eval vm_compute in (lit "/beatmapsets/") in
  change (lit "/beatmapsets/") with x.
  cbn [stripPrefix N.eqb Pos.eqb]. rewrite span_all_nil by done.
  by destruct ds.
Qed.

Lemma resume_fold bs ids :
  Forall (λ b, 0 ≤ BeatMapSet.id b < 2 ^ 53) bs →
  fold_left
    (λ ids line,
       match searchFrom matchBeatmapsetId (trim line) with
       | Some ds =>
           match toNumber (digitsValue ds) with
           | Some id => Set_add id ids
           | None => ids
           end
       | None => ids
       end) (missingLogUrl <$> bs) ids
  = fold_left (λ ids b, Set_add (BeatMapSet.id b) ids) bs ids.
Proof.
  intros Hbs. revert ids. induction Hbs as [|b bs Hb _ IH]; intros ids; [done|].
  cbn [fmap list_fmap fold_left]. rewrite missingLogUrl_match by done.
  destruct (toString_nonneg _ Hb) as (_ & _ & ->).
  rewrite toNumber_safe by lia. apply IH.
Qed.

Lemma resumeMissingBeatmapIds_missingLog bs :
  Forall (λ b, 0 ≤ BeatMapSet.id b < 2 ^ 53) bs →
  resumeMissingBeatmapIds (missingLog bs)
  = fold_left (λ ids b, Set_add (BeatMapSet.id b) ids) bs [].
Proof.
  intros Hbs. unfold resumeMissingBeatmapIds.
  rewrite missingLog_lines by done. unfold missingLogBody.
  rewrite fold_left_app. destruct bs as [|b bs]; [done|].
  rewrite resume_fold by done. done.
Qed.

Lemma Set_add_fold_NoDup (ks acc : list Z) :
  NoDup (acc ++ ks) → fold_left (λ ids k, Set_add k ids) ks acc = acc ++ ks.
Proof.
  revert acc. induction ks as [|k ks IH]; intros acc Hnd.
  - by rewrite app_nil_r.
  - simpl. unfold Set_add at 2. rewrite decide_False.
    + rewrite IH; rewrite <- app_assoc; done.
    + apply NoDup_app in Hnd as (_ & Hd & _). intros Hin.
      apply (Hd k Hin). by left.
Qed.

Lemma Map_get_NoDup b m :
  NoDup (BeatMapSet.id <$> m) → b ∈ m → Map_get (BeatMapSet.id b) m = Some b.
Proof.
  intros Hnd Hb. unfold Map_get.
  destruct (list_find _ m) as [[i x]|] eqn:Hfind; simpl.
  - apply list_find_Some in Hfind as (Hi & Hid & _).
    apply list_elem_of_lookup in Hb as [j Hj].
    assert (i = j) as ->; [|congruence].
    apply (NoDup_lookup _ i j (BeatMapSet.id b) Hnd);
      rewrite list_lookup_fmap; [rewrite Hi|rewrite Hj]; simpl; congruence.
  - apply list_find_None in Hfind.
    by apply (Forall_forall _ _) with (x := b) in Hfind.
Qed.

(** *** File and folder names *)

Lemma replaceForbiddenChars_clean s :
  Forall (λ c, isForbiddenChar c = false) (replaceForbiddenChars s).
Proof.
  apply Forall_forall. intros c Hc.
  by apply list_elem_of_filter in Hc as [? _].
Qed.

Lemma stripPrefix_Some p s r : stripPrefix p s = Some r ↔ s = p ++ r.
Proof.
  revert s. induction p as [|c p IH]; intros s; simpl.
  - destruct s; split; congruence.
  - destruct s as [|d s]; [split; [done|by intros ?]|].
    destruct (c =? d)%N eqn:Hcd.
    + apply N.eqb_eq in Hcd as ->. rewrite IH. split; congruence.
    + apply N.eqb_neq in Hcd. split; [done|]. intros [= ? ?]. done.
Qed.

(** A search that fails has no match at any position, and one that
    succeeds returns the match at the first position that has one. *)
Lemma searchFrom_None {A} (m : t → option A) s :
  searchFrom m s = None → ∀ p q, s = p ++ q → m q = None.
Proof.
  induction s as [|c s IH]; simpl.
  - destruct (m []) eqn:Hm; [done|]. intros _ p q Hpq.
    symmetry in Hpq. by apply app_eq_nil in Hpq as [_ ->].
  - destruct (m (c :: s)) eqn:Hm; [done|]. intros Hs p q Hpq.
    destruct p as [|d p]; simpl in Hpq; [by subst|].
    injection Hpq as _ ->. by eapply IH.
Qed.

Lemma searchFrom_first {A} (m : t → option A) s r :
  searchFrom m s = Some r →
  ∃ p q, s = p ++ q ∧ m q = Some r ∧
         ∀ p1 p2, p = p1 ++ p2 → p2 ≠ [] → m (p2 ++ q) = None.
Proof.
  induction s as [|c s IH]; simpl.
  - destruct (m []) eqn:Hm; [|done]. intros [= ->]. exists [], [].
    split; [done|]. split; [done|]. intros p1 p2 Hp.
    symmetry in Hp. by apply app_eq_nil in Hp as [_ ->].
  - destruct (m (c :: s)) eqn:Hm.
    + intros [= ->]. exists [], (c :: s).
      split; [done|]. split; [done|]. intros p1 p2 Hp.
      symmetry in Hp. by apply app_eq_nil in Hp as [_ ->].
    + intros (p & q & -> & Hq & Hfirst)%IH. exists (c :: p), q.
      split; [done|]. split; [done|]. intros p1 p2 Hp Hne.
      destruct p1 as [|d p1]; simpl in Hp.
      * subst p2. exact Hm.
      * injection Hp as _ ->. by apply (Hfirst p1).
Qed.

(** What a match of [filename=([^;]+)] at the start of a string is. *)
Lemma matchFilename_Some s cap :
  matchFilename s = Some cap →
  ∃ after, s = lit "filename=" ++ cap ++ after ∧ cap ≠ [] ∧
           (59%N ∉ cap) ∧
           match after with c :: _ => c = 59%N | [] => True end.
Proof.
  unfold matchFilename.
  destruct (stripPrefix _ s) as [rest|] eqn:Hs; [|done].
  apply stripPrefix_Some in Hs as ->.
  pose proof (span_app (λ c, negb (c =? 59)%N) rest) as Happ.
  pose proof (span_prefix (λ c, negb (c =? 59)%N) rest) as Hpre.
  pose proof (span_rest (λ c, negb (c =? 59)%N) rest) as Hrest.
  destruct (span _ rest) as [l r]. simpl in *.
  destruct l as [|c l]; [done|]. intros [= <-]. exists r.
  split; [by rewrite Happ|]. split; [done|]. split.
  - intros Hin. apply (Forall_forall _ _) with (x := 59%N) in Hpre; done.
  - destruct r as [|d r]; [done|].
    apply negb_false_iff, N.eqb_eq in Hrest. done.
Qed.

(** X7. Whatever content-disposition header a mirror sends, and whatever
    the decoding of its [filename=] part gives, the name
    [_getFilename] returns holds none of the characters backslash, slash,
    angle bracket, colon, double quote, bar, question mark and asterisk.
    It is ["Untitled.osz"] when the header is absent or holds no
    [filename=] followed by a character other than a semicolon;
    otherwise it is the decoded value, with those characters taken out,
    of the text between the leftmost such [filename=] and the next
    semicolon or the end of the header.  The call throws exactly when
    decoding that text throws. *)
Theorem getFilename_chars (decodeURIComponent : t → option t)
    (contentDisposition : option t) :
  match getFilename decodeURIComponent contentDisposition with
  | Some fileName =>
      Forall (λ c, isForbiddenChar c = false) fileName ∧
      ((fileName = lit "Untitled.osz" ∧
        ∀ before rest, contentDisposition = Some (before ++ rest) →
                       matchFilename rest = None) ∨
       ∃ before cap after name,
         contentDisposition
         = Some (before ++ lit "filename=" ++ cap ++ after) ∧
         cap ≠ [] ∧ (59%N ∉ cap) ∧
         match after with c :: _ => c = 59%N | [] => True end ∧
         (∀ p1 p2, before = p1 ++ p2 → p2 ≠ [] →
                   matchFilename (p2 ++ lit "filename=" ++ cap ++ after)
                   = None) ∧
         decodeURIComponent cap = Some name ∧
         fileName = replaceForbiddenChars name)
  | None =>
      ∃ before cap after,
        contentDisposition
        = Some (before ++ lit "filename=" ++ cap ++ after) ∧
        cap ≠ [] ∧ (59%N ∉ cap) ∧
        match after with c :: _ => c = 59%N | [] => True end ∧
        (∀ p1 p2, before = p1 ++ p2 → p2 ≠ [] →
                  matchFilename (p2 ++ lit "filename=" ++ cap ++ after)
                  = None) ∧
        decodeURIComponent cap = None
  end.
Proof.
  assert (Forall (λ c, isForbiddenChar c = false) (lit "Untitled.osz")) as Hu.
  { apply (bool_decide_unpack _). vm_compute. reflexivity. }
  unfold getFilename. destruct contentDisposition as [h|];
    [|split; [done|left; split; [done|by intros]]].
  assert (searchFrom matchFilename h = None →
          ∀ before rest, Some h = Some (before ++ rest) →
                         matchFilename rest = None) as Hnone.
  { intros Hs before rest [= ->]. by eapply searchFrom_None. }
  destruct (searchFrom matchFilename h) as [cap|] eqn:Hs.
  2: { destruct h; (split; [done|left; split; [done|by apply Hnone]]). }
  apply searchFrom_first in Hs as (before & q & -> & Hq & Hfirst).
  apply matchFilename_Some in Hq as (after & -> & Hne & Hsemi & Hafter).
  assert (before ++ lit "filename=" ++ cap ++ after ≠ []) as Hh.
  { intros [_ H]%app_eq_nil. done. }
  destruct (before ++ lit "filename=" ++ cap ++ after) as [|c h'] eqn:Heq;
    [done|]. rewrite <- Heq. clear Hh.
  destruct (decodeURIComponent cap) as [name|] eqn:Hd.
  - split; [apply replaceForbiddenChars_clean|]. right.
    exists before, cap, after, name. split_and!; done.
  - exists before, cap, after. split_and!; done.
Qed.

(** The name need not be one that can be written to: the header
    [filename=..] gives [".."] and the header [filename=/] gives the
    empty name. *)
Example getFilename_dots :
  getFilename Some (Some (lit "filename=..")) = Some (lit "..") ∧
  getFilename Some (Some (lit "filename=/")) = Some [].
Proof. split; vm_compute; reflexivity. Qed.

Lemma isDigit_clean c : isDigit c = true → isForbiddenChar c = false.
Proof.
  unfold isDigit. intros [?%N.leb_le ?%N.leb_le]%andb_true_iff.
  unfold isForbiddenChar. apply bool_decide_eq_false.
  let x := eval vm_compute in (lit "\/<>:|?*" ++ [34%N]) in
  change (lit "\/<>:|?*" ++ [34%N]) with x.
  rewrite !elem_of_cons, elem_of_nil. lia.
Qed.

Lemma dropZeros_Forall (P : N → Prop) s : Forall P s → Forall P (dropZeros s).
Proof.
  induction 1 as [|c s Hc Hs IH]; simpl; [done|].
  destruct (c =? 48)%N; [done|by constructor].
Qed.

Lemma decimal_clean n : Forall (λ c, isForbiddenChar c = false) (decimal n).
Proof.
  destruct (decimal_spec n) as (Hd & _).
  eapply Forall_impl; [exact Hd|]. apply isDigit_clean.
Qed.

Lemma printNumber_clean m :
  Forall (λ c, isForbiddenChar c = false) (printNumber m).
Proof.
  unfold printNumber. cbv zeta. case_match; [apply decimal_clean|].
  set (v := shortest _ m).
  assert (Forall (λ c, isForbiddenChar c = false)
            (reverse (dropZeros (reverse (decimal v))))) as Hsig.
  { apply Forall_reverse, dropZeros_Forall, Forall_reverse, decimal_clean. }
  destruct (reverse (dropZeros (reverse (decimal v)))) as [|d [|d2 rest]];
    [done| |].
  - rewrite !Forall_app. split_and!;
      [done|by repeat constructor|apply decimal_clean].
  - apply Forall_cons in Hsig as [Hd Hrest].
    rewrite !Forall_app. split_and!;
      [by repeat constructor|by repeat constructor|done
      |by repeat constructor|apply decimal_clean].
Qed.

(** Whatever the number, its string holds none of the characters that no
    file name may hold. *)
Lemma toString_clean n : Forall (λ c, isForbiddenChar c = false) (toString n).
Proof.
  unfold toString. destruct (roundToNumber (Z.abs_N n)), (n <? 0);
    rewrite ?Forall_app; try split;
    try apply printNumber_clean; by repeat constructor.
Qed.

Lemma trimStart_no_leading s :
  match trimStart s with c :: _ => isWhiteSpace c = false | [] => True end.
Proof.
  induction s as [|c s IH]; simpl; [done|].
  destruct (isWhiteSpace c) eqn:Hc; [done|by rewrite Hc].
Qed.

Lemma trim_no_leading s :
  match trim s with c :: _ => isWhiteSpace c = false | [] => True end.
Proof.
  unfold trim, trimEnd.
  pose proof (trimStart_no_leading s) as Hs.
  destruct (trimStart_suffix (reverse (trimStart s))) as [k Hk].
  apply (f_equal reverse) in Hk. rewrite reverse_involutive, reverse_app in Hk.
  destruct (reverse (trimStart (reverse (trimStart s)))) as [|c r]; [done|].
  rewrite Hk in Hs. done.
Qed.

Lemma trim_no_trailing s r c : trim s = r ++ [c] → isWhiteSpace c = false.
Proof.
  unfold trim, trimEnd. intros H%(f_equal reverse).
  rewrite reverse_involutive, reverse_snoc in H.
  pose proof (trimStart_no_leading (reverse (trimStart s))) as Hs.
  by rewrite H in Hs.
Qed.

Lemma trim_sublist s : trim s `sublist_of` s.
Proof.
  unfold trim, trimEnd.
  destruct (trimStart_suffix s) as [k1 Hk1].
  destruct (trimStart_suffix (reverse (trimStart s))) as [k2 Hk2].
  apply (f_equal reverse) in Hk2. rewrite reverse_involutive, reverse_app in Hk2.
  rewrite Hk1 at 2. apply sublist_inserts_l.
  rewrite Hk2 at 2. by apply sublist_inserts_r.
Qed.

(** X8. The folder of a collection is named by the id as
    [Number.prototype.toString] prints it, the separator [" - "] and the
    name of the collection with the characters that no file name may
    hold taken out and the white space at both ends stripped.  The
    folder name holds none of those characters (in particular no path
    separator), and the part after the separator neither begins nor ends
    with white space.  For an id below 2^53 in absolute value the folder
    name begins with the decimal expansion of the id. *)
Theorem getCollectionFolderName_chars (id : Z) (name : t) :
  Forall (λ c, isForbiddenChar c = false) (getCollectionFolderName id name) ∧
  getCollectionName name `sublist_of` name ∧
  match getCollectionName name with
  | c :: _ => isWhiteSpace c = false
  | [] => True
  end ∧
  (∀ r c, getCollectionName name = r ++ [c] → isWhiteSpace c = false) ∧
  (Z.abs id < 2 ^ 53 →
   getCollectionFolderName id name
   = (if id <? 0 then lit "-" else []) ++ decimal (Z.abs_N id)
     ++ lit " - " ++ getCollectionName name).
Proof.
  split_and!.
  - unfold getCollectionFolderName, getCollectionName.
    rewrite !Forall_app. split_and!.
    + apply toString_clean.
    + by repeat constructor.
    + apply trim_Forall, replaceForbiddenChars_clean.
  - unfold getCollectionName.
    etrans; [apply trim_sublist|].
    apply (sublist_filter (λ c, isForbiddenChar c = false)).
  - apply trim_no_leading.
  - intros r c. apply trim_no_trailing.
  - intros Hid. unfold getCollectionFolderName. rewrite toString_safe by done.
    destruct (id <? 0); by rewrite <- ?app_assoc.
Qed.

(** *** The scan of the destination directory *)

Lemma matchLeadingId_Some entry ds :
  matchLeadingId entry = Some ds ↔
  ∃ c rest, entry = ds ++ c :: rest ∧ ds ≠ [] ∧
            Forall (λ d, isDigit d = true) ds ∧ isWhiteSpace c = true.
Proof.
  unfold matchLeadingId. split.
  - pose proof (span_app isDigit entry) as Happ.
    pose proof (span_prefix isDigit entry) as Hpre.
    destruct (span isDigit entry) as [[|d l] [|c r]]; try done.
    destruct (isWhiteSpace c) eqn:Hc; [|done]. intros [= <-].
    exists c, r. simpl in *. by rewrite Happ.
  - intros (c & rest & -> & Hne & Hds & Hc).
    rewrite span_all; [|done|by apply isWhiteSpace_not_digit].
    destruct ds; [done|]. by rewrite Hc.
Qed.

Lemma scanEntry_Some entry k :
  scanEntry entry = Some k ↔
  ∃ ds c rest, entry = ds ++ c :: rest ∧ ds ≠ [] ∧
               Forall (λ d, isDigit d = true) ds ∧ isWhiteSpace c = true ∧
               toNumber (digitsValue ds) = Some k.
Proof.
  unfold scanEntry. split.
  - destruct (matchLeadingId entry) as [ds|] eqn:Hm; [|done].
    apply matchLeadingId_Some in Hm as (c & rest & -> & Hne & Hds & Hc).
    rewrite parseInt_digits by done. intros Hk. by exists ds, c, rest.
  - intros (ds & c & rest & -> & Hne & Hds & Hc & <-).
    rewrite (proj2 (matchLeadingId_Some _ ds)) by by exists c, rest.
    by apply parseInt_digits.
Qed.

(** X9. With [skipExisting] on and a destination directory that can be
    listed, the job of an item is skipped exactly when some entry of the
    directory begins with decimal digits, followed by a white-space
    character, whose value as a Number is the id of the item; for an id
    below 2^53 in absolute value this is to say that the value of the
    digits is the id.  So the folder or archive [<id> <anything>] of an
    item with a non-negative id below 2^53 is always recognised.  With
    [skipExisting] off, or a directory that is missing or cannot be
    listed, nothing is skipped. *)
Theorem scanExisting_recognises cfg limit items t0 (names : list t) :
  (∀ k,
     alreadyExists
       (bulkDownload cfg limit (scanExisting true (Entries names)) items t0) k
     = true ↔
     ∃ ds c rest, ds ++ c :: rest ∈ names ∧ ds ≠ [] ∧
                  Forall (λ d, isDigit d = true) ds ∧
                  isWhiteSpace c = true ∧
                  toNumber (digitsValue ds) = Some k) ∧
  (∀ k,
     Z.abs k < 2 ^ 53 →
     (alreadyExists
        (bulkDownload cfg limit (scanExisting true (Entries names)) items t0) k
      = true ↔
      ∃ ds c rest, ds ++ c :: rest ∈ names ∧ ds ≠ [] ∧
                   Forall (λ d, isDigit d = true) ds ∧
                   isWhiteSpace c = true ∧ digitsValue ds = k)) ∧
  (∀ k c rest,
     0 ≤ k < 2 ^ 53 → isWhiteSpace c = true →
     toString k ++ c :: rest ∈ names →
     alreadyExists
       (bulkDownload cfg limit (scanExisting true (Entries names)) items t0) k
     = true) ∧
  (∀ k dir skip,
     skip = false ∨ dir = NoDirectory ∨ dir = Unreadable →
     alreadyExists (bulkDownload cfg limit (scanExisting skip dir) items t0) k
     = false).
Proof.
  assert (∀ k,
     alreadyExists
       (bulkDownload cfg limit (scanExisting true (Entries names)) items t0) k
     = true ↔
     ∃ ds c rest, ds ++ c :: rest ∈ names ∧ ds ≠ [] ∧
                  Forall (λ d, isDigit d = true) ds ∧
                  isWhiteSpace c = true ∧
                  toNumber (digitsValue ds) = Some k) as Hiff.
  { intros k. unfold alreadyExists. simpl.
    rewrite bool_decide_eq_true, elem_of_list_to_set, list_elem_of_omap.
    split.
    - intros (entry & Hin & (ds & c & rest & -> & ?)%scanEntry_Some).
      by exists ds, c, rest.
    - intros (ds & c & rest & Hin & ?). exists (ds ++ c :: rest).
      split; [done|]. apply scanEntry_Some. by exists ds, c, rest. }
  split_and!; [done| | |].
  - intros k Hk. rewrite Hiff. split.
    + intros (ds & c & rest & ? & ? & ? & ? & Hv).
      apply toNumber_inv_safe in Hv; [|done]. by exists ds, c, rest.
    + intros (ds & c & rest & ? & ? & ? & ? & <-).
      exists ds, c, rest. split_and!; [done..|]. by apply toNumber_safe.
  - intros k c rest Hk Hc Hin. apply Hiff.
    destruct (toString_nonneg k Hk) as (Hd & Hne & Hv).
    exists (toString k), c, rest. split_and!; [done..|].
    rewrite Hv. apply toNumber_safe. lia.
  - intros k dir skip H. unfold alreadyExists, scanExisting. simpl.
    destruct skip; [|done]. by destruct H as [?|[->| ->]].
Qed.

(** *** Resuming from the log of missing items *)

Lemma resumeMissingBeatmapIds_NoDup bs :
  Forall (λ b, 0 ≤ BeatMapSet.id b < 2 ^ 53) bs →
  NoDup (BeatMapSet.id <$> bs) →
  resumeMissingBeatmapIds (missingLog bs) = BeatMapSet.id <$> bs.
Proof.
  intros Hbs Hnd. rewrite resumeMissingBeatmapIds_missingLog by done.
  assert (∀ acc,
    fold_left (λ ids b, Set_add (BeatMapSet.id b) ids) bs acc
    = fold_left (λ ids k, Set_add k ids) (BeatMapSet.id <$> bs) acc) as ->.
  { clear. induction bs as [|b bs IH]; intros acc; [done|]. simpl. apply IH. }
  by rewrite Set_add_fold_NoDup.
Qed.

(** X10. Reading back the log that [generateMissingLog] writes for items
    with non-negative ids below 2^53 gives the ids of those items, each
    once, in the order of their first occurrence; for items with
    distinct ids, as the values of the collection map are, it gives
    their ids in order. *)
Theorem missingLog_round_trip (beatMapSets : list BeatMapSet.t) :
  Forall (λ b, 0 ≤ BeatMapSet.id b < 2 ^ 53) beatMapSets →
  resumeMissingBeatmapIds (missingLog beatMapSets)
  = fold_left (λ ids b, Set_add (BeatMapSet.id b) ids) beatMapSets [] ∧
  (NoDup (BeatMapSet.id <$> beatMapSets) →
   resumeMissingBeatmapIds (missingLog beatMapSets)
   = BeatMapSet.id <$> beatMapSets).
Proof.
  intros Hbs. split.
  - by apply resumeMissingBeatmapIds_missingLog.
  - by apply resumeMissingBeatmapIds_NoDup.
Qed.

Lemma filterResumed_missingLog (missing collection : list BeatMapSet.t) :
  Forall (λ b, 0 ≤ BeatMapSet.id b < 2 ^ 53) missing →
  NoDup (BeatMapSet.id <$> collection) →
  missing `sublist_of` collection →
  filterResumed (resumeMissingBeatmapIds (missingLog missing)) collection
  = missing.
Proof.
  intros Hids Hnd Hsub.
  assert (NoDup (BeatMapSet.id <$> missing)) as Hnd'.
  { pose proof (fmap_sublist BeatMapSet.id _ _ Hsub) as Hs.
    by eapply sublist_NoDup. }
  rewrite resumeMissingBeatmapIds_NoDup by done.
  unfold filterResumed.
  assert (∀ b, b ∈ missing → b ∈ collection) as Hin.
  { intros b. by apply sublist_subseteq. }
  clear -Hin Hnd. induction missing as [|b bs IH]; [done|].
  simpl. rewrite Map_get_NoDup; [|done|apply Hin; by left].
  f_equal. apply IH. intros x Hx. apply Hin. by right.
Qed.

Lemma missingLog_round_trip_witness :
  resumeMissingBeatmapIds (missingLog [demo_item 5; demo_item 7; demo_item 5])
  = fold_left (λ ids b, Set_add (BeatMapSet.id b) ids)
      [demo_item 5; demo_item 7; demo_item 5] [] ∧
  (NoDup (BeatMapSet.id <$> [demo_item 5; demo_item 7; demo_item 5]) →
   resumeMissingBeatmapIds (missingLog [demo_item 5; demo_item 7; demo_item 5])
   = BeatMapSet.id <$> [demo_item 5; demo_item 7; demo_item 5]).
Proof.
  apply missingLog_round_trip.
  apply (bool_decide_unpack _). vm_compute. reflexivity.
Defined.

(** X11. A run that is resumed from the log of missing items works on
    exactly the items the previous run left: when the items
    [getNotDownloadedBeatapSets()] returns in some state of a run over a
    collection with distinct non-negative ids below 2^53 are written to
    the log,
    and the log is read back and applied to the same collection fetched
    again, the resulting collection is that list of items, in the same
    order. *)
Theorem resume_selects_what_is_left cfg limit existing items t0 ins s :
  Forall (λ b, 0 ≤ BeatMapSet.id b < 2 ^ 53) items →
  NoDup (BeatMapSet.id <$> items) →
  run cfg ins (bulkDownload cfg limit existing items t0) = Some s →
  filterResumed
    (resumeMissingBeatmapIds (missingLog (getNotDownloadedBeatapSets s)))
    items
  = getNotDownloadedBeatapSets s.
Proof.
  intros Hids Hnd Hrun.
  destruct (run_collection_inv _ _ _ _ _ _ _ Hrun) as (_ & Hsub & _).
  apply filterResumed_missingLog; [|done|done].
  apply Forall_forall. intros b Hb.
  apply (Forall_forall _ _) with (x := b) in Hids; [done|].
  by eapply sublist_subseteq.
Qed.

Lemma resume_selects_what_is_left_witness :
  filterResumed
    (resumeMissingBeatmapIds (missingLog (getNotDownloadedBeatapSets demo_started)))
    demo_collection
  = getNotDownloadedBeatapSets demo_started.
Proof.
  apply (resume_selects_what_is_left (demo_config Catboy) (Some 10)
           (Some {[3]}) demo_collection 0 [Start; Start; Start]).
  - apply (bool_decide_unpack _). vm_compute. reflexivity.
  - apply (bool_decide_unpack _). vm_compute. reflexivity.
  - vm_compute. reflexivity.
Defined.

(** ** collection.db *)

Section CollectionDbArith.
Import CollectionDb.

Lemma toInt32_id z : - 2 ^ 31 ≤ z < 2 ^ 31 → toInt32 z = z.
Proof. intros Hz. unfold toInt32. rewrite Z.mod_small; lia. Qed.

Lemma toInt32_range z : - 2 ^ 31 ≤ toInt32 z < 2 ^ 31.
Proof.
  unfold toInt32. pose proof (Z.mod_pos_bound (z + 2 ^ 31) (2 ^ 32)). lia.
Qed.

Lemma valueOf_byteOf z : valueOf (byteOf z) = z mod 256.
Proof.
  unfold valueOf, byteOf.
  pose proof (Z.mod_pos_bound z 256 ltac:(lia)) as Hm.
  destruct (Byte.of_N (Z.to_N (z mod 256))) as [b|] eqn:Hb; simpl.
  - apply Byte.to_of_N in Hb. rewrite Hb. lia.
  - apply Byte.of_N_None_iff in Hb. lia.
Qed.

Lemma valueOf_range b : 0 ≤ valueOf b < 256.
Proof. unfold valueOf. pose proof (Byte.to_N_bounded b). lia. Qed.

Lemma byteOf_valueOf b : byteOf (valueOf b) = b.
Proof.
  unfold byteOf. rewrite Z.mod_small by apply valueOf_range.
  unfold valueOf. rewrite N2Z.id, Byte.of_to_N. done.
Qed.

Lemma lor_disjoint a b s :
  0 ≤ s → 0 ≤ a < 2 ^ s → Z.lor a (b * 2 ^ s) = a + b * 2 ^ s.
Proof.
  intros Hs Ha.
  assert (Z.land a (b * 2 ^ s) = 0) as Hland.
  { apply Z.bits_inj'. intros n Hn. rewrite Z.land_spec, Z.bits_0.
    destruct (Z.lt_ge_cases n s).
    - rewrite <- Z.shiftl_mul_pow2 by done.
      rewrite Z.shiftl_spec_low by done. apply andb_false_r.
    - rewrite <- (Z.mod_small a (2 ^ s)) by done.
      rewrite Z.mod_pow2_bits_high by lia. done. }
  rewrite Z.add_nocarry_lxor by done. symmetry. by apply Z.lxor_lor.
Qed.

Lemma small_cases (P : Z → Prop) `{!∀ g, Decision (P g)} :
  bool_decide (Forall P (seqZ 0 128)) = true → ∀ g, 0 ≤ g < 128 → P g.
Proof.
  intros HP%bool_decide_eq_true g Hg.
  apply (Forall_forall _ _) with (x := g) in HP; [done|].
  apply elem_of_seqZ. lia.
Qed.

Lemma and32_low v : 0 ≤ v < 2 ^ 31 → and32 v 127 = v mod 128.
Proof.
  intros Hv. unfold and32.
  rewrite (toInt32_id v), (toInt32_id 127) by lia.
  change 127 with (Z.ones 7). rewrite Z.land_ones by lia.
  pose proof (Z.mod_pos_bound v (2 ^ 7) ltac:(lia)).
  rewrite toInt32_id; [done|lia].
Qed.

Lemma sar32_7 v : 0 ≤ v < 2 ^ 31 → sar32 v 7 = v / 128.
Proof.
  intros Hv. unfold sar32. rewrite toInt32_id by lia.
  change (7 mod 32) with 7. by rewrite Z.shiftr_div_pow2.
Qed.

Lemma group_bits g :
  0 ≤ g < 128 →
  or32 g 128 = g + 128 ∧ and32 g 127 = g ∧ and32 g 128 = 0 ∧
  and32 (g + 128) 127 = g ∧ and32 (g + 128) 128 = 128.
Proof.
  revert g.
  apply (small_cases (λ g,
    or32 g 128 = g + 128 ∧ and32 g 127 = g ∧ and32 g 128 = 0 ∧
    and32 (g + 128) 127 = g ∧ and32 (g + 128) 128 = 128)).
  vm_compute. reflexivity.
Qed.

Lemma shl32_small g s :
  0 ≤ g → 0 ≤ s → g * 2 ^ s < 2 ^ 31 → shl32 g s = g * 2 ^ s.
Proof.
  intros Hg Hs Hlt. unfold shl32.
  destruct (Z.eq_dec g 0) as [->|Hg0].
  { rewrite (toInt32_id 0) by lia. rewrite Z.shiftl_0_l. by rewrite toInt32_id by lia. }
  assert (s < 31) as Hs'.
  { destruct (Z.lt_ge_cases s 31); [done|].
    assert (2 ^ 31 ≤ 2 ^ s) by (apply Z.pow_le_mono_r; lia). nia. }
  assert (1 ≤ 2 ^ s) by (pose proof (Z.pow_pos_nonneg 2 s); lia).
  rewrite (toInt32_id g) by nia.
  rewrite Z.mod_small by lia. rewrite Z.shiftl_mul_pow2 by done.
  apply toInt32_id. nia.
Qed.

Lemma or32_disjoint a b s :
  0 ≤ s → 0 ≤ a < 2 ^ s → 0 ≤ b → a + b * 2 ^ s < 2 ^ 31 →
  or32 a (b * 2 ^ s) = a + b * 2 ^ s.
Proof.
  intros Hs Ha Hb Hlt. unfold or32.
  assert (0 ≤ b * 2 ^ s) by nia.
  rewrite (toInt32_id a), (toInt32_id (b * 2 ^ s)) by lia.
  rewrite lor_disjoint by done.
  apply toInt32_id. lia.
Qed.

End CollectionDbArith.

Section CollectionDbFacts.
Import CollectionDb.
Context {Str : Type} `{Utf8 Str} `{EqDecision Str}.

Lemma readUInt8_app (pre : Buffer) b post :
  readUInt8 (pre ++ b :: post) (Z.of_nat (length pre)) = Some (valueOf b).
Proof.
  unfold readUInt8. rewrite (proj2 (Z.leb_le _ _)) by lia.
  rewrite Nat2Z.id, list_lookup_middle by done. done.
Qed.

Lemma readUInt8_at (pre : Buffer) b post o :
  o = Z.of_nat (length pre) → readUInt8 (pre ++ b :: post) o = Some (valueOf b).
Proof. intros ->. apply readUInt8_app. Qed.

Lemma readLength_lengthBytes fuel v bs :
  lengthBytes fuel v = Some bs → 0 ≤ v < 2 ^ 31 →
  ∀ fuel' (pre post : Buffer) acc s (m : Manager Str),
    (length bs ≤ fuel')%nat →
    offset m = Z.of_nat (length pre) →
    0 ≤ s → 0 ≤ acc < 2 ^ s → acc + v * 2 ^ s < 2 ^ 31 →
    readLength fuel' (pre ++ bs ++ post) acc s m
    = Ok (acc + v * 2 ^ s) (withOffset (offset m + Z.of_nat (length bs)) m).
Proof.
  revert v bs. induction fuel as [|fuel IH]; intros v bs; [done|].
  cbn [lengthBytes]. intros Hbs Hv fuel' pre post acc s m Hfuel Ho Hs Hacc Hlt.
  rewrite sar32_7, and32_low in Hbs by done.
  pose proof (Z.mod_pos_bound v 128 ltac:(lia)) as Hg.
  pose proof (Z.div_mod v 128 ltac:(lia)) as Hdm.
  destruct (group_bits (v mod 128) Hg) as (Hor & Ha1 & Ha2 & Ha3 & Ha4).
  assert (0 ≤ v / 128) as Hq by (apply Z.div_pos; lia).
  assert (0 < 2 ^ s) as Hpow by (apply Z.pow_pos_nonneg; lia).
  destruct (v / 128 =? 0) eqn:Hq0; simpl in Hbs.
  - apply Z.eqb_eq in Hq0. injection Hbs as <-.
    destruct fuel' as [|fuel']; [simpl in Hfuel; lia|].
    cbn [readLength]. unfold mbind, M_bind, bind, getOffset, orThrow, advance, ret.
    rewrite Ho. cbn [app]. rewrite readUInt8_app.
    rewrite valueOf_byteOf, (Z.mod_small (v mod 128)) by lia.
    rewrite Ha1, Ha2. simpl.
    rewrite shl32_small by nia. rewrite or32_disjoint by nia.
    unfold withOffset. simpl. repeat f_equal; nia.
  - apply Z.eqb_neq in Hq0.
    destruct (lengthBytes fuel (v / 128)) as [bs'|] eqn:Hbs'; [|done].
    injection Hbs as <-.
    destruct fuel' as [|fuel']; [simpl in Hfuel; lia|].
    cbn [readLength]. unfold mbind, M_bind, bind, getOffset, orThrow, advance, ret.
    rewrite Ho. cbn [app]. rewrite readUInt8_app.
    rewrite Hor, valueOf_byteOf, (Z.mod_small (v mod 128 + 128)) by lia.
    rewrite Ha3, Ha4. simpl.
    assert (2 ^ (s + 7) = 128 * 2 ^ s) as Hpow7.
    { rewrite Z.pow_add_r by lia. lia. }
    rewrite shl32_small by nia. rewrite or32_disjoint by nia.
    pose proof (IH (v / 128) bs' Hbs' ltac:(nia) fuel' (pre ++ [byteOf (v mod 128 + 128)])
      post (acc + v mod 128 * 2 ^ s) (s + 7)
      {| version := version m; collections := collections m;
         offset := offset m + 1 |}) as Hrec.
    rewrite <- app_assoc in Hrec. cbn [app] in Hrec.
    rewrite Hrec.
    + unfold withOffset. simpl. f_equal; [nia|]. f_equal. lia.
    + simpl in Hfuel. lia.
    + simpl. rewrite length_app. simpl. lia.
    + lia.
    + nia.
    + nia.
Qed.

Lemma lengthBytes_S fuel v :
  lengthBytes (S fuel) v
  = if negb (sar32 v 7 =? 0)
    then (byteOf (or32 (and32 v 127) 128) ::.) <$> lengthBytes fuel (sar32 v 7)
    else Some [byteOf (and32 v 127)].
Proof. done. Qed.

Lemma lengthBytes_total fuel v :
  0 ≤ v < 128 ^ Z.of_nat (S fuel) → v < 2 ^ 31 →
  ∃ bs, lengthBytes (S fuel) v = Some bs ∧ (length bs ≤ S fuel)%nat.
Proof.
  revert v. induction fuel as [|fuel IH]; intros v Hv Hv';
    rewrite lengthBytes_S, sar32_7 by lia.
  - change (128 ^ Z.of_nat 1) with 128 in Hv.
    rewrite Z.div_small by lia. simpl. eexists. split; [done|]. simpl. lia.
  - destruct (v / 128 =? 0) eqn:Hq; cbn [negb].
    + eexists. split; [done|]. simpl. lia.
    + destruct (IH (v / 128)) as (bs & -> & Hlen).
      * rewrite (Nat2Z.inj_succ (S fuel)), Z.pow_succ_r in Hv by lia.
        split; [apply Z.div_pos; lia|].
        apply Z.div_lt_upper_bound; lia.
      * pose proof (Z.div_le_upper_bound v 128 v ltac:(lia) ltac:(lia)). lia.
      * eexists. split; [done|]. simpl. lia.
Qed.

Lemma writeInt32LE_length v bs : writeInt32LE v = Some bs → length bs = 4%nat.
Proof. unfold writeInt32LE. case_match; [|done]. by intros [= <-]. Qed.

Lemma readInt32LE_writeInt32LE v bs (pre post : Buffer) :
  writeInt32LE v = Some bs →
  readInt32LE (pre ++ bs ++ post) (Z.of_nat (length pre)) = Some v.
Proof.
  unfold writeInt32LE, readInt32LE.
  destruct (_ && _) eqn:Hr; [|done]. intros [= <-].
  apply andb_true_iff in Hr as [Hlo%Z.leb_le Hhi%Z.ltb_lt].
  rewrite (proj2 (Z.leb_le _ _)) by lia.
  rewrite Nat2Z.id, drop_app_length. cbn [app]. f_equal.
  rewrite !valueOf_byteOf, !Z.shiftr_div_pow2 by lia.
  unfold toInt32.
  assert (v mod 256 + 2 ^ 8 * (v / 2 ^ 8 mod 256)
          + 2 ^ 16 * (v / 2 ^ 16 mod 256) + 2 ^ 24 * (v / 2 ^ 24 mod 256)
          = v - 2 ^ 32 * (v / 2 ^ 32)) as ->.
  { change (2 ^ 16) with (2 ^ 8 * 2 ^ 8).
    change (2 ^ 24) with (2 ^ 8 * 2 ^ 8 * 2 ^ 8).
    change (2 ^ 32) with (2 ^ 8 * 2 ^ 8 * 2 ^ 8 * 2 ^ 8).
    rewrite <- !Z.div_div by lia. change (2 ^ 8) with 256.
    pose proof (Z.div_mod v 256 ltac:(lia)).
    pose proof (Z.div_mod (v / 256) 256 ltac:(lia)).
    pose proof (Z.div_mod (v / 256 / 256) 256 ltac:(lia)).
    pose proof (Z.div_mod (v / 256 / 256 / 256) 256 ltac:(lia)).
    generalize dependent (v mod 256).
    generalize dependent (v / 256 mod 256).
    generalize dependent (v / 256 / 256 mod 256).
    generalize dependent (v / 256 / 256 / 256 mod 256).
    generalize dependent (v / 256 / 256 / 256 / 256).
    generalize dependent (v / 256 / 256 / 256).
    generalize dependent (v / 256 / 256).
    generalize dependent (v / 256). intros. lia. }
  replace (v - 2 ^ 32 * (v / 2 ^ 32) + 2 ^ 31)
    with (v + 2 ^ 31 + (- (v / 2 ^ 32)) * 2 ^ 32) by lia.
  rewrite Z_mod_plus_full, Z.mod_small; lia.
Qed.

Lemma writeOsuString_total str :
  roundTrips str → ∃ bs, writeOsuString str = Some bs.
Proof.
  intros [_ Hlen]. unfold writeOsuString. destruct (isEmptyStr str); [by eexists|].
  assert (0 ≤ Z.of_nat (length (utf8Encode str)) < 128 ^ Z.of_nat 5) as Hr.
  { split; [lia|]. eapply Z.lt_trans; [exact Hlen|]. done. }
  destruct (lengthBytes_total 4 _ Hr Hlen) as (lb & -> & _). by eexists.
Qed.

Lemma readOsuString_writeOsuString str bs (pre post : Buffer) (m : Manager Str) :
  roundTrips str → writeOsuString str = Some bs →
  offset m = Z.of_nat (length pre) →
  readOsuString (pre ++ bs ++ post) m
  = Ok str (withOffset (offset m + Z.of_nat (length bs)) m).
Proof.
  intros [Hstr Hlen] Hbs Ho. unfold writeOsuString in Hbs.
  unfold readOsuString, mbind, M_bind, bind, getOffset, orThrow, advance, ret.
  destruct (isEmptyStr str).
  - injection Hbs as <-. cbn [app]. rewrite (readUInt8_at _ _ _ _ Ho).
    rewrite valueOf_byteOf. simpl. by rewrite Hstr.
  - destruct (lengthBytes 5 _) as [lb|] eqn:Hlb; [|done].
    injection Hbs as <-. destruct Hstr as [Hne Hdec].
    cbn [app]. rewrite (readUInt8_at _ _ _ _ Ho).
    rewrite valueOf_byteOf. cbn [Z.modulo Z.eqb negb].
    change (11 mod 256 =? 0) with false. change (11 mod 256 =? 11) with true.
    cbn [negb].
    pose proof (readLength_lengthBytes 5 _ lb Hlb ltac:(lia)
      (S (length (pre ++ Byte.x0b :: (lb ++ utf8Encode str) ++ post)))
      (pre ++ [byteOf 11]) (utf8Encode str ++ post) 0 0
      {| version := version m; collections := collections m;
         offset := offset m + 1 |}) as Hrec.
    rewrite <- !app_assoc in Hrec. cbn [app] in Hrec.
    rewrite <- !app_assoc. change (byteOf 11) with Byte.x0b in *.
    rewrite Hrec; clear Hrec.
    + cbn [offset version collections withOffset]. rewrite Z.mul_1_r, Z.add_0_l.
      unfold toString.
      rewrite Ho.
      set (o := Z.of_nat (length pre) + 1 + Z.of_nat (length lb)).
      set (n := Z.of_nat (length (utf8Encode str))).
      assert (0 < n) as Hn.
      { unfold n. destruct (utf8Encode str); [done|]. simpl. lia. }
      assert (Z.of_nat (length (pre ++ Byte.x0b :: lb ++ utf8Encode str ++ post))
              = o + n + Z.of_nat (length post)) as ->.
      { rewrite length_app. simpl. rewrite !length_app. unfold o, n. lia. }
      rewrite Z.max_l by (unfold o; lia).
      rewrite (proj2 (Z.leb_gt _ _)) by lia.
      rewrite Z.min_l by lia. rewrite (proj2 (Z.leb_gt _ _)) by lia.
      replace (o + n - o) with n by lia.
      replace (Z.to_nat o) with (length (pre ++ Byte.x0b :: lb))
        by (rewrite length_app; simpl; unfold o; lia).
      replace (pre ++ Byte.x0b :: lb ++ utf8Encode str ++ post)
        with ((pre ++ Byte.x0b :: lb) ++ utf8Encode str ++ post)
        by (by rewrite <- app_assoc).
      rewrite drop_app_length. unfold n. rewrite Nat2Z.id, take_app_length.
      rewrite Hdec. unfold withOffset. do 2 f_equal.
      cbn [length]. rewrite length_app. unfold o. lia.
    + rewrite !length_app. simpl. rewrite !length_app. lia.
    + simpl. rewrite length_app. simpl. lia.
    + done.
    + simpl. lia.
    + lia.
Qed.

Lemma times_readOsuString hashes : ∀ bufs (pre post : Buffer) acc (m : Manager Str),
  Forall roundTrips hashes →
  mapM writeOsuString hashes = Some bufs →
  offset m = Z.of_nat (length pre) →
  times (length hashes) (readOsuString (pre ++ concat bufs ++ post)) acc m
  = Ok (acc ++ hashes)
      (withOffset (offset m + Z.of_nat (length (concat bufs))) m).
Proof.
  induction hashes as [|h hashes IH]; intros bufs pre post acc m Hrt Hw Ho.
  - apply mapM_Some in Hw. apply Forall2_nil_inv_l in Hw as ->.
    simpl. unfold ret, withOffset. rewrite app_nil_r, Z.add_0_r. by destruct m.
  - apply mapM_Some in Hw. apply Forall2_cons_inv_l in Hw as (b & bufs' & Hb & Hw & ->).
    apply mapM_Some in Hw. apply Forall_cons in Hrt as [Hh Hrt].
    cbn [length times concat]. unfold mbind, M_bind, bind.
    rewrite <- app_assoc.
    rewrite (readOsuString_writeOsuString h b pre _ m Hh Hb Ho).
    pose proof (IH bufs' (pre ++ b) post (acc ++ [h])
      (withOffset (offset m + Z.of_nat (length b)) m) Hrt Hw) as Hrec.
    rewrite <- !app_assoc in Hrec. rewrite Hrec.
    + unfold withOffset. simpl. rewrite length_app. f_equal. f_equal. lia.
    + simpl. rewrite length_app. lia.
Qed.

Lemma writeInt32LE_total v :
  - 2 ^ 31 ≤ v < 2 ^ 31 → ∃ bs, writeInt32LE v = Some bs.
Proof.
  intros Hv. unfold writeInt32LE.
  rewrite (proj2 (Z.leb_le _ _)), (proj2 (Z.ltb_lt _ _)) by lia. by eexists.
Qed.

Lemma mapM_total {A B} (f : A → option B) (P : A → Prop) l :
  (∀ x, P x → ∃ y, f x = Some y) → Forall P l → ∃ k, mapM f l = Some k.
Proof.
  intros Hf Hl. induction Hl as [|x l Hx _ [k Hk]].
  - by exists [].
  - destruct (Hf x Hx) as [y Hy]. exists (y :: k).
    apply mapM_Some. constructor; [done|]. by apply mapM_Some.
Qed.

Lemma writeCollection_total coll :
  entryRoundTrips coll → ∃ bs, writeCollection coll = Some bs.
Proof.
  intros (Hn & Hh & Hc). unfold writeCollection.
  destruct (writeOsuString_total _ Hn) as [nb ->].
  destruct (writeInt32LE_total (Z.of_nat (length (md5Hashes coll))))
    as [cb ->]; [lia|].
  destruct (mapM_total writeOsuString roundTrips (md5Hashes coll))
    as [hb ->]; [apply writeOsuString_total|done|].
  by eexists.
Qed.

Lemma readCollection_writeCollection coll bs (pre post : Buffer)
    (m : Manager Str) :
  entryRoundTrips coll → writeCollection coll = Some bs →
  offset m = Z.of_nat (length pre) →
  readCollection (pre ++ bs ++ post) m
  = Ok () {| version := version m; collections := collections m ++ [coll];
             offset := offset m + Z.of_nat (length bs) |}.
Proof.
  intros (Hn & Hh & Hc) Hbs Ho. unfold writeCollection in Hbs.
  destruct (writeOsuString (name coll)) as [nb|] eqn:Hnb; [|done].
  destruct (writeInt32LE _) as [cb|] eqn:Hcb; [|done].
  destruct (mapM _ _) as [hb|] eqn:Hhb; [|done].
  simpl in Hbs. injection Hbs as <-.
  unfold readCollection, mbind, M_bind, bind, getOffset, orThrow, advance.
  rewrite <- !app_assoc.
  rewrite (readOsuString_writeOsuString _ nb pre _ m Hn Hnb Ho).
  cbn [offset withOffset].
  pose proof (readInt32LE_writeInt32LE _ cb (pre ++ nb) (concat hb ++ post) Hcb)
    as Hcount.
  rewrite <- !app_assoc in Hcount.
  replace (offset m + Z.of_nat (length nb))
    with (Z.of_nat (length (pre ++ nb))) by (rewrite length_app; lia).
  rewrite Hcount. unfold ret at 1.
  pose proof (times_readOsuString (md5Hashes coll) hb (pre ++ nb ++ cb) post []
    {| version := version m; collections := collections m;
       offset := Z.of_nat (length (pre ++ nb)) + 4 |} Hh Hhb) as Hrec.
  rewrite <- !app_assoc in Hrec. rewrite Nat2Z.id.
  cbn [version collections offset withOffset]. rewrite Hrec.
  - unfold pushCollection, withOffset. simpl. destruct coll. simpl.
    do 2 f_equal. rewrite !length_app.
    apply writeInt32LE_length in Hcb. lia.
  - simpl. rewrite !length_app. apply writeInt32LE_length in Hcb. lia.
Qed.

Lemma repeatM_readCollection colls : ∀ bufs (pre post : Buffer) (m : Manager Str),
  Forall entryRoundTrips colls →
  mapM writeCollection colls = Some bufs →
  offset m = Z.of_nat (length pre) →
  repeatM (length colls) (readCollection (pre ++ concat bufs ++ post)) m
  = Ok () {| version := version m; collections := collections m ++ colls;
             offset := offset m + Z.of_nat (length (concat bufs)) |}.
Proof.
  induction colls as [|c colls IH]; intros bufs pre post m Hrt Hw Ho.
  - apply mapM_Some in Hw. apply Forall2_nil_inv_l in Hw as ->.
    simpl. unfold ret. rewrite app_nil_r, Z.add_0_r. by destruct m.
  - apply mapM_Some in Hw.
    apply Forall2_cons_inv_l in Hw as (b & bufs' & Hb & Hw & ->).
    apply mapM_Some in Hw. apply Forall_cons in Hrt as [Hc Hrt].
    cbn [length repeatM concat]. unfold mbind, M_bind, bind.
    rewrite <- app_assoc.
    rewrite (readCollection_writeCollection c b pre _ m Hc Hb Ho).
    pose proof (IH bufs' (pre ++ b) post
      {| version := version m; collections := collections m ++ [c];
         offset := offset m + Z.of_nat (length b) |} Hrt Hw) as Hrec.
    rewrite <- !app_assoc in Hrec. rewrite Hrec.
    + simpl. rewrite length_app, <- app_assoc. do 2 f_equal. lia.
    + simpl. rewrite length_app. lia.
Qed.

(** X12. A string written by [writeOsuString] is read back by
    [readOsuString] as it was, wherever the bytes sit in a buffer, and
    the read leaves the offset just behind them.  This holds for every
    string that the UTF-8 codec gives back unchanged and whose encoding
    is shorter than 2^31 bytes; for such a string [writeOsuString]
    returns, its length prefix being at most five bytes long. *)
Theorem osuString_round_trip (str : Str) (pre post : Buffer) (m : Manager Str) :
  roundTrips str → offset m = Z.of_nat (length pre) →
  ∃ bytes,
    writeOsuString str = Some bytes ∧
    (length bytes ≤ 6 + length (utf8Encode str))%nat ∧
    readOsuString (pre ++ bytes ++ post) m
    = Ok str {| version := version m; collections := collections m;
                offset := offset m + Z.of_nat (length bytes) |}.
Proof.
  intros Hstr Ho. destruct (writeOsuString_total str Hstr) as [bs Hbs].
  exists bs. split; [done|]. split.
  - unfold writeOsuString in Hbs. destruct Hstr as [_ Hlen].
    destruct (isEmptyStr str); [injection Hbs as <-; simpl; lia|].
    assert (0 ≤ Z.of_nat (length (utf8Encode str)) < 128 ^ Z.of_nat 5) as Hr.
    { split; [lia|]. eapply Z.lt_trans; [exact Hlen|]. done. }
    destruct (lengthBytes_total 4 _ Hr Hlen) as (lb & Hlb & Hle).
    rewrite Hlb in Hbs. injection Hbs as <-.
    simpl. rewrite length_app. lia.
  - by apply readOsuString_writeOsuString.
Qed.

(** X13. Reading the file that [writeCollectionDb] writes gives back the
    version and appends the collections that were written, names and
    hashes in order, to those the reading manager already holds (none,
    for a new manager); the read ends at the end of the file.  This
    holds when the version and the counts are 32-bit integers and every
    name and hash comes back unchanged from the UTF-8 codec. *)
Theorem collectionDb_round_trip (m reader : Manager Str) :
  - 2 ^ 31 ≤ version m < 2 ^ 31 →
  Z.of_nat (length (collections m)) < 2 ^ 31 →
  Forall entryRoundTrips (collections m) →
  ∃ file,
    writeCollectionDb m = Some file ∧
    readCollectionDb (Some file) reader
    = Ok true {| version := version m;
                 collections := collections reader ++ collections m;
                 offset := Z.of_nat (length file) |}.
Proof.
  intros Hv Hc Hcolls. unfold writeCollectionDb.
  destruct (writeInt32LE_total (version m) Hv) as [vb Hvb].
  destruct (writeInt32LE_total (Z.of_nat (length (collections m))))
    as [cb Hcb]; [lia|].
  destruct (mapM_total writeCollection entryRoundTrips (collections m))
    as [bufs Hbufs]; [apply writeCollection_total|done|].
  rewrite Hvb, Hcb, Hbufs. eexists. split; [done|].
  pose proof (writeInt32LE_length _ _ Hvb) as Hvl.
  pose proof (writeInt32LE_length _ _ Hcb) as Hcl.
  unfold readCollectionDb, mbind, M_bind, bind, setOffset, setVersion,
    getOffset, orThrow, advance.
  pose proof (readInt32LE_writeInt32LE _ vb [] (cb ++ concat bufs) Hvb) as Hrv.
  cbn [app length] in Hrv. change (Z.of_nat 0) with 0 in Hrv.
  rewrite Hrv. unfold ret at 1. cbn [version collections offset].
  pose proof (readInt32LE_writeInt32LE _ cb vb (concat bufs) Hcb) as Hrc.
  rewrite Hvl in Hrc. change (Z.of_nat 4) with (0 + 4) in Hrc.
  rewrite Hrc. unfold ret at 1. rewrite Nat2Z.id.
  pose proof (repeatM_readCollection (collections m) bufs (vb ++ cb) []
    {| version := version m; collections := collections reader;
       offset := 0 + 4 + 4 |} Hcolls Hbufs) as Hrec.
  rewrite <- !app_assoc, app_nil_r in Hrec.
  cbn [version collections offset]. rewrite Hrec.
  - unfold ret. cbn [version collections offset]. do 2 f_equal.
    rewrite !length_app. lia.
  - cbn [offset]. rewrite length_app. lia.
Qed.


Lemma Set_add_elem (x y : Str) l : y ∈ Set_add x l ↔ y = x ∨ y ∈ l.
Proof.
  unfold Set_add. case_decide.
  - split; [by right|]. by intros [->|?].
  - rewrite elem_of_app, list_elem_of_singleton. tauto.
Qed.

Lemma Set_add_NoDup (x : Str) l : NoDup l → NoDup (Set_add x l).
Proof.
  intros Hl. unfold Set_add. case_decide; [done|].
  apply NoDup_app. split_and!; [done| |apply NoDup_singleton].
  intros y Hy ->%list_elem_of_singleton. done.
Qed.

Lemma unique_spec (l : list Str) :
  NoDup (unique l) ∧ (∀ x, x ∈ unique l ↔ x ∈ l) ∧
  (NoDup l → unique l = l).
Proof.
  unfold unique.
  assert (∀ acc, NoDup acc →
    NoDup (fold_left (λ set h, Set_add h set) l acc) ∧
    (∀ x, x ∈ fold_left (λ set h, Set_add h set) l acc ↔ x ∈ acc ∨ x ∈ l) ∧
    (NoDup (acc ++ l) → fold_left (λ set h, Set_add h set) l acc = acc ++ l))
    as Hgen.
  { induction l as [|h l IH]; intros acc Hacc; simpl.
    - split_and!; [done| |by rewrite app_nil_r].
      intros x. rewrite elem_of_nil. tauto.
    - destruct (IH (Set_add h acc) (Set_add_NoDup h acc Hacc)) as (Hnd & Hin & Hid).
      split_and!; [done| |].
      + intros x. rewrite Hin, Set_add_elem, elem_of_cons. tauto.
      + intros Hnd'. assert (h ∉ acc) as Hh.
        { apply NoDup_app in Hnd' as (_ & Hd & _). intros Hin'.
          apply (Hd h Hin'). by left. }
        unfold Set_add in *. rewrite decide_False in * by done.
        rewrite Hid; rewrite <- app_assoc; done. }
  destruct (Hgen [] (NoDup_nil_2)) as (? & Hin & ?).
  split_and!; [done| |done].
  intros x. rewrite Hin, elem_of_nil. tauto.
Qed.

Lemma hasCollection_hashesOf n (m : Manager Str) :
  hasCollection n m = bool_decide (is_Some (hashesOf n m)).
Proof.
  unfold hasCollection, hashesOf. apply bool_decide_ext.
  rewrite fmap_is_Some, Exists_exists. split.
  - intros (c & Hc & Hn).
    destruct (list_find _ (collections m)) as [p|] eqn:Hf; [done|].
    apply list_find_None in Hf.
    by apply (Forall_forall _ _) with (x := c) in Hf.
  - intros [[i c] (Hi & Hn & _)%list_find_Some]. exists c.
    split; [by eapply list_elem_of_lookup_2|done].
Qed.

Lemma getCollectionSize_hashesOf n (m : Manager Str) :
  getCollectionSize n m = from_option length 0%nat (hashesOf n m).
Proof.
  unfold getCollectionSize, hashesOf.
  by destruct (list_find _ _) as [[i c]|].
Qed.

(** Replacing the hashes of the entry at an index that holds a
    collection named [n]. *)
Lemma list_find_setHashes n n' i hs (l : list (CollectionDbEntry Str)) c :
  list_find (λ c, name c = n) l = Some (i, c) →
  (λ p, md5Hashes p.2)
    <$> list_find (λ c, name c = n')
          (alter (λ c, {| name := name c; md5Hashes := hs |}) i l)
  = if decide (n' = n) then Some hs
    else (λ p, md5Hashes p.2) <$> list_find (λ c, name c = n') l.
Proof.
  set (f := λ c : CollectionDbEntry Str, {| name := name c; md5Hashes := hs |}).
  revert i. induction l as [|x l IH]; intros i; [done|].
  cbn [list_find]. destruct (decide (name x = n)) as [Hx|Hx].
  - intros [= <- <-]. cbn [alter list_alter list_find].
    change (name (f x)) with (name x).
    destruct (decide (name x = n')) as [Hx'|Hx'].
    + rewrite decide_True by congruence. done.
    + rewrite decide_False by congruence. done.
  - destruct (list_find (λ c, name c = n) l) as [[j y]|] eqn:Hf; [|done].
    intros [= <- <-]. cbn [alter list_alter list_find].
    specialize (IH j eq_refl). cbn [alter] in IH.
    destruct (decide (name x = n')) as [Hx'|Hx'].
    + rewrite decide_False by congruence. done.
    + rewrite <- !option_fmap_compose.
      destruct (decide (n' = n));
        destruct (list_find (λ c, name c = n') (alter f j l)) as [[??]|];
        destruct (list_find (λ c, name c = n') l) as [[??]|];
        simpl in *; congruence.
Qed.

Lemma hashesOf_push n n' hs (m : Manager Str) :
  hashesOf n m = None →
  hashesOf n'
    {| version := version m;
       collections := collections m ++ [{| name := n; md5Hashes := hs |}];
       offset := offset m |}
  = if decide (n' = n) then Some hs else hashesOf n' m.
Proof.
  unfold hashesOf. cbn [collections]. intros Hnone.
  destruct (list_find (λ c, name c = n') (collections m)) as [[i c]|] eqn:Hf.
  - erewrite list_find_app_l by done. simpl.
    rewrite decide_False; [done|]. intros ->. by rewrite Hf in Hnone.
  - rewrite list_find_app_r by done. cbn [list_find name].
    destruct (decide (n = n')) as [->|Hn].
    + by rewrite decide_True.
    + by rewrite decide_False by congruence.
Qed.

Lemma names_setHashes i hs (l : list (CollectionDbEntry Str)) :
  name <$> alter (λ c, {| name := name c; md5Hashes := hs |}) i l = name <$> l.
Proof.
  revert i. induction l as [|x l IH]; intros [|i]; simpl; [done..|].
  f_equal. apply IH.
Qed.

Lemma hashesOf_setHashes n n' i c hs (m : Manager Str) :
  list_find (λ c, name c = n) (collections m) = Some (i, c) →
  hashesOf n' (setHashes i hs m)
  = if decide (n' = n) then Some hs else hashesOf n' m.
Proof. intros Hf. unfold hashesOf, setHashes. cbn [collections]. by eapply list_find_setHashes. Qed.

(** The whole list after the hashes of the entry at index [i] are
    replaced: that entry keeps its name, the list its length, and every
    other entry, a later one of the same name included, is untouched. *)
Lemma setHashes_entries n i c hs (m : Manager Str) :
  list_find (λ c, name c = n) (collections m) = Some (i, c) →
  collections (setHashes i hs m) !! i = Some {| name := n; md5Hashes := hs |} ∧
  length (collections (setHashes i hs m)) = length (collections m) ∧
  ∀ j, j ≠ i → collections (setHashes i hs m) !! j = collections m !! j.
Proof.
  intros (Hi & Hn & _)%list_find_Some. unfold setHashes. cbn [collections].
  split_and!.
  - rewrite list_lookup_alter, decide_True, Hi by done. simpl. by rewrite Hn.
  - apply length_alter.
  - intros j Hj. by apply list_lookup_alter_ne.
Qed.

(** X14. [addCollection(name, hashes)] leaves the manager with a
    collection of that name: a new one holding the given hashes, at the
    end, when there was none, and otherwise the first one of that name
    holding its old hashes followed by the new ones, each hash once.  So
    every old and every given hash is in it, and [getCollectionSize]
    gives the number of those hashes.  Every other entry of the list,
    a later collection of the same name included, stays as it was and
    where it was. *)
Theorem addCollection_merges (collectionName : Str) (hashes : list Str)
    (m : Manager Str) :
  let m' := addCollection collectionName hashes m in
  let merged :=
    match hashesOf collectionName m with
    | Some old => unique (old ++ hashes)
    | None => hashes
    end in
  hashesOf collectionName m' = Some merged ∧
  hasCollection collectionName m' = true ∧
  getCollectionSize collectionName m' = length merged ∧
  (∀ h, h ∈ merged ↔
        h ∈ hashes ∨ ∃ old, hashesOf collectionName m = Some old ∧ h ∈ old) ∧
  (is_Some (hashesOf collectionName m) → NoDup merged) ∧
  (∀ other, other ≠ collectionName → hashesOf other m' = hashesOf other m) ∧
  name <$> collections m'
  = (name <$> collections m)
    ++ (if hasCollection collectionName m then [] else [collectionName]) ∧
  version m' = version m ∧
  match list_find (λ c, name c = collectionName) (collections m) with
  | Some (existingIndex, _) =>
      collections m' !! existingIndex
      = Some {| name := collectionName; md5Hashes := merged |} ∧
      length (collections m') = length (collections m) ∧
      ∀ j, j ≠ existingIndex → collections m' !! j = collections m !! j
  | None =>
      collections m'
      = collections m ++ [{| name := collectionName; md5Hashes := hashes |}]
  end.
Proof.
  cbv zeta.
  assert (hashesOf collectionName (addCollection collectionName hashes m)
          = Some match hashesOf collectionName m with
                 | Some old => unique (old ++ hashes)
                 | None => hashes
                 end ∧
          ∀ other, other ≠ collectionName →
            hashesOf other (addCollection collectionName hashes m)
            = hashesOf other m) as [Hn Ho].
  { unfold addCollection.
    destruct (list_find _ (collections m)) as [[i c]|] eqn:Hf.
    - split.
      + erewrite hashesOf_setHashes by done. rewrite decide_True by done.
        unfold hashesOf. by rewrite Hf.
      + intros other Hne. erewrite hashesOf_setHashes by done.
        by rewrite decide_False.
    - assert (hashesOf collectionName m = None) as Hnone
        by (unfold hashesOf; by rewrite Hf).
      split.
      + rewrite hashesOf_push by done. by rewrite decide_True, Hnone.
      + intros other Hne. rewrite hashesOf_push by done.
        by rewrite decide_False. }
  split_and!; [done| | | | |done| | |].
  - rewrite hasCollection_hashesOf, Hn. by apply bool_decide_eq_true.
  - by rewrite getCollectionSize_hashesOf, Hn.
  - intros h. destruct (hashesOf collectionName m) as [old|].
    + destruct (unique_spec (old ++ hashes)) as (_ & -> & _).
      rewrite elem_of_app. split.
      * intros [?|?]; [right; by exists old|by left].
      * intros [?|(? & [= <-] & ?)]; [by right|by left].
    + split; [by left|]. by intros [?|(? & ? & _)].
  - intros [old Hold]. rewrite Hold. apply unique_spec.
  - rewrite hasCollection_hashesOf. unfold addCollection, hashesOf.
    destruct (list_find _ (collections m)) as [[i c]|] eqn:Hf;
      cbn [fmap option_fmap option_map setHashes collections].
    + rewrite bool_decide_true by done.
      by rewrite names_setHashes, app_nil_r.
    + rewrite bool_decide_false by by intros [? ?].
      by rewrite fmap_app.
  - unfold addCollection. by destruct (list_find _ _) as [[i c]|].
  - unfold addCollection, hashesOf.
    destruct (list_find _ (collections m)) as [[i c]|] eqn:Hf; [|done].
    by eapply setHashes_entries.
Qed.

(** X15. [replaceCollection(name, hashes)] leaves the manager with a
    collection of that name holding exactly the given hashes: the first
    one of that name when there was one, a new one at the end otherwise.
    Every other entry of the list, a later collection of the same name
    included, stays as it was and where it was. *)
Theorem replaceCollection_overwrites (collectionName : Str)
    (hashes : list Str) (m : Manager Str) :
  let m' := replaceCollection collectionName hashes m in
  hashesOf collectionName m' = Some hashes ∧
  hasCollection collectionName m' = true ∧
  getCollectionSize collectionName m' = length hashes ∧
  (∀ other, other ≠ collectionName → hashesOf other m' = hashesOf other m) ∧
  name <$> collections m'
  = (name <$> collections m)
    ++ (if hasCollection collectionName m then [] else [collectionName]) ∧
  version m' = version m ∧
  match list_find (λ c, name c = collectionName) (collections m) with
  | Some (existingIndex, _) =>
      collections m' !! existingIndex
      = Some {| name := collectionName; md5Hashes := hashes |} ∧
      length (collections m') = length (collections m) ∧
      ∀ j, j ≠ existingIndex → collections m' !! j = collections m !! j
  | None =>
      collections m'
      = collections m ++ [{| name := collectionName; md5Hashes := hashes |}]
  end.
Proof.
  cbv zeta.
  assert (hashesOf collectionName (replaceCollection collectionName hashes m)
          = Some hashes ∧
          ∀ other, other ≠ collectionName →
            hashesOf other (replaceCollection collectionName hashes m)
            = hashesOf other m) as [Hn Ho].
  { unfold replaceCollection.
    destruct (list_find _ (collections m)) as [[i c]|] eqn:Hf.
    - split.
      + erewrite hashesOf_setHashes by done. by rewrite decide_True.
      + intros other Hne. erewrite hashesOf_setHashes by done.
        by rewrite decide_False.
    - assert (hashesOf collectionName m = None) as Hnone
        by (unfold hashesOf; by rewrite Hf).
      split.
      + rewrite hashesOf_push by done. by rewrite decide_True.
      + intros other Hne. rewrite hashesOf_push by done.
        by rewrite decide_False. }
  split_and!; [done| | |done| | |].
  - rewrite hasCollection_hashesOf, Hn. by apply bool_decide_eq_true.
  - by rewrite getCollectionSize_hashesOf, Hn.
  - rewrite hasCollection_hashesOf. unfold replaceCollection, hashesOf.
    destruct (list_find _ (collections m)) as [[i c]|] eqn:Hf;
      cbn [fmap option_fmap option_map setHashes collections].
    + rewrite bool_decide_true by done.
      by rewrite names_setHashes, app_nil_r.
    + rewrite bool_decide_false by by intros [? ?].
      by rewrite fmap_app.
  - unfold replaceCollection. by destruct (list_find _ _) as [[i c]|].
  - unfold replaceCollection.
    destruct (list_find _ (collections m)) as [[i c]|] eqn:Hf; [|done].
    by eapply setHashes_entries.
Qed.

Lemma fixHash_cases hashMapping old :
  ((fixHash hashMapping old).1 = old ∧ (fixHash hashMapping old).2 = false) ∨
  (hashMapping old = Some (fixHash hashMapping old).1 ∧
   isEmptyStr (fixHash hashMapping old).1 = false ∧
   (fixHash hashMapping old).1 ≠ old ∧ (fixHash hashMapping old).2 = true).
Proof.
  unfold fixHash. destruct (hashMapping old) as [new|]; [|by left].
  destruct (isEmptyStr new) eqn:He; [by left|].
  destruct (decide (new = old)) as [->|Hne].
  - rewrite bool_decide_true by done. by left.
  - rewrite bool_decide_false by done. by right.
Qed.

Lemma fixCollection_spec hashMapping (c : CollectionDbEntry Str) :
  name (fixCollection hashMapping c).1 = name c ∧
  Forall2
    (λ old new, new = old ∨
                (hashMapping old = Some new ∧ isEmptyStr new = false ∧
                 new ≠ old))
    (md5Hashes c) (md5Hashes (fixCollection hashMapping c).1) ∧
  (fixCollection hashMapping c).2 = changedHashes c (fixCollection hashMapping c).1.
Proof.
  unfold fixCollection, changedHashes. cbn [fst snd name md5Hashes].
  split; [done|]. induction (md5Hashes c) as [|old l [IH1 IH2]]; [by split|].
  cbn [fmap list_fmap zip zip_with].
  rewrite !filter_cons. cbn [fst snd].
  destruct (fixHash_cases hashMapping old) as [[H1 H2]|(H1 & H2 & H3 & H4)].
  - rewrite H1, H2. split; [constructor; [by left|done]|].
    rewrite decide_False by done. rewrite decide_False by (by intros ?). done.
  - rewrite H4. split; [constructor; [by right|done]|].
    rewrite decide_True by done. rewrite decide_True by (by intros ?).
    simpl. by rewrite IH2.
Qed.

(** X16. [fixHashes(hashMapping)] keeps the collections, their names and
    their order and the number of hashes in each; a hash is left as it
    was or replaced by what the mapping gives for it, and it is replaced
    only by a non-empty hash different from it; and [totalFixed] is the
    number of positions at which a hash was replaced. *)
Theorem fixHashes_counts_replacements (hashMapping : Str → option Str)
    (m : Manager Str) :
  let result := (fixHashes hashMapping m).1 in
  let m' := (fixHashes hashMapping m).2 in
  name <$> collections m' = name <$> collections m ∧
  Forall2
    (λ c c',
       Forall2
         (λ old new, new = old ∨
                     (hashMapping old = Some new ∧ isEmptyStr new = false ∧
                      new ≠ old))
         (md5Hashes c) (md5Hashes c'))
    (collections m) (collections m') ∧
  totalFixed result
  = sum_list (zip_with changedHashes (collections m) (collections m')) ∧
  version m' = version m.
Proof.
  cbv zeta. unfold fixHashes. cbn [fst snd collections version totalFixed].
  split_and!; [| | |done].
  - induction (collections m) as [|c l IH]; [done|].
    rewrite !fmap_cons, IH.
    by destruct (fixCollection_spec hashMapping c) as [-> _].
  - induction (collections m) as [|c l IH]; [done|].
    rewrite !fmap_cons. constructor; [|done].
    by destruct (fixCollection_spec hashMapping c) as (_ & ? & _).
  - induction (collections m) as [|c l IH]; [done|].
    rewrite !fmap_cons. cbn [zip_with sum_list_with]. rewrite IH.
    by destruct (fixCollection_spec hashMapping c) as (_ & _ & ->).
Qed.

End CollectionDbFacts.

Lemma osuString_round_trip_witness :
  ∃ bytes,
    CollectionDb.writeOsuString (list_byte_of_string "abc") = Some bytes ∧
    (length bytes ≤ 6 + 3)%nat ∧
    CollectionDb.readOsuString
      ([Byte.x0b; Byte.x00] ++ bytes ++ [Byte.x00])
      (CollectionDb.withOffset 2 demo_db)
    = CollectionDb.Ok (list_byte_of_string "abc")
        (CollectionDb.withOffset (2 + Z.of_nat (length bytes)) demo_db).
Proof.
  refine (osuString_round_trip (list_byte_of_string "abc")
            [Byte.x0b; Byte.x00] [Byte.x00]
            (CollectionDb.withOffset 2 demo_db) _ _
          : ∃ bytes, _ ∧ (length bytes ≤ 6 + 3)%nat ∧ _ = CollectionDb.Ok _ _).
  - vm_compute. split; [split; [discriminate | reflexivity] | reflexivity].
  - reflexivity.
Defined.

Lemma collectionDb_round_trip_witness :
  ∃ file,
    CollectionDb.writeCollectionDb demo_db = Some file ∧
    CollectionDb.readCollectionDb (Some file) CollectionDb.new
    = CollectionDb.Ok true
        {| CollectionDb.version := 20150203;
           CollectionDb.collections := CollectionDb.collections demo_db;
           CollectionDb.offset := Z.of_nat (length file) |}.
Proof.
  apply (collectionDb_round_trip demo_db CollectionDb.new).
  - vm_compute. split; [discriminate | reflexivity].
  - vm_compute. reflexivity.
  - repeat constructor; vm_compute; (reflexivity || discriminate).
Defined.
